(** * Real-time transcription relay: session protocol engine

    Shallow embedding of
      - backend/api/consumers/transcription_consumer.py  (TranscriptionConsumer)
      - backend/api/middleware/websocket_auth.py         (JWTAuthMiddleware)
      - backend/api/models.py                            (Transcription)
    The consumer is an object whose handlers mutate its attributes, write to
    the record store, call the recognition service and send frames.  Here a
    handler is a function on a pair (consumer attributes, world); the world
    holds the record table, the clock, and two logs: the frames sent to the
    client and the recognition calls made. *)

From Stdlib Require Import ZArith QArith String Ascii List Bool Lia.
From stdpp Require Import gmap strings list fin_maps.
Import ListNotations.
Local Open Scope string_scope.
Local Open Scope Z_scope.
Local Open Scope list_scope.

(** ** Python values *)

(** A [bytes] / [bytearray] value. *)
Abbreviation bytes := (list Byte.byte).

(** [len(x)] as an integer. *)
Definition len {A} (l : list A) : Z := Z.of_nat (length l).

Set Warnings "-register-all".

(** A value produced by [json.loads].  A JSON object is the association list
    of the resulting dict (one entry per key). *)
Inductive json :=
| JNull
| JBool (b : bool)
| JInt (n : Z)
| JFloat (q : Q)
| JStr (s : string)
| JArr (items : list json)
| JObj (fields : list (string * json)).

(** [type(v).__name__] *)
Definition type_name (v : json) : string :=
  match v with
  | JNull => "NoneType"
  | JBool _ => "bool"
  | JInt _ => "int"
  | JFloat _ => "float"
  | JStr _ => "str"
  | JArr _ => "list"
  | JObj _ => "dict"
  end.

Fixpoint assoc {V} (k : string) (d : list (string * V)) : option V :=
  match d with
  | [] => None
  | (k', v) :: d' => if String.eqb k k' then Some v else assoc k d'
  end.

(** [d.get(k, dflt)] on a dict. *)
Definition dict_get {V} (d : list (string * V)) (k : string) (dflt : V) : V :=
  match assoc k d with
  | Some v => v
  | None => dflt
  end.

(** [v == s] for a decoded JSON value [v] and a str literal [s]. *)
Definition eq_str (v : json) (s : string) : bool :=
  match v with
  | JStr s' => String.eqb s' s
  | _ => false
  end.

(** *** str.strip()

    A character of [string] stands for a code point below 256; the white
    space of [str.isspace] in that range is TAB..CR, FS..US, SPACE, NEL and
    NBSP. *)
Definition isspace (a : ascii) : bool :=
  let n := N_of_ascii a in
  ((9 <=? n) && (n <=? 13) || (28 <=? n) && (n <=? 32) || (n =? 133) || (n =? 160))%N.

Fixpoint lstrip (s : string) : string :=
  match s with
  | EmptyString => EmptyString
  | String a s' => if isspace a then lstrip s' else s
  end.

Fixpoint rstrip (s : string) : string :=
  match s with
  | EmptyString => EmptyString
  | String a s' =>
      match rstrip s' with
      | EmptyString => if isspace a then EmptyString else String a EmptyString
      | r => String a r
      end
  end.

Definition strip (s : string) : string := lstrip (rstrip s).

(** [sep.join(parts)] *)
Definition join (sep : string) (parts : list string) : string :=
  String.concat sep parts.

(** ** Durable records: [api.models.Transcription] *)

Inductive User :=
| AnonymousUser
| AuthUser (id : nat) (username : string).

Definition is_authenticated (u : User) : bool :=
  match u with
  | AnonymousUser => false
  | AuthUser _ _ => true
  end.

(** [isinstance(u, AnonymousUser)] *)
Definition is_AnonymousUser (u : User) : bool :=
  match u with
  | AnonymousUser => true
  | AuthUser _ _ => false
  end.

(** STATUS_CHOICES *)
Inductive Status := pending | processing | completed | failed.

Definition terminal (s : Status) : bool :=
  match s with
  | completed | failed => true
  | pending | processing => false
  end.

Definition time := nat.

Module Transcription.

(** The columns the relay reads or writes.  The audio metadata, duration,
    model version and request id columns keep their defaults throughout and
    are left out.  [language_code] is the value the consumer hands to the
    column, as decoded from the [config] message. *)
Record t := mk {
  user : option User;
  language_code : json;
  transcription_text : string;
  confidence_score : option Q;
  status : Status;
  error_message : string;
  session_id : option string;
  started_at : option time;
  completed_at : option time;
  created_at : time;
  updated_at : time
}.

Definition set_status (v : Status) (r : t) : t :=
  mk (user r) (language_code r) (transcription_text r) (confidence_score r)
     v (error_message r) (session_id r) (started_at r) (completed_at r)
     (created_at r) (updated_at r).

Definition set_transcription_text (v : string) (r : t) : t :=
  mk (user r) (language_code r) v (confidence_score r)
     (status r) (error_message r) (session_id r) (started_at r) (completed_at r)
     (created_at r) (updated_at r).

Definition set_confidence_score (v : option Q) (r : t) : t :=
  mk (user r) (language_code r) (transcription_text r) v
     (status r) (error_message r) (session_id r) (started_at r) (completed_at r)
     (created_at r) (updated_at r).

Definition set_error_message (v : string) (r : t) : t :=
  mk (user r) (language_code r) (transcription_text r) (confidence_score r)
     (status r) v (session_id r) (started_at r) (completed_at r)
     (created_at r) (updated_at r).

Definition set_started_at (v : option time) (r : t) : t :=
  mk (user r) (language_code r) (transcription_text r) (confidence_score r)
     (status r) (error_message r) (session_id r) v (completed_at r)
     (created_at r) (updated_at r).

Definition set_completed_at (v : option time) (r : t) : t :=
  mk (user r) (language_code r) (transcription_text r) (confidence_score r)
     (status r) (error_message r) (session_id r) (started_at r) v
     (created_at r) (updated_at r).

Definition set_updated_at (v : time) (r : t) : t :=
  mk (user r) (language_code r) (transcription_text r) (confidence_score r)
     (status r) (error_message r) (session_id r) (started_at r) (completed_at r)
     (created_at r) v.

End Transcription.

(** ** Frames and the recognition service *)

(** What [self.send(text_data=json.dumps({...}))] puts on the wire. *)
Inductive out_frame :=
| Connected (session_id message : string)
| ConfigConfirmed (language_code : json) (transcription_id : option nat)
| TranscriptionFrame (text full_text : string) (is_final : bool)
| Final (text : string) (transcription_id : option nat) (language_code : json)
| Error (message : string).

(** What [receive(text_data, bytes_data)] is called with. *)
Record in_frame := {
  text_data : option string;
  bytes_data : option bytes
}.

(** Outcome of [SarvamAIService.transcribe_audio_stream]: the dict with
    ['success'] true and a transcript, the dict with ['success'] false and
    (possibly) an ['error'] entry, or an exception raised before or while
    the result is used. *)
Inductive gateway_result :=
| GwSuccess (transcription : string)
| GwFailure (error : option string)
| GwRaise (msg : string).

Record gateway_call := {
  call_audio : bytes;
  call_language : json;
  call_result : gateway_result
}.

Inductive conn_state :=
| Connecting
| Accepted
| Closed (code : Z).

(** ** The world around one consumer

    [rows] is the Transcription table and [next_id] the id its next row
    gets;
    [clock] is what [timezone.now()] reads (every read advances it); [sent]
    and [calls] log, oldest first, the frames sent on this connection and
    the recognition calls made for it. *)
Record World := {
  rows : gmap nat Transcription.t;
  next_id : nat;
  clock : time;
  entropy : nat;
  conn : conn_state;
  sent : list out_frame;
  calls : list gateway_call
}.

Definition set_rows (v : gmap nat Transcription.t) (w : World) : World :=
  Build_World v (next_id w) (clock w) (entropy w) (conn w) (sent w) (calls w).
Definition set_next_id (v : nat) (w : World) : World :=
  Build_World (rows w) v (clock w) (entropy w) (conn w) (sent w) (calls w).
Definition set_clock (v : time) (w : World) : World :=
  Build_World (rows w) (next_id w) v (entropy w) (conn w) (sent w) (calls w).
Definition set_entropy (v : nat) (w : World) : World :=
  Build_World (rows w) (next_id w) (clock w) v (conn w) (sent w) (calls w).
Definition set_conn (v : conn_state) (w : World) : World :=
  Build_World (rows w) (next_id w) (clock w) (entropy w) v (sent w) (calls w).
Definition set_sent (v : list out_frame) (w : World) : World :=
  Build_World (rows w) (next_id w) (clock w) (entropy w) (conn w) v (calls w).
Definition set_calls (v : list gateway_call) (w : World) : World :=
  Build_World (rows w) (next_id w) (clock w) (entropy w) (conn w) (sent w) v.

(** The world a new connection starts in: some table, some time, nothing
    sent and nothing recognised yet. *)
Definition new_connection (tbl : gmap nat Transcription.t) (next : nat)
    (now : time) (seed : nat) : World :=
  Build_World tbl next now seed Connecting [] [].

(** [timezone.now()] *)
Definition timezone_now (w : World) : time * World :=
  (clock w, set_clock (S (clock w)) w).

(** [self.send(text_data=json.dumps(f))] *)
Definition send (f : out_frame) (w : World) : World :=
  set_sent (sent w ++ [f]) w.

(** [Model.save()]: [updated_at] is an [auto_now] column, set on the
    instance and written with the row. *)
Definition save (id : nat) (r : Transcription.t) (w : World) : Transcription.t * World :=
  let (now, w) := timezone_now w in
  let r := Transcription.set_updated_at now r in
  (r, set_rows (<[id := r]> (rows w)) w).

(** [Transcription.objects.get(id=...)]; [None] is [DoesNotExist], which is
    also what a lookup by [id=None] raises. *)
Definition objects_get (tid : option nat) (w : World) : option (nat * Transcription.t) :=
  match tid with
  | Some id =>
      match rows w !! id with
      | Some r => Some (id, r)
      | None => None
      end
  | None => None
  end.

(** [Transcription.mark_as_processing] *)
Definition mark_as_processing (id : nat) (r : Transcription.t) (w : World) : World :=
  let r := Transcription.set_status processing r in
  let (now, w) := timezone_now w in
  let r := Transcription.set_started_at (Some now) r in
  snd (save id r w).

(** [Transcription.mark_as_completed(text, confidence=None)] *)
Definition mark_as_completed (id : nat) (r : Transcription.t) (text : string)
    (confidence : option Q) (w : World) : World :=
  let r := Transcription.set_status completed r in
  let r := Transcription.set_transcription_text text r in
  let r := Transcription.set_confidence_score confidence r in
  let (now, w) := timezone_now w in
  let r := Transcription.set_completed_at (Some now) r in
  snd (save id r w).

(** [Transcription.mark_as_failed(error_message)] *)
Definition mark_as_failed (id : nat) (r : Transcription.t) (error_message : string)
    (w : World) : World :=
  let r := Transcription.set_status failed r in
  let r := Transcription.set_error_message error_message r in
  let (now, w) := timezone_now w in
  let r := Transcription.set_completed_at (Some now) r in
  snd (save id r w).

(** ** The consumer's attributes ([TranscriptionConsumer.__init__]) *)

Module Consumer.

Record t := mk {
  user : option User;
  session_id : option string;
  language_code : json;
  transcription_id : option nat;
  audio_buffer : bytes;
  full_transcription : string
}.

Definition init : t := mk None None (JStr "hi-IN") None [] "".

Definition set_user (v : option User) (c : t) : t :=
  mk v (session_id c) (language_code c) (transcription_id c)
     (audio_buffer c) (full_transcription c).
Definition set_session_id (v : option string) (c : t) : t :=
  mk (user c) v (language_code c) (transcription_id c)
     (audio_buffer c) (full_transcription c).
Definition set_language_code (v : json) (c : t) : t :=
  mk (user c) (session_id c) v (transcription_id c)
     (audio_buffer c) (full_transcription c).
Definition set_transcription_id (v : option nat) (c : t) : t :=
  mk (user c) (session_id c) (language_code c) v
     (audio_buffer c) (full_transcription c).
Definition set_audio_buffer (v : bytes) (c : t) : t :=
  mk (user c) (session_id c) (language_code c) (transcription_id c)
     v (full_transcription c).
Definition set_full_transcription (v : string) (c : t) : t :=
  mk (user c) (session_id c) (language_code c) (transcription_id c)
     (audio_buffer c) v.

End Consumer.

(** [if self.transcription_id:] -- [None] and [0] are falsy. *)
Definition truthy_id (tid : option nat) : bool :=
  match tid with
  | Some id => negb (id =? 0)%nat
  | None => false
  end.

(** [if text_data:] -- [None] and the empty str are falsy. *)
Definition truthy_str (s : option string) : option string :=
  match s with
  | Some EmptyString => None
  | Some t => Some t
  | None => None
  end.

(** [elif bytes_data:] -- [None] and empty bytes are falsy. *)
Definition truthy_bytes (b : option bytes) : option bytes :=
  match b with
  | Some [] => None
  | Some t => Some t
  | None => None
  end.

(** The 1-second threshold written out in [handle_audio] and
    [handle_audio_binary] (16 kHz, 16 bit, mono). *)
Definition FLUSH_THRESHOLD : Z := 32000.

(** ** Library and remote calls the relay depends on *)

Record Env := {
  (** [json.loads]; [None] is [json.JSONDecodeError]. *)
  json_loads : string -> option json;
  (** [base64.b64decode]; [inl msg] is an exception with [str(e) = msg]. *)
  b64decode : json -> string + bytes;
  (** [str(v)], as an f-string formats a decoded JSON value. *)
  py_str : json -> string;
  (** [urllib.parse.parse_qs] *)
  parse_qs : string -> list (string * list string);
  (** [get_user_from_token]: the token verifier and user lookup. *)
  get_user_from_token : string -> User;
  (** [str(uuid.uuid4())] for the given draw. *)
  uuid4 : nat -> string;
  (** The recognition service; the first argument counts the calls already
      made on this connection, so that equal requests may be answered
      differently. *)
  transcribe_audio_stream : nat -> bytes -> json -> gateway_result;
  (** Whether the database refuses the INSERT of a Transcription with this
      user, language code and session id for a reason of its own (a value
      longer than its column where the database enforces the length, a
      user row that is gone). *)
  insert_refused : option User -> json -> option string -> bool;
  (** [str(e)] of the exception a failing [Transcription.objects.create]
      with these arguments raises. *)
  create_error : option User -> json -> option string -> string
}.

(** A call that returns a value or raises an exception [e] with
    [str(e) = msg]. *)
Inductive outcome (A : Type) :=
| Returned (a : A)
| Raised (msg : string).

Arguments Returned {A} a.
Arguments Raised {A} msg.

(** What may be assigned to the foreign key [Transcription.user]: [None] or
    a row of User; anything else (an [AnonymousUser]) is a [ValueError]. *)
Definition assignable_user (user : option User) : bool :=
  match user with
  | Some AnonymousUser => false
  | _ => true
  end.

(** The columns [user], [language_code] and [session_id] of Transcription
    are declared without [null=True]: the database refuses a row with a
    NULL in one of them. *)
Definition not_null (user : option User) (language_code : json)
    (session_id : option string) : bool :=
  match user, language_code, session_id with
  | Some _, JNull, _ => false
  | Some _, _, Some _ => true
  | _, _, _ => false
  end.

(** A handler runs on the consumer's attributes and the world. *)
Definition St : Type := Consumer.t * World.

(** ** [JWTAuthMiddleware] *)

Record Scope := {
  query_string : option string;
  scope_user : option User
}.

Section Relay.

Context (E : Env).

(** [query_params.get('token', [None])[0]]: the first value of the [token]
    parameter, [Some None] when there is none; the outer [None] is the
    [IndexError] of an empty list of values. *)
Definition query_token (scope : Scope) : option (option string) :=
  let query_params := parse_qs E (default "" (query_string scope)) in
  match assoc "token" query_params with
  | Some values => Some <$> head values
  | None => Some None
  end.

(** [JWTAuthMiddleware.__call__], up to the call of the inner application:
    the scope it hands on, or [None] when the subscript raised. *)
Definition JWTAuthMiddleware_call (scope : Scope) : option Scope :=
  match query_token scope with
  | Some token =>
      let user :=
        match truthy_str token with
        | Some token => get_user_from_token E token
        | None => AnonymousUser
        end in
      Some {| query_string := query_string scope; scope_user := Some user |}
  | None => None
  end.

(** ** [TranscriptionConsumer] *)

(** [connect] *)
Definition connect (scope : Scope) (st : St) : St :=
  let '(c, w) := st in
  let u := default AnonymousUser (scope_user scope) in
  let c := Consumer.set_user (Some u) c in
  if is_AnonymousUser u || negb (is_authenticated u) then
    (c, set_conn (Closed 4001) w)
  else
    let sid := uuid4 E (entropy w) in
    let w := set_entropy (S (entropy w)) w in
    let c := Consumer.set_session_id (Some sid) c in
    let w := set_conn Accepted w in
    let w := send (Connected sid "Connected to transcription service") w in
    (c, w).

(** [disconnect] *)
Definition disconnect (st : St) : St :=
  let '(c, w) := st in
  (Consumer.set_audio_buffer [] c, w).

(** [Transcription.objects.create(user=..., language_code=...,
    session_id=..., status='processing')].  Building the instance raises
    [ValueError] when [user] is not assignable.  The INSERT then reads the
    clock for [created_at] ([auto_now_add]) and [updated_at] ([auto_now])
    and goes to the database, which raises for a NULL in a NOT NULL column
    or for a reason of its own; nothing is stored then.  Otherwise the row
    is stored under the next id. *)
Definition objects_create (user : option User) (language_code : json)
    (session_id : option string) (w : World)
    : outcome (nat * Transcription.t) * World :=
  if assignable_user user then
    let (created, w) := timezone_now w in
    let (updated, w) := timezone_now w in
    if not_null user language_code session_id &&
       negb (insert_refused E user language_code session_id)
    then
      let id := next_id w in
      let transcription :=
        Transcription.mk user language_code "" None processing "" session_id
          None None created updated in
      (Returned (id, transcription),
       set_rows (<[id := transcription]> (rows w)) (set_next_id (S id) w))
    else (Raised (create_error E user language_code session_id), w)
  else (Raised (create_error E user language_code session_id), w).

(** [create_transcription]: [objects.create], then [mark_as_processing]
    saves the new row again; an exception of the create passes through. *)
Definition create_transcription (c : Consumer.t) (w : World) : outcome nat * World :=
  match objects_create (Consumer.user c) (Consumer.language_code c)
          (Consumer.session_id c) w with
  | (Returned (id, transcription), w) =>
      (Returned id, mark_as_processing id transcription w)
  | (Raised e, w) => (Raised e, w)
  end.

(** [update_transcription] *)
Definition update_transcription (text : string) (is_partial : bool)
    (c : Consumer.t) (w : World) : World :=
  match objects_get (Consumer.transcription_id c) w with
  | Some (id, transcription) =>
      let transcription :=
        if is_partial then
          let current_text := Transcription.transcription_text transcription in
          Transcription.set_transcription_text
            (strip (current_text +:+ " " +:+ text)) transcription
        else Transcription.set_transcription_text text transcription in
      snd (save id transcription w)
  | None => w
  end.

(** [mark_transcription_completed] *)
Definition mark_transcription_completed (c : Consumer.t) (w : World) : World :=
  match objects_get (Consumer.transcription_id c) w with
  | Some (id, transcription) =>
      mark_as_completed id transcription (strip (Consumer.full_transcription c)) None w
  | None => w
  end.

(** [mark_transcription_failed] *)
Definition mark_transcription_failed (error_message : string)
    (c : Consumer.t) (w : World) : World :=
  match objects_get (Consumer.transcription_id c) w with
  | Some (id, transcription) => mark_as_failed id transcription error_message w
  | None => w
  end.

(** [transcribe_audio] *)
Definition transcribe_audio (audio_data : bytes) (c : Consumer.t) (w : World)
    : gateway_result * World :=
  let result :=
    transcribe_audio_stream E (length (calls w)) audio_data (Consumer.language_code c) in
  (result,
   set_calls (calls w ++ [{| call_audio := audio_data;
                             call_language := Consumer.language_code c;
                             call_result := result |}]) w).

(** [send_error] *)
Definition send_error (message : string) (st : St) : St :=
  let '(c, w) := st in
  let w := send (Error message) w in
  if truthy_id (Consumer.transcription_id c)
  then (c, mark_transcription_failed message c w)
  else (c, w).

(** [process_audio_buffer] *)
Definition process_audio_buffer (st : St) : St :=
  let '(c, w) := st in
  let audio_data := Consumer.audio_buffer c in
  let c := Consumer.set_audio_buffer [] c in
  let (result, w) := transcribe_audio audio_data c w in
  match result with
  | GwSuccess transcription_text =>
      let c := Consumer.set_full_transcription
                 (Consumer.full_transcription c +:+ (transcription_text +:+ " ")) c in
      let w := update_transcription transcription_text true c w in
      let w := send (TranscriptionFrame transcription_text
                       (strip (Consumer.full_transcription c)) false) w in
      (c, w)
  | GwFailure error =>
      let error_msg := default "Unknown error" error in
      send_error ("Transcription error: " +:+ error_msg) (c, w)
  | GwRaise e =>
      send_error ("Processing error: " +:+ e) (c, w)
  end.

(** [handle_config], with the state it leaves: when
    [create_transcription] raises, the language is already set and neither
    the record id nor the wire has changed. *)
Definition handle_config (data : list (string * json)) (st : St) : outcome unit * St :=
  let '(c, w) := st in
  let c := Consumer.set_language_code (dict_get data "language_code" (JStr "hi-IN")) c in
  match create_transcription c w with
  | (Returned id, w) =>
      let c := Consumer.set_transcription_id (Some id) c in
      let w := send (ConfigConfirmed (Consumer.language_code c)
                       (Consumer.transcription_id c)) w in
      (Returned tt, (c, w))
  | (Raised e, w) => (Raised e, (c, w))
  end.

(** [handle_audio] *)
Definition handle_audio (data : list (string * json)) (st : St) : St :=
  let '(c, w) := st in
  let audio_base64 := dict_get data "data" (JStr "") in
  match b64decode E audio_base64 with
  | inr audio_bytes =>
      let c := Consumer.set_audio_buffer (Consumer.audio_buffer c ++ audio_bytes) c in
      if FLUSH_THRESHOLD <=? len (Consumer.audio_buffer c)
      then process_audio_buffer (c, w)
      else (c, w)
  | inl e => send_error ("Error processing audio: " +:+ e) (c, w)
  end.

(** [handle_audio_binary] *)
Definition handle_audio_binary (audio_bytes : bytes) (st : St) : St :=
  let '(c, w) := st in
  let c := Consumer.set_audio_buffer (Consumer.audio_buffer c ++ audio_bytes) c in
  if FLUSH_THRESHOLD <=? len (Consumer.audio_buffer c)
  then process_audio_buffer (c, w)
  else (c, w).

(** [handle_end] *)
Definition handle_end (st : St) : St :=
  let '(c, w) :=
    if 0 <? len (Consumer.audio_buffer (fst st))
    then process_audio_buffer st
    else st in
  let w := mark_transcription_completed c w in
  let w := send (Final (strip (Consumer.full_transcription c))
                   (Consumer.transcription_id c) (Consumer.language_code c)) w in
  (c, w).

(** [receive].  A decoded value that is not a dict has no [get]: the
    [AttributeError] lands in the last [except] clause, and so does an
    exception of [handle_config]; the other handlers catch their own. *)
Definition receive (f : in_frame) (st : St) : St :=
  match truthy_str (text_data f) with
  | Some text =>
      match json_loads E text with
      | None => send_error "Invalid JSON format" st
      | Some (JObj data) =>
          let message_type := dict_get data "type" JNull in
          if eq_str message_type "config" then
            match handle_config data st with
            | (Returned _, st) => st
            | (Raised e, st) => send_error ("Error processing message: " +:+ e) st
            end
          else if eq_str message_type "audio" then handle_audio data st
          else if eq_str message_type "end" then handle_end st
          else send_error ("Unknown message type: " +:+ py_str E message_type) st
      | Some v =>
          send_error ("Error processing message: " +:+
                      ("'" +:+ type_name v +:+ "' object has no attribute 'get'")) st
      end
  | None =>
      match truthy_bytes (bytes_data f) with
      | Some b => handle_audio_binary b st
      | None => st
      end
  end.

(** A session: the frames of one connection, handled one after the other. *)
Definition run (frames : list in_frame) (st : St) : St :=
  fold_left (fun st f => receive f st) frames st.

(** One connection from the handshake on.  The server calls [receive] only
    on a connection the consumer accepted. *)
Definition serve (scope : Scope) (frames : list in_frame) (w : World) : St :=
  match JWTAuthMiddleware_call scope with
  | None => (Consumer.init, w)
  | Some scope =>
      let st := connect scope (Consumer.init, w) in
      match conn (snd st) with
      | Accepted => run frames st
      | _ => st
      end
  end.

End Relay.

Arguments send_error : simpl never.
Arguments process_audio_buffer : simpl never.
Arguments handle_config : simpl never.
Arguments handle_audio : simpl never.
Arguments handle_audio_binary : simpl never.
Arguments handle_end : simpl never.
Arguments receive : simpl never.

(** ** A concrete environment

    Stand-ins for the library and remote calls, used to run the relay on
    explicit sessions. *)
Module Demo.

Definition dq : string := String "034"%char EmptyString.
Definition quoted (s : string) : string := dq +:+ s +:+ dq.

(** The JSON texts of the sessions below. *)
Definition config_text : string :=
  "{" +:+ quoted "type" +:+ ": " +:+ quoted "config" +:+ ", "
      +:+ quoted "language_code" +:+ ": " +:+ quoted "ta-IN" +:+ "}".
Definition audio_text : string :=
  "{" +:+ quoted "type" +:+ ": " +:+ quoted "audio" +:+ ", "
      +:+ quoted "data" +:+ ": " +:+ quoted "AQI=" +:+ "}".
Definition bad_audio_text : string :=
  "{" +:+ quoted "type" +:+ ": " +:+ quoted "audio" +:+ ", "
      +:+ quoted "data" +:+ ": " +:+ quoted "A" +:+ "}".
Definition end_text : string :=
  "{" +:+ quoted "type" +:+ ": " +:+ quoted "end" +:+ "}".
Definition null_config_text : string :=
  "{" +:+ quoted "type" +:+ ": " +:+ quoted "config" +:+ ", "
      +:+ quoted "language_code" +:+ ": null}".

Definition json_loads (s : string) : option json :=
  if String.eqb s config_text then
    Some (JObj [("type", JStr "config"); ("language_code", JStr "ta-IN")])
  else if String.eqb s audio_text then
    Some (JObj [("type", JStr "audio"); ("data", JStr "AQI=")])
  else if String.eqb s bad_audio_text then
    Some (JObj [("type", JStr "audio"); ("data", JStr "A")])
  else if String.eqb s end_text then Some (JObj [("type", JStr "end")])
  else if String.eqb s null_config_text then
    Some (JObj [("type", JStr "config"); ("language_code", JNull)])
  else if String.eqb s "{}" then Some (JObj [])
  else if String.eqb s "[]" then Some (JArr [])
  else None.

Definition b64decode (v : json) : string + bytes :=
  match v with
  | JStr "" => inr []
  | JStr "AQI=" => inr [Byte.x01; Byte.x02]
  | JStr _ => inl "Incorrect padding"
  | _ => inl "argument should be a bytes-like object or ASCII string"
  end.

Definition py_str (v : json) : string :=
  match v with
  | JNull => "None"
  | JStr s => s
  | _ => "?"
  end.

Definition parse_qs (s : string) : list (string * list string) :=
  if String.eqb s "" then []
  else if String.eqb s "token=good" then [("token", ["good"])]
  else if String.eqb s "token=stale" then [("token", ["stale"])]
  else [].

Definition get_user_from_token (token : string) : User :=
  if String.eqb token "good" then AuthUser 7 "asha" else AnonymousUser.

Definition uuid4 (n : nat) : string :=
  match n with
  | O => "0b0e7a2c-4d1f-4f6e-9a57-3c1f0e2d9b10"
  | _ => "6f1c2f0a-9a3e-4c58-8b7d-5e2a1c4d7e33"
  end.

(** The engine recognises every call, except the third and every empty
    one. *)
Definition transcribe_audio_stream (n : nat) (audio : bytes) (lang : json)
    : gateway_result :=
  match audio, n with
  | [], _ => GwRaise "empty audio"
  | _, O => GwSuccess "vanakkam"
  | _, 1%nat => GwSuccess " ulagam "
  | _, 2%nat => GwFailure (Some "503 Server Error")
  | _, _ => GwSuccess "nandri"
  end.

(** The database takes every row that has its NOT NULL columns. *)
Definition insert_refused (user : option User) (language_code : json)
    (session_id : option string) : bool := false.

Definition create_error (user : option User) (language_code : json)
    (session_id : option string) : string :=
  match user, language_code with
  | Some AnonymousUser, _ =>
      "Cannot assign AnonymousUser: Transcription.user must be a User instance."
  | None, _ => "NOT NULL constraint failed: api_transcription.user_id"
  | _, JNull => "NOT NULL constraint failed: api_transcription.language_code"
  | _, _ => "NOT NULL constraint failed: api_transcription.session_id"
  end.

Definition env : Env :=
  Build_Env json_loads b64decode py_str parse_qs get_user_from_token uuid4
    transcribe_audio_stream insert_refused create_error.

Definition text_frame (s : string) : in_frame :=
  {| text_data := Some s; bytes_data := None |}.
Definition binary_frame (b : bytes) : in_frame :=
  {| text_data := None; bytes_data := Some b |}.

Definition world0 : World := new_connection ∅ 1%nat 100%nat 0%nat.
Definition good_scope : Scope :=
  {| query_string := Some "token=good"; scope_user := None |}.
Definition stale_scope : Scope :=
  {| query_string := Some "token=stale"; scope_user := None |}.
Definition bare_scope : Scope :=
  {| query_string := None; scope_user := None |}.

Definition second_of_audio : bytes := replicate (Z.to_nat FLUSH_THRESHOLD) Byte.x00.

(** A configured session: one record, being processed. *)
Definition row1 : Transcription.t :=
  Transcription.mk (Some (AuthUser 7 "asha")) (JStr "ta-IN") "" None processing ""
    (Some "0b0e7a2c-4d1f-4f6e-9a57-3c1f0e2d9b10") (Some 102%nat) None
    100%nat 103%nat.
Definition world1 : World :=
  Build_World {[1%nat := row1]} 2%nat 104%nat 1%nat Accepted [] [].
Definition consumer1 : Consumer.t :=
  Consumer.mk (Some (AuthUser 7 "asha"))
    (Some "0b0e7a2c-4d1f-4f6e-9a57-3c1f0e2d9b10") (JStr "ta-IN") (Some 1%nat) [] "".
Definition session1 : St := (consumer1, world1).

(** The same session after [end]. *)
Definition row2 : Transcription.t :=
  Transcription.set_status completed
    (Transcription.set_completed_at (Some 104%nat) row1).
Definition world2 : World :=
  Build_World {[1%nat := row2]} 2%nat 106%nat 1%nat Accepted [] [].
Definition session2 : St := (consumer1, world2).

End Demo.

(** ** Vocabulary of the properties *)

(** The audio buffer of a state. *)
Definition buffer_of (st : St) : bytes := Consumer.audio_buffer (fst st).

(** The buffer holds less than one flush. *)
Definition buffer_below (st : St) : Prop := len (buffer_of st) < FLUSH_THRESHOLD.

(** Unfolds the store operations down to the table and the clock. *)
Ltac unfold_store :=
  unfold mark_transcription_failed, mark_transcription_completed,
    update_transcription, mark_as_failed, mark_as_completed,
    mark_as_processing, save, timezone_now, send, objects_get in *.

(** The two forms of IngestAudio: an [audio] message carrying base64 text,
    or a raw binary frame. *)
Inductive ingest :=
| IngestText (data : list (string * json))
| IngestBinary (audio_bytes : bytes).

(** One IngestAudio. *)
Definition ingest_audio (E : Env) (i : ingest) (st : St) : St :=
  match i with
  | IngestText data => handle_audio E data st
  | IngestBinary audio_bytes => handle_audio_binary E audio_bytes st
  end.

(** The bytes an ingest contributes: none when the base64 text does not
    decode. *)
Definition payload (E : Env) (i : ingest) : bytes :=
  match i with
  | IngestText data =>
      match b64decode E (dict_get data "data" (JStr "")) with
      | inr audio_bytes => audio_bytes
      | inl _ => []
      end
  | IngestBinary audio_bytes => audio_bytes
  end.

(** A sequence of IngestAudio operations. *)
Definition ingest_all (E : Env) (ops : list ingest) (st : St) : St :=
  fold_left (fun st i => ingest_audio E i st) ops st.

(** The recognition call a flush of [st] makes. *)
Definition flush_call (E : Env) (audio : bytes) (st : St) : gateway_call :=
  {| call_audio := audio;
     call_language := Consumer.language_code (fst st);
     call_result :=
       transcribe_audio_stream E (length (calls (snd st))) audio
         (Consumer.language_code (fst st)) |}.

Arguments flush_call : simpl never.

(** The running text after the recognised texts [ts]: each one appended with
    a separating space, as [process_audio_buffer] does. *)
Definition running_text (ts : list string) : string :=
  fold_left (fun acc t => acc +:+ (t +:+ " ")) ts "".

(** The service's answer to a flush of [st]. *)
Definition flush_result (E : Env) (st : St) : gateway_result :=
  call_result (flush_call E (buffer_of st) st).

(** The message of the error frame a failed flush sends. *)
Definition flush_error (r : gateway_result) : option string :=
  match r with
  | GwSuccess _ => None
  | GwFailure error => Some ("Transcription error: " +:+ default "Unknown error" error)
  | GwRaise e => Some ("Processing error: " +:+ e)
  end.

(** The running text after a flush answered with [r]. *)
Definition flush_text (r : gateway_result) (full : string) : string :=
  match r with
  | GwSuccess t => full +:+ (t +:+ " ")
  | _ => full
  end.

(** The frame a flush answered with [r] sends. *)
Definition flush_frame (r : gateway_result) (full : string) : out_frame :=
  match r with
  | GwSuccess t => TranscriptionFrame t (strip (flush_text r full)) false
  | GwFailure error => Error ("Transcription error: " +:+ default "Unknown error" error)
  | GwRaise e => Error ("Processing error: " +:+ e)
  end.

(** Store operations leave the wire alone. *)
Definition same_wire (w w' : World) : Prop :=
  sent w' = sent w ∧ calls w' = calls w ∧ conn w' = conn w ∧
  next_id w' = next_id w ∧ entropy w' = entropy w.

(** The partial-result frames among the frames sent: recognised text and
    reported full text, oldest first. *)
Definition transcriptions (out : list out_frame) : list (string * string) :=
  omap (fun f => match f with
                 | TranscriptionFrame text full_text _ => Some (text, full_text)
                 | _ => None
                 end) out.

(** The texts of the successful recognition calls, oldest first. *)
Definition recognised (cs : list gateway_call) : list string :=
  omap (fun c => match call_result c with
                 | GwSuccess t => Some t
                 | _ => None
                 end) cs.

(** The ordering invariant of a session: the partial-result frames carry the
    recognised texts in call order, the running text is built from them, and
    each frame reports the trimmed running text of its time. *)
Record ordered (st : St) : Prop := {
  ord_texts : (transcriptions (sent (snd st))).*1 = recognised (calls (snd st));
  ord_full :
    Consumer.full_transcription (fst st) = running_text (recognised (calls (snd st)));
  ord_frames : ∀ k t ft,
    transcriptions (sent (snd st)) !! k = Some (t, ft) →
    ft = strip (running_text (take (S k) (recognised (calls (snd st)))))
}.

(** [handle_end] is the optional last flush followed by the completion. *)
Definition last_flush (E : Env) (st : St) : St :=
  if 0 <? len (Consumer.audio_buffer (fst st)) then process_audio_buffer E st else st.

(** How far along [pending → processing → {completed | failed}] a status
    is. *)
Definition rank (s : Status) : nat :=
  match s with
  | pending => 0
  | processing => 1
  | completed | failed => 2
  end.

(** The table's ids come from its sequence, which starts at 1. *)
Definition store_ok (w : World) : Prop :=
  (0 < next_id w)%nat ∧ ∀ id, is_Some (rows w !! id) → (0 < id < next_id w)%nat.

(** No record disappears and no status moves backwards. *)
Definition advances (m m' : gmap nat Transcription.t) : Prop :=
  ∀ id r, m !! id = Some r →
    ∃ r', m' !! id = Some r' ∧ (rank (Transcription.status r) ≤ rank (Transcription.status r'))%nat.

(** A step that creates no record. *)
Definition settles (w w' : World) : Prop :=
  next_id w' = next_id w ∧
  (∀ id, is_Some (rows w' !! id) → is_Some (rows w !! id)) ∧
  advances (rows w) (rows w').

(** The row [mark_as_failed] writes at time [now]. *)
Definition failed_row (m : string) (now : time) (r : Transcription.t) : Transcription.t :=
  Transcription.set_updated_at (S now)
    (Transcription.set_completed_at (Some now)
       (Transcription.set_error_message m (Transcription.set_status failed r))).

(** The row [mark_as_completed] writes at time [now]. *)
Definition completed_row (text : string) (now : time) (r : Transcription.t)
    : Transcription.t :=
  Transcription.set_updated_at (S now)
    (Transcription.set_completed_at (Some now)
       (Transcription.set_confidence_score None
          (Transcription.set_transcription_text text
             (Transcription.set_status completed r)))).

(** The row [update_transcription] writes for a partial result. *)
Definition appended_row (text : string) (now : time) (r : Transcription.t)
    : Transcription.t :=
  Transcription.set_updated_at now
    (Transcription.set_transcription_text
       (strip (Transcription.transcription_text r +:+ " " +:+ text)) r).

(** A step either ends in [send_error], run at clock reading [now] on a
    state with the table and the frames sent as they were, or the last frame
    it sends (if any) is not an error. *)
Definition ends_in_error (now : time) (st st' : St) : Prop :=
  ∃ m mid,
    st' = send_error m mid ∧
    Consumer.transcription_id (fst mid) = Consumer.transcription_id (fst st) ∧
    rows (snd mid) = rows (snd st) ∧
    clock (snd mid) = now ∧
    sent (snd mid) = sent (snd st).

(** The other case: the frames of the step do not end in an error frame. *)
Definition ends_otherwise (st st' : St) : Prop :=
  ∃ new, sent (snd st') = sent (snd st) ++ new ∧ ∀ m, last new ≠ Some (Error m).

(** The frames [receive] cannot decode, with the message it reports: a text
    that is not empty and not JSON, a JSON value that is not an object, and
    an [audio] message whose [data] is not base64.  An empty text is not
    decoded at all. *)
Definition decode_error (E : Env) (f : in_frame) : option string :=
  match truthy_str (text_data f) with
  | Some text =>
      match json_loads E text with
      | None => Some "Invalid JSON format"
      | Some (JObj data) =>
          let message_type := dict_get data "type" JNull in
          if eq_str message_type "config" then None
          else if eq_str message_type "audio" then
            match b64decode E (dict_get data "data" (JStr "")) with
            | inl e => Some ("Error processing audio: " +:+ e)
            | inr _ => None
            end
          else None
      | Some v =>
          Some ("Error processing message: " +:+
                ("'" +:+ type_name v +:+ "' object has no attribute 'get'"))
      end
  | None => None
  end.

(** ** Frames by kind, and what a frame writes *)

(** Whether the record a [config] with [data] asks for in state [st] is
    stored: [objects.create] neither raises on the user nor is refused by
    the database. *)
Definition config_accepted (E : Env) (data : list (string * json)) (st : St) : bool :=
  let user := Consumer.user (fst st) in
  let language_code := dict_get data "language_code" (JStr "hi-IN") in
  let session_id := Consumer.session_id (fst st) in
  assignable_user user && not_null user language_code session_id &&
  negb (insert_refused E user language_code session_id).

(** The message of the exception a [config] that is not accepted raises. *)
Definition config_error (E : Env) (data : list (string * json)) (st : St) : string :=
  create_error E (Consumer.user (fst st)) (dict_get data "language_code" (JStr "hi-IN"))
    (Consumer.session_id (fst st)).

(** The state an accepted [config] leaves: the language set, the new row
    under the next id, created at the clock's reading and marked as being
    processed, and the confirmation sent. *)
Definition config_done (data : list (string * json)) (st : St) : St :=
  let '(c, w) := st in
  let c := Consumer.set_language_code (dict_get data "language_code" (JStr "hi-IN")) c in
  let id := next_id w in
  let transcription :=
    Transcription.mk (Consumer.user c) (Consumer.language_code c) "" None
      processing "" (Consumer.session_id c) None None (clock w) (S (clock w)) in
  let w := set_rows (<[id := transcription]> (rows w))
             (set_next_id (S id) (set_clock (S (S (clock w))) w)) in
  let w := mark_as_processing id transcription w in
  (Consumer.set_transcription_id (Some id) c,
   send (ConfigConfirmed (Consumer.language_code c) (Some id)) w).

(** The state in which the exception of a [config] that is not accepted
    reaches [receive]: the language set, and the clock read twice if the
    create got as far as the INSERT. *)
Definition config_failed (data : list (string * json)) (st : St) : St :=
  (Consumer.set_language_code (dict_get data "language_code" (JStr "hi-IN")) (fst st),
   if assignable_user (Consumer.user (fst st))
   then set_clock (S (S (clock (snd st)))) (snd st)
   else snd st).

(** What [receive] does with a [config] frame. *)
Definition configure (E : Env) (data : list (string * json)) (st : St) : St :=
  if config_accepted E data st then config_done data st
  else send_error ("Error processing message: " +:+ config_error E data st)
         (config_failed data st).

(** What [receive] makes of a frame: the branch it takes. *)
Inductive frame_kind :=
| KConfig (data : list (string * json))
| KAudio (data : list (string * json))
| KEnd
| KUnknown (message_type : json)
| KNotJson
| KNotObject (v : json)
| KBinary (audio_bytes : bytes)
| KEmpty.

Definition frame_kind_of (E : Env) (f : in_frame) : frame_kind :=
  match truthy_str (text_data f) with
  | Some text =>
      match json_loads E text with
      | None => KNotJson
      | Some (JObj data) =>
          let message_type := dict_get data "type" JNull in
          if eq_str message_type "config" then KConfig data
          else if eq_str message_type "audio" then KAudio data
          else if eq_str message_type "end" then KEnd
          else KUnknown message_type
      | Some v => KNotObject v
      end
  | None =>
      match truthy_bytes (bytes_data f) with
      | Some b => KBinary b
      | None => KEmpty
      end
  end.

(** The clock reading at which [receive] reports an error of frame [f]:
    that of the state the frame arrives in; for a [config], that of the
    state [handle_config] leaves, after the clock reads of a create the
    database refused. *)
Definition error_clock (E : Env) (f : in_frame) (st : St) : time :=
  match frame_kind_of E f with
  | KConfig data => clock (snd (snd (handle_config E data st)))
  | _ => clock (snd st)
  end.

Definition is_end (k : frame_kind) : bool :=
  match k with KEnd => true | _ => false end.

Definition is_config (k : frame_kind) : bool :=
  match k with KConfig _ => true | _ => false end.

(** The three ways the relay rewrites a row. *)
Inductive write_kind := WAppended | WFailed | WCompleted.

(** [writes K lo hi r r']: [r'] is [r] after any number of rewrites of the
    kinds [K], each stamped with a clock reading in [lo, hi). *)
Inductive writes (K : write_kind → Prop) (lo hi : time)
    : Transcription.t → Transcription.t → Prop :=
| writes_none r : writes K lo hi r r
| writes_appended r r' text t :
    writes K lo hi r r' → K WAppended → (lo ≤ t < hi)%nat →
    writes K lo hi r (appended_row text t r')
| writes_failed r r' m t :
    writes K lo hi r r' → K WFailed → (lo ≤ t < hi)%nat →
    writes K lo hi r (failed_row m t r')
| writes_completed r r' text t :
    writes K lo hi r r' → K WCompleted → (lo ≤ t < hi)%nat →
    writes K lo hi r (completed_row text t r').

(** A step that rewrites at most the row of the session's record. *)
Definition touches (K : write_kind → Prop) (lo hi : time) (tid : option nat)
    (m m' : gmap nat Transcription.t) : Prop :=
  m' = m ∨
  ∃ id r r', tid = Some id ∧ m !! id = Some r ∧ m' = <[id := r']> m ∧
             writes K lo hi r r'.

(** The row an accepted [config] leaves in the table, created at clock
    reading [now] for the consumer [c]. *)
Definition configured_row (c : Consumer.t) (now : time) : Transcription.t :=
  Transcription.mk (Consumer.user c) (Consumer.language_code c) "" None processing ""
    (Consumer.session_id c) (Some (S (S now))) None now (S (S (S now))).

(** The kinds of rewrite a frame of kind [k] can make. *)
Definition frame_writes (k : frame_kind) (wk : write_kind) : Prop :=
  match k with
  | KEnd => True
  | _ => wk ≠ WCompleted
  end.

(** A step that creates no row, rewrites at most the session's row, and
    during which the clock runs from its reading in [w] to that in [w']. *)
Definition steps (K : write_kind → Prop) (tid : option nat) (w w' : World) : Prop :=
  (clock w ≤ clock w')%nat ∧
  next_id w' = next_id w ∧
  touches K (clock w) (clock w') tid (rows w) (rows w').

(** [Transcription.get_processing_time], in units of the clock: the time
    from [started_at] to [completed_at] when both are set. *)
Definition get_processing_time (r : Transcription.t) : option Z :=
  match Transcription.started_at r, Transcription.completed_at r with
  | Some started, Some completed_ => Some (Z.of_nat completed_ - Z.of_nat started)
  | _, _ => None
  end.

(** The stamps of a row are in order, as seen at clock reading [now]. *)
Definition stamps_ok (now : time) (r : Transcription.t) : Prop :=
  (∀ s, Transcription.started_at r = Some s → (s ≤ now)%nat) ∧
  (∀ s c, Transcription.started_at r = Some s →
          Transcription.completed_at r = Some c → (s ≤ c)%nat).

Definition timely (w : World) : Prop :=
  ∀ id r, rows w !! id = Some r → stamps_ok (clock w) r.

(** The columns that say whose record it is and when it began. *)
Definition same_identity (r r' : Transcription.t) : Prop :=
  Transcription.user r' = Transcription.user r ∧
  Transcription.language_code r' = Transcription.language_code r ∧
  Transcription.session_id r' = Transcription.session_id r ∧
  Transcription.created_at r' = Transcription.created_at r ∧
  Transcription.started_at r' = Transcription.started_at r.

(** The session's record, if it has one, and every later record have ids
    from [n0] on; the rows below [n0] are those of [m0]. *)
Definition isolated (n0 : nat) (m0 : gmap nat Transcription.t) (st : St) : Prop :=
  (∀ id, Consumer.transcription_id (fst st) = Some id → (n0 ≤ id)%nat) ∧
  (n0 ≤ next_id (snd st))%nat ∧
  ∀ id, (id < n0)%nat → rows (snd st) !! id = m0 !! id.

(** What a session without a record and with the default language keeps,
    as long as no [config] arrives. *)
Definition unconfigured (m0 : gmap nat Transcription.t) (n0 : nat) (st : St) : Prop :=
  Consumer.transcription_id (fst st) = None ∧
  Consumer.language_code (fst st) = JStr "hi-IN" ∧
  rows (snd st) = m0 ∧
  next_id (snd st) = n0 ∧
  Forall (fun c => call_language c = JStr "hi-IN") (calls (snd st)).

(** ** [get_user_from_token] (middleware/websocket_auth.py) *)

(** What [AccessToken(token_string)] does: it raises [TokenError] or
    [InvalidToken], raises something else, or yields the token's payload. *)
Inductive token_outcome :=
| TokenRejected (msg : string)
| TokenCrashed (msg : string)
| TokenPayload (payload : list (string * json)).

(** What [User.objects.get(id=user_id)] does. *)
Inductive user_lookup :=
| UserFound (id : nat) (username : string)
| UserDoesNotExist
| UserLookupCrashed (msg : string).

(** The token library and the user table behind the resolver. *)
Record AuthBackend := {
  AccessToken : string → token_outcome;
  User_objects_get : json → user_lookup
}.

Module WebsocketAuth.

(** [get_user_from_token]: every exception ends in [AnonymousUser]; a
    payload without [user_id] raises [KeyError], caught by the last
    clause. *)
Definition get_user_from_token (B : AuthBackend) (token_string : string) : User :=
  match AccessToken B token_string with
  | TokenPayload access_token =>
      match assoc "user_id" access_token with
      | Some user_id =>
          match User_objects_get B user_id with
          | UserFound id username => AuthUser id username
          | UserDoesNotExist => AnonymousUser
          | UserLookupCrashed _ => AnonymousUser
          end
      | None => AnonymousUser
      end
  | TokenRejected _ => AnonymousUser
  | TokenCrashed _ => AnonymousUser
  end.

End WebsocketAuth.

(** The environment whose resolver is [get_user_from_token] over [B]. *)
Definition with_auth (B : AuthBackend) (E : Env) : Env :=
  Build_Env (json_loads E) (b64decode E) (py_str E) (parse_qs E)
    (WebsocketAuth.get_user_from_token B) (uuid4 E) (transcribe_audio_stream E)
    (insert_refused E) (create_error E).

(** A token that verifies and names an existing user. *)
Definition valid_credential (B : AuthBackend) (E : Env) (scope : Scope)
    (id : nat) (username : string) : Prop :=
  ∃ token payload user_id,
    query_token E scope = Some (Some token) ∧ token ≠ "" ∧
    AccessToken B token = TokenPayload payload ∧
    assoc "user_id" payload = Some user_id ∧
    User_objects_get B user_id = UserFound id username.

(** The user the middleware puts in the scope. *)
Definition resolved_user (B : AuthBackend) (E : Env) (scope : Scope) : User :=
  match query_token E scope with
  | Some token =>
      match truthy_str token with
      | Some token => WebsocketAuth.get_user_from_token B token
      | None => AnonymousUser
      end
  | None => AnonymousUser
  end.

(** ** [SarvamAIService] (services/sarvam_service.py) *)

(** The settings the service reads. *)
Record Settings := {
  SARVAM_AI_API_KEY : option string;
  SARVAM_AI_MODEL : string;
  DEBUG : bool
}.

(** [bool(v)] for a decoded JSON value. *)
Definition json_truthy (v : json) : bool :=
  match v with
  | JNull => false
  | JBool b => b
  | JInt n => negb (n =? 0)
  | JFloat q => negb (Qeq_bool q 0)
  | JStr s => negb (String.eqb s "")
  | JArr items => match items with [] => false | _ => true end
  | JObj fields => match fields with [] => false | _ => true end
  end.

(** Equality of bytes is decidable. *)
#[global] Instance byte_eq_decision : EqDecision Byte.byte := Byte.byte_eq_dec.

Module Sarvam.

(** The instance attributes set by [__init__]. *)
Record Service := {
  api_key : option string;
  model : string;
  base_url : string
}.

Definition init (settings : Settings) : Service :=
  {| api_key := SARVAM_AI_API_KEY settings;
     model := SARVAM_AI_MODEL settings;
     base_url := "https://api.sarvam.ai" |}.

(** [is_available]: [bool(self.api_key)] *)
Definition is_available (self : Service) : bool :=
  match truthy_str (api_key self) with
  | Some _ => true
  | None => false
  end.

(** The multipart request [requests.post] is given. *)
Record Request := {
  url : string;
  api_subscription_key : option string;
  file_name : string;
  file_content : bytes;
  file_type : string;
  data_language_code : json;
  data_model : string
}.

(** What the round trip ([requests.post], [raise_for_status],
    [response.json()]) comes to: an exception with [str(e) = msg], or the
    decoded body. *)
Inductive http_outcome :=
| HttpFailed (msg : string)
| HttpBody (body : json).

(** The libraries under the service: the [wave] writer (channels, sample
    width, frame rate, frames; [inl] is an exception) and the HTTP round
    trip of the n-th request. *)
Record Net := {
  wave_write : Z → Z → Z → bytes → string + bytes;
  post : nat → Request → http_outcome
}.

(** The bytes [b'RIFF']. *)
Definition RIFF : bytes := [Byte.x52; Byte.x49; Byte.x46; Byte.x46].

(** [convert_to_wav]: the content of the buffer it returns. *)
Definition convert_to_wav (N : Net) (audio_data : bytes) : bytes :=
  if bool_decide (take 4 audio_data = RIFF) then audio_data
  else
    match wave_write N 1 2 16000 audio_data with
    | inr wav_buffer => wav_buffer
    | inl _ => audio_data
    end.

(** What [transcribe_audio_stream] returns: it raises, or returns the dict
    with ['success'] true, or the dict with ['success'] false. *)
Inductive result :=
| Raise (msg : string)
| Success (transcription : json) (language_code : json) (model : string)
          (audio_size : Z)
| Failure (error : string) (language_code : json) (model : string).

Definition not_available : string :=
  "SarvamAI service is not available. Check API key configuration.".

(** The request of [transcribe_audio_stream]. *)
Definition stream_request (self : Service) (N : Net) (audio_data : bytes)
    (language_code : json) (model_to_use : string) : Request :=
  {| url := base_url self +:+ "/speech-to-text";
     api_subscription_key := api_key self;
     file_name := "audio.wav";
     file_content := convert_to_wav N audio_data;
     file_type := "audio/wav";
     data_language_code :=
       if json_truthy language_code then language_code else JStr "unknown";
     data_model := model_to_use |}.

(** [transcribe_audio_stream]; [n] counts the requests made before.  Both
    [except] clauses build the same dict; a body that is not an object has
    no [get]. *)
Definition transcribe_audio_stream (self : Service) (N : Net) (n : nat)
    (audio_data : bytes) (language_code : json) (model_ : option string) : result :=
  if negb (is_available self) then Raise not_available
  else
    let model_to_use :=
      match truthy_str model_ with
      | Some m => m
      | None => model self
      end in
    match post N n (stream_request self N audio_data language_code model_to_use) with
    | HttpBody (JObj fields) =>
        Success (dict_get fields "transcript" (JStr "")) language_code model_to_use
          (len audio_data)
    | HttpBody v =>
        Failure ("'" +:+ type_name v +:+ "' object has no attribute 'get'")
          language_code model_to_use
    | HttpFailed e => Failure e language_code model_to_use
    end.

(** [get_sarvam_service], on the module's global [_sarvam_service]: the
    instance returned and the new global. *)
Definition get_sarvam_service (settings : Settings) (global : option Service)
    : Service * option Service :=
  if DEBUG settings then (init settings, Some (init settings))
  else
    match global with
    | None => (init settings, Some (init settings))
    | Some service => (service, Some service)
    end.

End Sarvam.

(** [str(e)] of the [TypeError] that [v + " "] raises for a value that is
    not a str. *)
Definition concat_type_error (v : json) : string :=
  match v with
  | JArr _ =>
      "can only concatenate list (not " +:+ String "034"%char "str"
        +:+ String "034"%char ") to list"
  | _ => "unsupported operand type(s) for +: '" +:+ type_name v +:+ "' and 'str'"
  end.

(** How [process_audio_buffer] reads the service's result: a transcript
    that is not a str makes [transcription_text + " "] raise. *)
Definition to_gateway (r : Sarvam.result) : gateway_result :=
  match r with
  | Sarvam.Raise msg => GwRaise msg
  | Sarvam.Success (JStr t) _ _ _ => GwSuccess t
  | Sarvam.Success v _ _ _ => GwRaise (concat_type_error v)
  | Sarvam.Failure error _ _ => GwFailure (Some error)
  end.

(** The environment whose recognition service is [SarvamAIService] over
    [settings] and [N]; the consumer passes no model. *)
Definition with_sarvam (settings : Settings) (N : Sarvam.Net) (E : Env) : Env :=
  Build_Env (json_loads E) (b64decode E) (py_str E) (parse_qs E)
    (get_user_from_token E) (uuid4 E)
    (fun n audio_data language_code =>
       to_gateway
         (Sarvam.transcribe_audio_stream (Sarvam.init settings) N n audio_data
            language_code None))
    (insert_refused E) (create_error E).

(** Every call in the log is a flush: its result is the service's answer to
    its audio and language. *)
Definition is_flush (E : Env) (c : gateway_call) : Prop :=
  ∃ n, call_result c = transcribe_audio_stream E n (call_audio c) (call_language c).

(** Stand-ins for the libraries under the service, and two settings. *)
Module DemoSarvam.

Definition net : Sarvam.Net :=
  {| Sarvam.wave_write := fun _ _ _ frames => inr (Sarvam.RIFF ++ frames);
     Sarvam.post := fun n _ =>
       match n with
       | O => Sarvam.HttpBody (JObj [("transcript", JStr "vanakkam")])
       | 1%nat => Sarvam.HttpBody (JObj [("request_id", JStr "r-2")])
       | _ => Sarvam.HttpFailed "503 Server Error: Service Unavailable"
       end |}.

Definition with_key : Settings :=
  {| SARVAM_AI_API_KEY := Some "sk-demo"; SARVAM_AI_MODEL := "saarika:v2.5";
     DEBUG := false |}.

Definition without_key : Settings :=
  {| SARVAM_AI_API_KEY := None; SARVAM_AI_MODEL := "saarika:v2.5"; DEBUG := true |}.

End DemoSarvam.

(** ** Other models of api/models.py *)

(** [s.startswith(prefix)] *)
Definition startswith (s prefix : string) : bool := String.prefix prefix s.

Module UploadedFile.

(** The columns the helpers read. *)
Record t := {
  original_filename : string;
  file_size : Z;
  mime_type : string
}.

Definition is_image (self : t) : bool := startswith (mime_type self) "image/".

Definition is_video (self : t) : bool := startswith (mime_type self) "video/".

Definition is_audio (self : t) : bool := startswith (mime_type self) "audio/".

Definition doc_types : list string :=
  ["application/pdf"; "application/msword";
   "application/vnd.openxmlformats-officedocument"].

Definition is_document (self : t) : bool :=
  existsb (fun dtype => startswith (mime_type self) dtype) doc_types.

End UploadedFile.

Module StreamSession.

(** The columns the methods read or write; a time is a number of
    microseconds. *)
Record t := {
  status : string;
  started_at : Z;
  ended_at : option Z;
  duration_seconds : Z;
  error_message : string;
  error_count : Z
}.

(** [int((later - earlier).total_seconds())]: whole seconds, towards
    zero (the quotient is taken exactly; the float of [total_seconds] is
    exact to the microsecond for any duration a session can have). *)
Definition whole_seconds (later earlier : Z) : Z := Z.quot (later - earlier) 1000000.

(** [end_session], with [now] the reading of [timezone.now()]; the row it
    saves, or the row as it is when it saves nothing. *)
Definition end_session (now : Z) (self : t) : t :=
  match ended_at self with
  | None =>
      {| status := "ended";
         started_at := started_at self;
         ended_at := Some now;
         duration_seconds := whole_seconds now (started_at self);
         error_message := error_message self;
         error_count := error_count self |}
  | Some _ => self
  end.

(** [record_error] *)
Definition record_error (message : string) (self : t) : t :=
  {| status := "error";
     started_at := started_at self;
     ended_at := ended_at self;
     duration_seconds := duration_seconds self;
     error_message := message;
     error_count := error_count self + 1 |}.

(** [calculate_duration] *)
Definition calculate_duration (now : Z) (self : t) : Z :=
  match ended_at self with
  | Some ended => whole_seconds ended (started_at self)
  | None => whole_seconds now (started_at self)
  end.

End StreamSession.

Module Rbac.

(** Rows of [Permission], [RolePermission] and [UserPermission]: the
    columns the permission checks read.  A foreign key is the id of the row
    it points to. *)
Record Permission := { perm_id : nat; perm_name : string }.

Record RolePermission := { rp_role : string; rp_permission_id : nat }.

Record UserPermission := {
  up_user_profile_id : nat;
  up_permission_id : nat;
  up_granted : bool
}.

Record Tables := {
  permissions : list Permission;
  role_permissions : list RolePermission;
  user_permissions : list UserPermission
}.

(** A [UserProfile] row. *)
Record UserProfile := { profile_id : nat; role : string }.

Definition is_superadmin (self : UserProfile) : bool := String.eqb (role self) "superadmin".

Definition is_admin (self : UserProfile) : bool := String.eqb (role self) "admin".

Definition is_manager (self : UserProfile) : bool := String.eqb (role self) "manager".

Definition is_user (self : UserProfile) : bool := String.eqb (role self) "user".

Definition is_admin_or_above (self : UserProfile) : bool :=
  existsb (String.eqb (role self)) ["admin"; "superadmin"; "manager"].

(** The join [permission__name = permission_name] for a foreign key. *)
Definition permission_named (T : Tables) (permission_id : nat)
    (permission_name : string) : bool :=
  existsb (fun p => Nat.eqb (perm_id p) permission_id &&
                    String.eqb (perm_name p) permission_name) (permissions T).

(** [has_permission] *)
Definition has_permission (T : Tables) (self : UserProfile)
    (permission_name : string) : bool :=
  if is_superadmin self then true
  else
    let role_has_perm :=
      existsb (fun rp => String.eqb (rp_role rp) (role self) &&
                         permission_named T (rp_permission_id rp) permission_name)
        (role_permissions T) in
    if role_has_perm then true
    else
      existsb (fun up => Nat.eqb (up_user_profile_id up) (profile_id self) &&
                         permission_named T (up_permission_id up) permission_name &&
                         up_granted up)
        (user_permissions T).

(** [get_permissions].  The queries join [Permission] with the rows that
    point to it; the result goes through a [set], so the order of the
    Python list is not determined: only membership is meant here. *)
Definition get_permissions (T : Tables) (self : UserProfile) : list string :=
  if is_superadmin self then perm_name <$> permissions T
  else
    let role_perms :=
      flat_map (fun p =>
        flat_map (fun rp =>
          if Nat.eqb (rp_permission_id rp) (perm_id p) &&
             String.eqb (rp_role rp) (role self)
          then [perm_name p] else []) (role_permissions T)) (permissions T) in
    let user_perms :=
      flat_map (fun p =>
        flat_map (fun up =>
          if Nat.eqb (up_permission_id up) (perm_id p) &&
             Nat.eqb (up_user_profile_id up) (profile_id self) &&
             up_granted up
          then [perm_name p] else []) (user_permissions T)) (permissions T) in
    remove_dups (role_perms ++ user_perms).

End Rbac.

(** ** The stored text and the reported text *)

(** A text with something in it and no white space at either end. *)
Definition clean (s : string) : Prop := s ≠ "" ∧ lstrip s = s ∧ rstrip s = s.

(** The engine returns clean texts. *)
Definition clean_engine (E : Env) : Prop :=
  ∀ n audio_data language_code t,
    transcribe_audio_stream E n audio_data language_code = GwSuccess t → clean t.

(** The session has a record, whose text is the trimmed accumulated text;
    the accumulated text is empty or a clean text and its separating
    space. *)
Definition tracked (st : St) : Prop :=
  (∃ id r,
     Consumer.transcription_id (fst st) = Some id ∧
     rows (snd st) !! id = Some r ∧
     Transcription.transcription_text r =
       strip (Consumer.full_transcription (fst st))) ∧
  (Consumer.full_transcription (fst st) = "" ∨
   ∃ J, clean J ∧ Consumer.full_transcription (fst st) = J +:+ " ").

(** The demo environment with an engine that answers every call with the
    same clean text. *)
Definition steady_env : Env :=
  Build_Env Demo.json_loads Demo.b64decode Demo.py_str Demo.parse_qs
    Demo.get_user_from_token Demo.uuid4 (fun _ _ _ => GwSuccess "vanakkam")
    Demo.insert_refused Demo.create_error.

(** ** What each step touches *)

(** *** A [config] is accepted or refused *)

Lemma handle_config_accepted E data st :
  config_accepted E data st = true →
  handle_config E data st = (Returned tt, config_done data st).
Proof.
  destruct st as [c w]. unfold config_accepted, handle_config, create_transcription,
    objects_create, config_done, timezone_now. cbn.
  destruct (assignable_user _); [|done].
  destruct (not_null _ _ _); [|done].
  destruct (insert_refused E _ _ _); [done|]. by intros _.
Qed.

Lemma handle_config_refused E data st :
  config_accepted E data st = false →
  handle_config E data st = (Raised (config_error E data st), config_failed data st).
Proof.
  destruct st as [c w]. unfold config_accepted, handle_config, create_transcription,
    objects_create, config_failed, config_error, timezone_now. cbn.
  destruct (assignable_user _); [|done].
  destruct (not_null _ _ _); [|done].
  by destruct (insert_refused E _ _ _).
Qed.

Lemma handle_config_state E data st :
  snd (handle_config E data st) =
  if config_accepted E data st then config_done data st else config_failed data st.
Proof.
  destruct (config_accepted E data st) eqn:Ha.
  - by rewrite handle_config_accepted.
  - by rewrite handle_config_refused.
Qed.

Lemma config_failed_fst data st :
  fst (config_failed data st) =
  Consumer.set_language_code (dict_get data "language_code" (JStr "hi-IN")) (fst st).
Proof. reflexivity. Qed.

Lemma config_branch E data st :
  match handle_config E data st with
  | (Returned _, st') => st'
  | (Raised e, st') => send_error ("Error processing message: " +:+ e) st'
  end = configure E data st.
Proof.
  unfold configure. destruct (config_accepted E data st) eqn:Ha.
  - by rewrite handle_config_accepted.
  - by rewrite handle_config_refused.
Qed.

Lemma configure_accepted E data st :
  config_accepted E data st = true → configure E data st = config_done data st.
Proof. unfold configure. by intros ->. Qed.

Lemma configure_refused E data st :
  config_accepted E data st = false →
  configure E data st =
    send_error ("Error processing message: " +:+ config_error E data st)
      (config_failed data st).
Proof. unfold configure. by intros ->. Qed.

(** What holds after an accepted [config] and after the error report of a
    refused one holds after every [config]. *)
Lemma configure_cases (P : St → Prop) E data st :
  P (config_done data st) →
  (∀ m, P (send_error m (config_failed data st))) →
  P (configure E data st).
Proof. intros Hdone Hfail. unfold configure. by destruct (config_accepted E data st). Qed.

(** *** Frames by kind *)

Lemma receive_by_kind E f st :
  receive E f st =
  match frame_kind_of E f with
  | KConfig data => configure E data st
  | KAudio data => handle_audio E data st
  | KEnd => handle_end E st
  | KUnknown message_type =>
      send_error ("Unknown message type: " +:+ py_str E message_type) st
  | KNotJson => send_error "Invalid JSON format" st
  | KNotObject v =>
      send_error ("Error processing message: " +:+
                  ("'" +:+ type_name v +:+ "' object has no attribute 'get'")) st
  | KBinary b => handle_audio_binary E b st
  | KEmpty => st
  end.
Proof.
  unfold receive, frame_kind_of.
  destruct (truthy_str (text_data f)) as [text|].
  - destruct (json_loads E text) as [v|]; [|done].
    destruct v; try done. rewrite config_branch. by repeat case_match.
  - by destruct (truthy_bytes (bytes_data f)).
Qed.

(** A refused create leaves the world as it was, but for the clock. *)
Lemma config_failed_world data st :
  rows (snd (config_failed data st)) = rows (snd st) ∧
  next_id (snd (config_failed data st)) = next_id (snd st) ∧
  sent (snd (config_failed data st)) = sent (snd st) ∧
  calls (snd (config_failed data st)) = calls (snd st) ∧
  conn (snd (config_failed data st)) = conn (snd st) ∧
  entropy (snd (config_failed data st)) = entropy (snd st) ∧
  (clock (snd st) ≤ clock (snd (config_failed data st)) ≤ 2 + clock (snd st))%nat.
Proof.
  unfold config_failed. cbn [snd]. destruct (assignable_user _); cbn; repeat split; lia.
Qed.

Section Frames.

Context (E : Env).

Lemma send_error_fst m st : fst (send_error m st) = fst st.
Proof.
  destruct st as [c w]. unfold send_error.
  destruct (truthy_id _); reflexivity.
Qed.

Lemma send_error_calls m st : calls (snd (send_error m st)) = calls (snd st).
Proof.
  destruct st as [c w]. unfold send_error.
  destruct (truthy_id _); [|reflexivity].
  unfold_store. cbn. destruct (Consumer.transcription_id c) as [id|]; [|reflexivity].
  cbn. destruct (rows w !! id); reflexivity.
Qed.

Lemma send_error_sent m st :
  sent (snd (send_error m st)) = sent (snd st) ++ [Error m].
Proof.
  destruct st as [c w]. unfold send_error.
  destruct (truthy_id _); [|reflexivity].
  unfold_store. cbn. destruct (Consumer.transcription_id c) as [id|]; [|reflexivity].
  cbn. destruct (rows w !! id); reflexivity.
Qed.

Lemma send_error_conn m st : conn (snd (send_error m st)) = conn (snd st).
Proof.
  destruct st as [c w]. unfold send_error.
  destruct (truthy_id _); [|reflexivity].
  unfold_store. cbn. destruct (Consumer.transcription_id c) as [id|]; [|reflexivity].
  cbn. destruct (rows w !! id); reflexivity.
Qed.

(** The flush takes the whole buffer and leaves the other attributes, apart
    from the running text, alone. *)
Lemma process_audio_buffer_buffer st : buffer_of (process_audio_buffer E st) = [].
Proof.
  destruct st as [c w]. unfold process_audio_buffer, transcribe_audio, buffer_of.
  cbn. destruct (transcribe_audio_stream _ _ _ _); cbn;
    rewrite ?send_error_fst; reflexivity.
Qed.

Lemma process_audio_buffer_calls st :
  calls (snd (process_audio_buffer E st)) =
  calls (snd st) ++
    [{| call_audio := buffer_of st;
        call_language := Consumer.language_code (fst st);
        call_result :=
          transcribe_audio_stream E (length (calls (snd st))) (buffer_of st)
            (Consumer.language_code (fst st)) |}].
Proof.
  destruct st as [c w]. unfold process_audio_buffer, transcribe_audio, buffer_of.
  cbn. destruct (transcribe_audio_stream _ _ _ _); cbn;
    rewrite ?send_error_calls; try reflexivity.
  unfold_store. cbn. destruct (Consumer.transcription_id c) as [id|]; [|reflexivity].
  cbn. destruct (rows w !! id); reflexivity.
Qed.

End Frames.

(** ** The buffer stays below the threshold *)

Section BufferBound.

Context (E : Env).

Lemma buffer_below_nil st : buffer_of st = [] → buffer_below st.
Proof. unfold buffer_below. intros ->. reflexivity. Qed.

Lemma send_error_below m st : buffer_below st → buffer_below (send_error m st).
Proof. unfold buffer_below, buffer_of. by rewrite send_error_fst. Qed.

Lemma config_done_buffer data st :
  buffer_of (config_done data st) = buffer_of st.
Proof. destruct st as [c w]. reflexivity. Qed.

Lemma configure_below data st : buffer_below st → buffer_below (configure E data st).
Proof.
  intros Hst. unfold configure. destruct (config_accepted E data st).
  - unfold buffer_below. by rewrite config_done_buffer.
  - by apply send_error_below.
Qed.

Lemma handle_audio_binary_below b st : buffer_below (handle_audio_binary E b st).
Proof.
  destruct st as [c w]. unfold handle_audio_binary. cbn.
  destruct (Z.leb_spec FLUSH_THRESHOLD (len (Consumer.audio_buffer c ++ b))).
  - apply buffer_below_nil, process_audio_buffer_buffer.
  - assumption.
Qed.

Lemma handle_audio_below data st :
  buffer_below st → buffer_below (handle_audio E data st).
Proof.
  destruct st as [c w]. intros Hst. unfold handle_audio.
  destruct (b64decode E _) as [e|b].
  - by apply send_error_below.
  - apply (handle_audio_binary_below b (c, w)).
Qed.

Lemma handle_end_buffer st : buffer_of (handle_end E st) = [].
Proof.
  unfold handle_end.
  destruct (Z.ltb_spec 0 (len (Consumer.audio_buffer (fst st)))) as [Hpos|Hzero].
  - pose proof (process_audio_buffer_buffer E st) as Hb.
    destruct (process_audio_buffer E st) as [c w]. exact Hb.
  - destruct st as [c w]. cbn in *. unfold buffer_of, len in *. cbn.
    destruct (Consumer.audio_buffer c); [reflexivity | cbn in Hzero; lia].
Qed.

Lemma receive_below f st : buffer_below st → buffer_below (receive E f st).
Proof.
  intros Hst. unfold receive.
  destruct (truthy_str (text_data f)) as [text|].
  - destruct (json_loads E text) as [v|]; [|by apply send_error_below].
    destruct v; try by apply send_error_below.
    rewrite config_branch. repeat case_match.
    + by apply configure_below.
    + by apply handle_audio_below.
    + apply buffer_below_nil, handle_end_buffer.
    + by apply send_error_below.
  - destruct (truthy_bytes (bytes_data f)); [apply handle_audio_binary_below | done].
Qed.

Lemma run_below frames st : buffer_below st → buffer_below (run E frames st).
Proof.
  revert st. induction frames as [|f frames IH]; intros st Hst; [done|].
  cbn. apply IH. by apply receive_below.
Qed.

Lemma connect_buffer scope st : buffer_of (connect E scope st) = buffer_of st.
Proof.
  destruct st as [c w]. unfold connect.
  destruct (_ || _); reflexivity.
Qed.

Lemma serve_below scope frames w : buffer_below (serve E scope frames w).
Proof.
  unfold serve. destruct (JWTAuthMiddleware_call E scope) as [scope'|]; [|done].
  assert (buffer_below (connect E scope' (Consumer.init, w))) as H0.
  { apply buffer_below_nil. by rewrite connect_buffer. }
  destruct (conn _); try done. by apply run_below.
Qed.

End BufferBound.

(** C8.  After every frame of a session -- and after a Configure, a textual
    or binary IngestAudio, or a Finalize run in any state a session can
    reach -- the audio buffer holds fewer than 32000 bytes. *)
Theorem audio_buffer_below_threshold_after_each_operation
    (E : Env) (scope : Scope) (frames : list in_frame) (w : World)
    (data : list (string * json)) (audio_bytes : bytes) :
  let st := serve E scope frames w in
  buffer_below st ∧
  buffer_below (snd (handle_config E data st)) ∧
  buffer_below (handle_audio E data st) ∧
  buffer_below (handle_audio_binary E audio_bytes st) ∧
  buffer_below (handle_end E st).
Proof.
  intros st. pose proof (serve_below E scope frames w) as Hst. fold st in Hst.
  repeat split.
  - exact Hst.
  - rewrite handle_config_state. unfold buffer_below.
    destruct (config_accepted E data st); [by rewrite config_done_buffer | done].
  - by apply handle_audio_below.
  - apply handle_audio_binary_below.
  - apply buffer_below_nil, handle_end_buffer.
Qed.

(** ** IngestAudio and the flush threshold *)

Section Threshold.

Context (E : Env).

Lemma handle_audio_binary_step b st :
  let acc := buffer_of st ++ b in
  let st' := handle_audio_binary E b st in
  (FLUSH_THRESHOLD ≤ len acc →
     calls (snd st') = calls (snd st) ++ [flush_call E acc st] ∧ buffer_of st' = []) ∧
  (len acc < FLUSH_THRESHOLD →
     calls (snd st') = calls (snd st) ∧ buffer_of st' = acc).
Proof.
  destruct st as [c w]. cbn zeta. unfold handle_audio_binary. cbn.
  change (buffer_of (c, w)) with (Consumer.audio_buffer c).
  destruct (Z.leb_spec FLUSH_THRESHOLD (len (Consumer.audio_buffer c ++ b))).
  - split; [|intros ?; lia]. intros _.
    rewrite process_audio_buffer_calls, process_audio_buffer_buffer. done.
  - split; [intros ?; lia|]. done.
Qed.

Lemma ingest_audio_step i st :
  buffer_below st →
  let acc := buffer_of st ++ payload E i in
  let st' := ingest_audio E i st in
  (FLUSH_THRESHOLD ≤ len acc →
     calls (snd st') = calls (snd st) ++ [flush_call E acc st] ∧ buffer_of st' = []) ∧
  (len acc < FLUSH_THRESHOLD →
     calls (snd st') = calls (snd st) ∧ buffer_of st' = acc).
Proof.
  intros Hst. destruct i as [data|b]; [|apply handle_audio_binary_step].
  cbn zeta. cbn [ingest_audio payload].
  pose proof (handle_audio_binary_step) as Hbin.
  destruct st as [c w]. unfold handle_audio.
  destruct (b64decode E _) as [e|b].
  - rewrite app_nil_r. unfold buffer_below in Hst.
    split; [intros Hge; lia|]. intros _.
    unfold buffer_of. by rewrite send_error_calls, send_error_fst.
  - apply (Hbin b (c, w)).
Qed.

(** Every byte ingested is in exactly one place: a dispatched call, or the
    buffer. *)
Lemma ingest_all_conserves ops st :
  buffer_below st →
  ∃ new,
    calls (snd (ingest_all E ops st)) = calls (snd st) ++ new ∧
    concat (call_audio <$> new) ++ buffer_of (ingest_all E ops st) =
      buffer_of st ++ concat (payload E <$> ops) ∧
    buffer_below (ingest_all E ops st).
Proof.
  revert st. induction ops as [|i ops IH]; intros st Hst.
  - exists []. cbn. by rewrite !app_nil_r.
  - cbn [ingest_all fold_left]. fold (ingest_all E ops (ingest_audio E i st)).
    destruct (ingest_audio_step i st Hst) as [Hge Hlt].
    destruct (Z.le_gt_cases FLUSH_THRESHOLD (len (buffer_of st ++ payload E i)))
      as [Hc|Hc].
    + destruct (Hge Hc) as [Hcalls Hbuf].
      destruct (IH (ingest_audio E i st)) as (new & Hn & Hcons & Hbelow).
      { by apply buffer_below_nil. }
      exists (flush_call E (buffer_of st ++ payload E i) st :: new).
      rewrite Hn, Hcalls, <- app_assoc. split; [done|]. split; [|done].
      rewrite Hbuf in Hcons. cbn in Hcons |- *.
      change (call_audio (flush_call E (buffer_of st ++ payload E i) st))
        with (buffer_of st ++ payload E i).
      rewrite <- !app_assoc. by rewrite Hcons.
    + destruct (Hlt ltac:(lia)) as [Hcalls Hbuf].
      destruct (IH (ingest_audio E i st)) as (new & Hn & Hcons & Hbelow).
      { unfold buffer_below. rewrite Hbuf. lia. }
      exists new. rewrite Hn, Hcalls. split; [done|]. split; [|done].
      rewrite Hcons, Hbuf. cbn. by rewrite <- app_assoc.
Qed.

End Threshold.

(** C1.  An IngestAudio dispatches a recognition call exactly when the
    buffer, with the new bytes appended, holds at least 32000 bytes; the
    call is made before the operation returns and carries the whole buffer,
    which is left empty.  Over any sequence of IngestAudio operations the
    dispatched payloads followed by the remaining buffer are exactly the
    bytes ingested, in order: none twice, none lost. *)
Theorem flush_dispatched_exactly_at_threshold
    (E : Env) (i : ingest) (ops : list ingest) (st : St) :
  buffer_below st →
  let acc := buffer_of st ++ payload E i in
  let st' := ingest_audio E i st in
  (FLUSH_THRESHOLD ≤ len acc →
     calls (snd st') = calls (snd st) ++ [flush_call E acc st] ∧ buffer_of st' = []) ∧
  (len acc < FLUSH_THRESHOLD →
     calls (snd st') = calls (snd st) ∧ buffer_of st' = acc) ∧
  ∃ new,
    calls (snd (ingest_all E ops st)) = calls (snd st) ++ new ∧
    concat (call_audio <$> new) ++ buffer_of (ingest_all E ops st) =
      buffer_of st ++ concat (payload E <$> ops).
Proof.
  intros Hst. cbn zeta.
  destruct (ingest_audio_step E i st Hst) as [Hge Hlt].
  split; [exact Hge|]. split; [exact Hlt|].
  destruct (ingest_all_conserves E ops st Hst) as (new & H1 & H2 & _).
  by exists new.
Qed.

(** ** Strings *)

Lemma append_cons (a : ascii) (s t : string) :
  String a s +:+ t = String a (s +:+ t).
Proof. reflexivity. Qed.

Lemma append_nil_r (s : string) : s +:+ "" = s.
Proof. induction s as [|a s IH]; [done | by rewrite append_cons, IH]. Qed.

Lemma append_assoc (s1 s2 s3 : string) : (s1 +:+ s2) +:+ s3 = s1 +:+ (s2 +:+ s3).
Proof. induction s1 as [|a s1 IH]; [done | by rewrite !append_cons, IH]. Qed.

Lemma rstrip_append_space (s : string) : rstrip (s +:+ " ") = rstrip s.
Proof.
  induction s as [|a s IH]; [reflexivity|].
  rewrite append_cons. cbn [rstrip]. by rewrite IH.
Qed.

(** A trailing space does not survive [strip]. *)
Lemma strip_append_space (s : string) : strip (s +:+ " ") = strip s.
Proof. unfold strip. by rewrite rstrip_append_space. Qed.

Lemma running_text_snoc ts t :
  running_text (ts ++ [t]) = running_text ts +:+ (t +:+ " ").
Proof. unfold running_text. by rewrite fold_left_app. Qed.

Lemma join_snoc sep ts t :
  ts ≠ [] → join sep (ts ++ [t]) = join sep ts +:+ (sep +:+ t).
Proof.
  induction ts as [|a ts IH]; [done|]. intros _.
  destruct ts as [|b ts]; [reflexivity|].
  change (join sep ((a :: b :: ts) ++ [t]))
    with (a +:+ (sep +:+ join sep ((b :: ts) ++ [t]))).
  rewrite IH by done.
  change (join sep (a :: b :: ts)) with (a +:+ (sep +:+ join sep (b :: ts))).
  by rewrite !append_assoc.
Qed.

Lemma running_text_join ts :
  ts ≠ [] → running_text ts = join " " ts +:+ " ".
Proof.
  induction ts as [|t ts IH] using rev_ind; [done|]. intros _.
  rewrite running_text_snoc. destruct ts as [|a ts].
  - reflexivity.
  - rewrite IH by done. rewrite join_snoc by done. by rewrite !append_assoc.
Qed.

(** The trimmed running text is the trimmed space-joined list. *)
Lemma strip_running_text ts : strip (running_text ts) = strip (join " " ts).
Proof.
  destruct ts as [|t ts]; [reflexivity|].
  rewrite running_text_join by done. apply strip_append_space.
Qed.

(** ** What a flush does *)

Lemma same_wire_refl w : same_wire w w.
Proof. by repeat split. Qed.

Lemma same_wire_trans w1 w2 w3 : same_wire w1 w2 → same_wire w2 w3 → same_wire w1 w3.
Proof. unfold same_wire. intros (?&?&?&?&?) (?&?&?&?&?). repeat split; congruence. Qed.

Lemma update_transcription_wire text p c w :
  same_wire w (update_transcription text p c w).
Proof.
  unfold update_transcription, objects_get.
  destruct (Consumer.transcription_id c) as [id|]; [|apply same_wire_refl].
  destruct (rows w !! id); [|apply same_wire_refl]. by repeat split.
Qed.

Lemma mark_transcription_failed_wire m c w :
  same_wire w (mark_transcription_failed m c w).
Proof.
  unfold mark_transcription_failed, objects_get.
  destruct (Consumer.transcription_id c) as [id|]; [|apply same_wire_refl].
  destruct (rows w !! id); [|apply same_wire_refl]. by repeat split.
Qed.

Lemma mark_transcription_completed_wire c w :
  same_wire w (mark_transcription_completed c w).
Proof.
  unfold mark_transcription_completed, objects_get.
  destruct (Consumer.transcription_id c) as [id|]; [|apply same_wire_refl].
  destruct (rows w !! id); [|apply same_wire_refl]. by repeat split.
Qed.

Section Flush.

Context (E : Env).

Lemma process_audio_buffer_fst st :
  fst (process_audio_buffer E st) =
  Consumer.mk (Consumer.user (fst st)) (Consumer.session_id (fst st))
    (Consumer.language_code (fst st)) (Consumer.transcription_id (fst st)) []
    (flush_text (flush_result E st) (Consumer.full_transcription (fst st))).
Proof.
  destruct st as [c w].
  unfold process_audio_buffer, transcribe_audio, flush_result, flush_call.
  cbn. change (buffer_of (c, w)) with (Consumer.audio_buffer c).
  destruct (transcribe_audio_stream _ _ _ _); cbn;
    rewrite ?send_error_fst; reflexivity.
Qed.

Lemma process_audio_buffer_sent st :
  sent (snd (process_audio_buffer E st)) =
  sent (snd st) ++
    [flush_frame (flush_result E st) (Consumer.full_transcription (fst st))].
Proof.
  destruct st as [c w].
  unfold process_audio_buffer, transcribe_audio, flush_result, flush_call.
  cbn. change (buffer_of (c, w)) with (Consumer.audio_buffer c).
  destruct (transcribe_audio_stream _ _ _ _) as [t|e|e]; cbn;
    rewrite ?send_error_sent; try reflexivity.
  match goal with
  | |- context [update_transcription ?t ?p ?c ?w] =>
      destruct (update_transcription_wire t p c w) as (-> & _)
  end. reflexivity.
Qed.

Lemma process_audio_buffer_conn st :
  conn (snd (process_audio_buffer E st)) = conn (snd st).
Proof.
  destruct st as [c w]. unfold process_audio_buffer, transcribe_audio.
  cbn. destruct (transcribe_audio_stream _ _ _ _) as [t|e|e]; cbn;
    rewrite ?send_error_conn; try reflexivity.
  match goal with
  | |- context [update_transcription ?t ?p ?c ?w] =>
      destruct (update_transcription_wire t p c w) as (_ & _ & -> & _)
  end. reflexivity.
Qed.

(** A failed flush is [send_error] on the emptied buffer. *)
Lemma process_audio_buffer_failure st m :
  flush_error (flush_result E st) = Some m →
  process_audio_buffer E st =
  send_error m
    (Consumer.set_audio_buffer [] (fst st),
     set_calls (calls (snd st) ++ [flush_call E (buffer_of st) st]) (snd st)).
Proof.
  destruct st as [c w]. unfold process_audio_buffer, transcribe_audio, flush_result,
    flush_call.
  cbn. change (buffer_of (c, w)) with (Consumer.audio_buffer c).
  destruct (transcribe_audio_stream _ _ _ _) as [t|e|e]; cbn; [done| |];
    by intros [= <-].
Qed.

End Flush.

(** ** The running text and the partial-result frames *)

Lemma config_done_fst data st :
  fst (config_done data st) =
  Consumer.mk (Consumer.user (fst st)) (Consumer.session_id (fst st))
    (dict_get data "language_code" (JStr "hi-IN")) (Some (next_id (snd st)))
    (Consumer.audio_buffer (fst st)) (Consumer.full_transcription (fst st)).
Proof. destruct st as [c w]. reflexivity. Qed.

Lemma config_done_sent data st :
  sent (snd (config_done data st)) =
  sent (snd st) ++
    [ConfigConfirmed (dict_get data "language_code" (JStr "hi-IN"))
       (Some (next_id (snd st)))].
Proof. destruct st as [c w]. reflexivity. Qed.

Lemma config_done_calls data st :
  calls (snd (config_done data st)) = calls (snd st).
Proof. destruct st as [c w]. reflexivity. Qed.

Lemma config_done_conn data st :
  conn (snd (config_done data st)) = conn (snd st).
Proof. destruct st as [c w]. reflexivity. Qed.

(** A [config], accepted or not, sets the language, keeps the other
    attributes but the record id, makes no call and sends one frame. *)
Lemma configure_fst E data st :
  Consumer.user (fst (configure E data st)) = Consumer.user (fst st) ∧
  Consumer.session_id (fst (configure E data st)) = Consumer.session_id (fst st) ∧
  Consumer.language_code (fst (configure E data st)) =
    dict_get data "language_code" (JStr "hi-IN") ∧
  Consumer.audio_buffer (fst (configure E data st)) = Consumer.audio_buffer (fst st) ∧
  Consumer.full_transcription (fst (configure E data st)) =
    Consumer.full_transcription (fst st).
Proof.
  apply configure_cases; [by rewrite config_done_fst|].
  intros m. by rewrite send_error_fst.
Qed.

Lemma configure_calls E data st :
  calls (snd (configure E data st)) = calls (snd st).
Proof.
  apply configure_cases; [apply config_done_calls|].
  intros m. rewrite send_error_calls.
  by destruct (config_failed_world data st) as (_ & _ & _ & ? & _).
Qed.


Section Ordering.

Context (E : Env).

Lemma handle_end_eq st :
  handle_end E st =
  (fst (last_flush E st),
   send (Final (strip (Consumer.full_transcription (fst (last_flush E st))))
           (Consumer.transcription_id (fst (last_flush E st)))
           (Consumer.language_code (fst (last_flush E st))))
     (mark_transcription_completed (fst (last_flush E st)) (snd (last_flush E st)))).
Proof.
  unfold handle_end, last_flush.
  destruct (0 <? len (Consumer.audio_buffer (fst st))).
  - by destruct (process_audio_buffer E st).
  - by destruct st.
Qed.

(** A step that sends no partial result, makes no call and keeps the text. *)
Lemma ordered_quiet st st' :
  ordered st →
  Consumer.full_transcription (fst st') = Consumer.full_transcription (fst st) →
  recognised (calls (snd st')) = recognised (calls (snd st)) →
  transcriptions (sent (snd st')) = transcriptions (sent (snd st)) →
  ordered st'.
Proof.
  intros [H1 H2 H3] Hf Hc Hs. split; rewrite ?Hf, ?Hc, ?Hs; done.
Qed.

Lemma ordered_send_error m st : ordered st → ordered (send_error m st).
Proof.
  intros Hst. apply (ordered_quiet st); [done| | |].
  - by rewrite send_error_fst.
  - by rewrite send_error_calls.
  - rewrite send_error_sent. unfold transcriptions. rewrite omap_app. cbn.
    by rewrite app_nil_r.
Qed.

Lemma ordered_process_audio_buffer st :
  ordered st → ordered (process_audio_buffer E st).
Proof.
  intros [H1 H2 H3].
  pose proof (process_audio_buffer_fst E st) as Hfst.
  pose proof (process_audio_buffer_sent E st) as Hsent.
  pose proof (process_audio_buffer_calls E st) as Hcalls.
  fold (flush_call E (buffer_of st) st) in Hcalls.
  unfold flush_result in Hfst, Hsent.
  destruct (call_result (flush_call E (buffer_of st) st)) as [t|e|e] eqn:Hres.
  - (* a recognised text *)
    assert (recognised (calls (snd (process_audio_buffer E st))) =
            recognised (calls (snd st)) ++ [t]) as Hrec.
    { rewrite Hcalls. unfold recognised. rewrite omap_app. cbn. by rewrite Hres. }
    assert (transcriptions (sent (snd (process_audio_buffer E st))) =
            transcriptions (sent (snd st)) ++
              [(t, strip (Consumer.full_transcription (fst st) +:+ (t +:+ " ")))])
      as Htr.
    { rewrite Hsent. unfold transcriptions. by rewrite omap_app. }
    split.
    + rewrite Htr, Hrec, fmap_app. cbn. by rewrite H1.
    + rewrite Hfst, Hrec, running_text_snoc. cbn. by rewrite H2.
    + intros k t' ft. rewrite Htr, Hrec.
      assert (length (transcriptions (sent (snd st))) =
              length (recognised (calls (snd st)))) as Hlen.
      { by rewrite <- H1, length_fmap. }
      intros Hk. apply lookup_app_Some in Hk as [Hk|[Hge Hk]].
      * pose proof (lookup_lt_Some _ _ _ Hk) as Hlt.
        rewrite take_app_le by lia. by apply (H3 k t' ft).
      * apply list_lookup_singleton_Some in Hk as [Hk0 [= <- <-]].
        rewrite take_ge by (rewrite length_app; cbn; lia).
        rewrite running_text_snoc. by rewrite H2.
  - (* the service reported a failure *)
    apply (ordered_quiet st); [done| | |].
    + by rewrite Hfst.
    + rewrite Hcalls. unfold recognised. rewrite omap_app. cbn. rewrite Hres.
      cbn. by rewrite app_nil_r.
    + rewrite Hsent. unfold transcriptions. rewrite omap_app. cbn.
      by rewrite app_nil_r.
  - (* the call raised *)
    apply (ordered_quiet st); [done| | |].
    + by rewrite Hfst.
    + rewrite Hcalls. unfold recognised. rewrite omap_app. cbn. rewrite Hres.
      cbn. by rewrite app_nil_r.
    + rewrite Hsent. unfold transcriptions. rewrite omap_app. cbn.
      by rewrite app_nil_r.
Qed.

End Ordering.

Section OrderingSteps.

Context (E : Env).

Lemma transcriptions_snoc_other out f :
  match f with TranscriptionFrame _ _ _ => False | _ => True end →
  transcriptions (out ++ [f]) = transcriptions out.
Proof.
  intros Hf. unfold transcriptions. rewrite omap_app.
  destruct f; cbn; try done; by rewrite app_nil_r.
Qed.

Lemma ordered_config_done data st : ordered st → ordered (config_done data st).
Proof.
  intros Hst. apply (ordered_quiet st); [done| | |].
  - by rewrite config_done_fst.
  - by rewrite config_done_calls.
  - rewrite config_done_sent. by apply transcriptions_snoc_other.
Qed.

Lemma ordered_set_audio_buffer b c w :
  ordered (c, w) → ordered (Consumer.set_audio_buffer b c, w).
Proof. intros Hst. by apply (ordered_quiet (c, w)). Qed.

Lemma ordered_handle_audio_binary b st :
  ordered st → ordered (handle_audio_binary E b st).
Proof.
  destruct st as [c w]. intros Hst. unfold handle_audio_binary.
  destruct (_ <=? _).
  - by apply ordered_process_audio_buffer, ordered_set_audio_buffer.
  - by apply ordered_set_audio_buffer.
Qed.

Lemma ordered_handle_audio data st : ordered st → ordered (handle_audio E data st).
Proof.
  destruct st as [c w]. intros Hst. unfold handle_audio.
  destruct (b64decode E _) as [e|b].
  - by apply ordered_send_error.
  - by apply (ordered_handle_audio_binary b (c, w)).
Qed.

Lemma ordered_last_flush st : ordered st → ordered (last_flush E st).
Proof.
  intros Hst. unfold last_flush. destruct (_ <? _); [|done].
  by apply ordered_process_audio_buffer.
Qed.

Lemma ordered_handle_end st : ordered st → ordered (handle_end E st).
Proof.
  intros Hst. rewrite handle_end_eq.
  apply (ordered_quiet (last_flush E st)); [by apply ordered_last_flush|done| |].
  - cbn. by destruct (mark_transcription_completed_wire
      (fst (last_flush E st)) (snd (last_flush E st))) as (_ & -> & _).
  - cbn. destruct (mark_transcription_completed_wire
      (fst (last_flush E st)) (snd (last_flush E st))) as (-> & _).
    by apply transcriptions_snoc_other.
Qed.

Lemma ordered_receive f st : ordered st → ordered (receive E f st).
Proof.
  intros Hst. unfold receive.
  destruct (truthy_str (text_data f)) as [text|].
  - destruct (json_loads E text) as [v|]; [|by apply ordered_send_error].
    destruct v; try by apply ordered_send_error.
    rewrite config_branch. repeat case_match.
    + apply configure_cases; [by apply ordered_config_done|].
      intros m. apply ordered_send_error.
      destruct (config_failed_world fields st) as (_ & _ & Hs & Hc & _).
      apply (ordered_quiet st); [done|done|by rewrite Hc|by rewrite Hs].
    + by apply ordered_handle_audio.
    + by apply ordered_handle_end.
    + by apply ordered_send_error.
  - destruct (truthy_bytes (bytes_data f)); [by apply ordered_handle_audio_binary | done].
Qed.

Lemma ordered_run frames st : ordered st → ordered (run E frames st).
Proof.
  revert st. induction frames as [|f frames IH]; intros st Hst; [done|].
  cbn. apply IH. by apply ordered_receive.
Qed.

Lemma ordered_connect scope st : ordered st → ordered (connect E scope st).
Proof.
  destruct st as [c w]. intros Hst. unfold connect.
  destruct (_ || _); [by apply (ordered_quiet (c, w))|].
  apply (ordered_quiet (c, w)); [done..|].
  cbn. by apply transcriptions_snoc_other.
Qed.

Lemma ordered_new_connection tbl next now seed :
  ordered (Consumer.init, new_connection tbl next now seed).
Proof. by split. Qed.

Lemma ordered_serve scope frames tbl next now seed :
  ordered (serve E scope frames (new_connection tbl next now seed)).
Proof.
  unfold serve. pose proof (ordered_new_connection tbl next now seed) as H0.
  destruct (JWTAuthMiddleware_call E scope) as [scope'|]; [|done].
  pose proof (ordered_connect scope' _ H0) as H1.
  destruct (conn _); try done. by apply ordered_run.
Qed.

End OrderingSteps.

(** C2.  In a session, the partial-result frames carry the texts of the
    successful recognition calls in submission order, and the [full_text]
    of the k-th of them is the trimmed, space-joined concatenation of the
    first k recognised texts. *)
Theorem full_text_is_joined_recognised_prefix
    (E : Env) (scope : Scope) (frames : list in_frame)
    (tbl : gmap nat Transcription.t) (next : nat) (now : time) (seed : nat) :
  let st := serve E scope frames (new_connection tbl next now seed) in
  let outs := transcriptions (sent (snd st)) in
  outs.*1 = recognised (calls (snd st)) ∧
  ∀ k text full_text,
    outs !! k = Some (text, full_text) →
    full_text = strip (join " " (take (S k) (recognised (calls (snd st))))).
Proof.
  cbn zeta. destruct (ordered_serve E scope frames tbl next now seed) as [H1 _ H3].
  split; [exact H1|]. intros k text full_text Hk.
  rewrite <- strip_running_text. by apply (H3 k text full_text).
Qed.

(** ** The record table *)

Lemma advances_refl m : advances m m.
Proof. intros id r Hr. by exists r. Qed.

Lemma advances_trans m1 m2 m3 : advances m1 m2 → advances m2 m3 → advances m1 m3.
Proof.
  intros H12 H23 id r Hr. destruct (H12 id r Hr) as (r2 & Hr2 & Hle).
  destruct (H23 id r2 Hr2) as (r3 & Hr3 & Hle'). exists r3. split; [done | lia].
Qed.

Lemma advances_insert (m : gmap nat Transcription.t) id r r' :
  m !! id = Some r →
  (rank (Transcription.status r) ≤ rank (Transcription.status r'))%nat →
  advances m (<[id := r']> m).
Proof.
  intros Hr Hle id' r0 Hr0. destruct (decide (id = id')) as [<-|Hne].
  - exists r'. rewrite lookup_insert_eq. split; [done|]. congruence.
  - exists r0. by rewrite lookup_insert_ne.
Qed.

Lemma advances_insert_fresh (m : gmap nat Transcription.t) id r' :
  m !! id = None → advances m (<[id := r']> m).
Proof.
  intros Hnone id' r0 Hr0. exists r0. rewrite lookup_insert_ne; [done|].
  intros <-. congruence.
Qed.

Lemma is_Some_insert_existing (m : gmap nat Transcription.t) id r r' id' :
  m !! id = Some r → is_Some (<[id := r']> m !! id') → is_Some (m !! id').
Proof.
  intros Hr. destruct (decide (id = id')) as [<-|Hne].
  - by rewrite Hr.
  - by rewrite lookup_insert_ne.
Qed.

Lemma settles_refl w : settles w w.
Proof. split; [done|]. split; [done | apply advances_refl]. Qed.

Lemma settles_trans w1 w2 w3 : settles w1 w2 → settles w2 w3 → settles w1 w3.
Proof.
  intros (Hn & Hd & Ha) (Hn' & Hd' & Ha'). split; [congruence|]. split.
  - intros id Hid. by apply Hd, Hd'.
  - by apply (advances_trans _ (rows w2)).
Qed.

Lemma settles_store_ok w w' : store_ok w → settles w w' → store_ok w'.
Proof.
  intros [Hpos Hok] (Hn & Hd & _). split; rewrite Hn; [done|].
  intros id Hid. by apply Hok, Hd.
Qed.

Lemma rank_terminal s s' : (rank s ≤ rank s')%nat → terminal s = true → terminal s' = true.
Proof. destruct s, s'; cbn; (done || lia). Qed.

(** What the three writers do to the table. *)
Lemma mark_transcription_failed_rows m c w :
  rows (mark_transcription_failed m c w) =
  match objects_get (Consumer.transcription_id c) w with
  | Some (id, r) => <[id := failed_row m (clock w) r]> (rows w)
  | None => rows w
  end.
Proof.
  unfold mark_transcription_failed. by destruct (objects_get _ _) as [[id r]|].
Qed.

Lemma mark_transcription_completed_rows c w :
  rows (mark_transcription_completed c w) =
  match objects_get (Consumer.transcription_id c) w with
  | Some (id, r) =>
      <[id := completed_row (strip (Consumer.full_transcription c)) (clock w) r]> (rows w)
  | None => rows w
  end.
Proof.
  unfold mark_transcription_completed. by destruct (objects_get _ _) as [[id r]|].
Qed.

Lemma update_transcription_rows text c w :
  rows (update_transcription text true c w) =
  match objects_get (Consumer.transcription_id c) w with
  | Some (id, r) => <[id := appended_row text (clock w) r]> (rows w)
  | None => rows w
  end.
Proof.
  unfold update_transcription. by destruct (objects_get _ _) as [[id r]|].
Qed.

Lemma objects_get_Some tid w id r :
  objects_get tid w = Some (id, r) ↔ tid = Some id ∧ rows w !! id = Some r.
Proof.
  unfold objects_get. destruct tid as [id'|]; [|split; [done | by intros [? _]]].
  destruct (rows w !! id') as [r'|] eqn:Hr.
  - split; [by intros [= <- <-] | intros [[= <-] Hr']; congruence].
  - split; [done | intros [[= <-] Hr']; congruence].
Qed.

Lemma rank_le_terminal s s' : terminal s' = true → (rank s ≤ rank s')%nat.
Proof. destruct s, s'; cbn; (done || lia). Qed.

(** Rewriting an existing row without lowering its status. *)
Lemma settles_rewrite w w' id r r' :
  next_id w' = next_id w →
  rows w !! id = Some r →
  rows w' = <[id := r']> (rows w) →
  (rank (Transcription.status r) ≤ rank (Transcription.status r'))%nat →
  settles w w'.
Proof.
  intros Hn Hr Hrows Hle. split; [done|]. rewrite Hrows. split.
  - intros id'. by apply is_Some_insert_existing with r.
  - by apply advances_insert with r.
Qed.

Lemma settles_same_rows w w' :
  next_id w' = next_id w → rows w' = rows w → settles w w'.
Proof.
  intros Hn Hrows. split; [done|]. rewrite Hrows. split; [done | apply advances_refl].
Qed.

Lemma mark_transcription_failed_settles m c w :
  settles w (mark_transcription_failed m c w).
Proof.
  destruct (mark_transcription_failed_wire m c w) as (_ & _ & _ & Hn & _).
  pose proof (mark_transcription_failed_rows m c w) as Hrows.
  destruct (objects_get _ _) as [[id r]|] eqn:Hget.
  - apply objects_get_Some in Hget as [_ Hr].
    apply (settles_rewrite _ _ id r _ Hn Hr Hrows). by apply rank_le_terminal.
  - by apply settles_same_rows.
Qed.

Lemma mark_transcription_completed_settles c w :
  settles w (mark_transcription_completed c w).
Proof.
  destruct (mark_transcription_completed_wire c w) as (_ & _ & _ & Hn & _).
  pose proof (mark_transcription_completed_rows c w) as Hrows.
  destruct (objects_get _ _) as [[id r]|] eqn:Hget.
  - apply objects_get_Some in Hget as [_ Hr].
    apply (settles_rewrite _ _ id r _ Hn Hr Hrows). by apply rank_le_terminal.
  - by apply settles_same_rows.
Qed.

Lemma update_transcription_settles text c w :
  settles w (update_transcription text true c w).
Proof.
  destruct (update_transcription_wire text true c w) as (_ & _ & _ & Hn & _).
  pose proof (update_transcription_rows text c w) as Hrows.
  destruct (objects_get _ _) as [[id r]|] eqn:Hget.
  - apply objects_get_Some in Hget as [_ Hr].
    by apply (settles_rewrite _ _ id r _ Hn Hr Hrows).
  - by apply settles_same_rows.
Qed.

Lemma send_settles f w : settles w (send f w).
Proof. by apply settles_same_rows. Qed.

Lemma set_calls_settles cs w : settles w (set_calls cs w).
Proof. by apply settles_same_rows. Qed.

Lemma send_error_settles m st : settles (snd st) (snd (send_error m st)).
Proof.
  destruct st as [c w]. unfold send_error.
  destruct (truthy_id _); cbn [snd]; [|apply send_settles].
  eapply settles_trans; [apply (send_settles (Error m))|].
  apply mark_transcription_failed_settles.
Qed.

Section Settling.

Context (E : Env).

Lemma process_audio_buffer_settles st :
  settles (snd st) (snd (process_audio_buffer E st)).
Proof.
  destruct st as [c w]. unfold process_audio_buffer, transcribe_audio.
  cbn [snd]. destruct (transcribe_audio_stream _ _ _ _) as [t|e|e].
  - cbn [snd]. eapply settles_trans; [apply set_calls_settles|].
    eapply settles_trans; [apply update_transcription_settles|].
    apply send_settles.
  - eapply settles_trans; [apply set_calls_settles|].
    apply (send_error_settles _ (_, _)).
  - eapply settles_trans; [apply set_calls_settles|].
    apply (send_error_settles _ (_, _)).
Qed.

Lemma handle_audio_binary_settles b st :
  settles (snd st) (snd (handle_audio_binary E b st)).
Proof.
  destruct st as [c w]. unfold handle_audio_binary. destruct (_ <=? _).
  - apply (process_audio_buffer_settles
             (Consumer.set_audio_buffer (Consumer.audio_buffer c ++ b) c, w)).
  - apply settles_refl.
Qed.

Lemma handle_audio_settles data st :
  settles (snd st) (snd (handle_audio E data st)).
Proof.
  destruct st as [c w]. unfold handle_audio. destruct (b64decode E _) as [e|b].
  - apply (send_error_settles _ (c, w)).
  - apply (handle_audio_binary_settles b (c, w)).
Qed.

Lemma last_flush_settles st : settles (snd st) (snd (last_flush E st)).
Proof.
  unfold last_flush. destruct (_ <? _);
    [apply process_audio_buffer_settles | apply settles_refl].
Qed.

Lemma handle_end_settles st : settles (snd st) (snd (handle_end E st)).
Proof.
  rewrite handle_end_eq. cbn [snd].
  eapply settles_trans; [apply last_flush_settles|].
  eapply settles_trans; [apply mark_transcription_completed_settles|].
  apply send_settles.
Qed.

End Settling.

(** An accepted [config] adds one row under the next id and touches no
    other. *)
Lemma config_done_rows data st :
  ∃ r,
    rows (snd (config_done data st)) = <[next_id (snd st) := r]> (rows (snd st)) ∧
    Transcription.status r = processing ∧
    Transcription.started_at r = Some (S (S (clock (snd st)))) ∧
    Transcription.completed_at r = None ∧
    Transcription.transcription_text r = "" ∧
    Transcription.language_code r = dict_get data "language_code" (JStr "hi-IN") ∧
    Transcription.user r = Consumer.user (fst st) ∧
    Transcription.session_id r = Consumer.session_id (fst st).
Proof.
  destruct st as [c w]. eexists. split.
  - unfold config_done, mark_as_processing, save, timezone_now.
    cbn. rewrite insert_insert_eq. reflexivity.
  - by cbn.
Qed.

Lemma config_done_next_id data st :
  next_id (snd (config_done data st)) = S (next_id (snd st)).
Proof. by destruct st. Qed.

Lemma store_ok_fresh w : store_ok w → rows w !! next_id w = None.
Proof.
  intros [_ Hok]. destruct (rows w !! next_id w) eqn:Hr; [|done].
  assert (is_Some (rows w !! next_id w)) as Hs by (by rewrite Hr).
  apply Hok in Hs. lia.
Qed.

Lemma config_done_store_ok data st :
  store_ok (snd st) →
  store_ok (snd (config_done data st)) ∧
  advances (rows (snd st)) (rows (snd (config_done data st))).
Proof.
  intros Hok. pose proof (store_ok_fresh _ Hok) as Hfresh.
  destruct (config_done_rows data st) as (r & Hrows & _).
  destruct Hok as [Hpos Hok]. split; [split|].
  - rewrite config_done_next_id. lia.
  - intros id. rewrite config_done_next_id, Hrows.
    destruct (decide (next_id (snd st) = id)) as [<-|Hne]; [lia|].
    rewrite lookup_insert_ne by done. intros Hid. apply Hok in Hid. lia.
  - rewrite Hrows. by apply advances_insert_fresh.
Qed.

Lemma config_failed_settles data st : settles (snd st) (snd (config_failed data st)).
Proof.
  destruct (config_failed_world data st) as (Hr & Hn & _).
  by apply settles_same_rows.
Qed.

Section Sessions.

Context (E : Env).

Lemma settles_step w w' :
  store_ok w → settles w w' → store_ok w' ∧ advances (rows w) (rows w').
Proof.
  intros Hok Hs. split; [by apply (settles_store_ok w) | apply Hs].
Qed.

Lemma receive_store_ok f st :
  store_ok (snd st) →
  store_ok (snd (receive E f st)) ∧
  advances (rows (snd st)) (rows (snd (receive E f st))).
Proof.
  intros Hok. unfold receive.
  destruct (truthy_str (text_data f)) as [text|].
  - destruct (json_loads E text) as [v|];
      [|by apply settles_step, send_error_settles].
    destruct v; try by apply settles_step, send_error_settles.
    rewrite config_branch. repeat case_match.
    + apply configure_cases; [by apply config_done_store_ok|].
      intros m. apply settles_step; [done|].
      eapply settles_trans; [apply config_failed_settles | apply send_error_settles].
    + by apply settles_step, handle_audio_settles.
    + by apply settles_step, handle_end_settles.
    + by apply settles_step, send_error_settles.
  - destruct (truthy_bytes (bytes_data f)).
    + by apply settles_step, handle_audio_binary_settles.
    + by apply settles_step, settles_refl.
Qed.

Lemma run_store_ok frames st :
  store_ok (snd st) →
  store_ok (snd (run E frames st)) ∧
  advances (rows (snd st)) (rows (snd (run E frames st))).
Proof.
  revert st. induction frames as [|f frames IH]; intros st Hok.
  - split; [done | apply advances_refl].
  - cbn. destruct (receive_store_ok f st Hok) as [Hok1 Hadv1].
    destruct (IH _ Hok1) as [Hok2 Hadv2]. split; [done|].
    by apply (advances_trans _ (rows (snd (receive E f st)))).
Qed.

End Sessions.

(** C3 (as the code has it).  Over any frames of a session no record
    disappears and no status moves backwards along
    pending → processing → {completed | failed}: a completed or failed
    record stays completed or failed.  (It may still change between the
    two: Finalize completes and an error frame fails, unconditionally.) *)
Theorem status_never_moves_backwards
    (E : Env) (frames : list in_frame) (st : St) (id : nat) (r : Transcription.t) :
  store_ok (snd st) →
  rows (snd st) !! id = Some r →
  ∃ r',
    rows (snd (run E frames st)) !! id = Some r' ∧
    (rank (Transcription.status r) ≤ rank (Transcription.status r'))%nat ∧
    (terminal (Transcription.status r) = true →
     terminal (Transcription.status r') = true).
Proof.
  intros Hok Hr. destruct (run_store_ok E frames st Hok) as [_ Hadv].
  destruct (Hadv id r Hr) as (r' & Hr' & Hle). exists r'.
  split; [done|]. split; [done|]. by apply rank_terminal.
Qed.

(** C3, as stated, fails.  A session is configured and ended: its record is
    completed.  A frame of unknown type follows: the record is failed.  And
    a record failed by a malformed frame is completed by the next [end]. *)
Lemma terminal_status_is_left :
  let st := serve Demo.env Demo.good_scope
              [Demo.text_frame Demo.config_text; Demo.text_frame Demo.end_text]
              Demo.world0 in
  let st' := receive Demo.env (Demo.text_frame "{}") st in
  let bad := serve Demo.env Demo.good_scope
              [Demo.text_frame Demo.config_text; Demo.text_frame "{"]
              Demo.world0 in
  let bad' := receive Demo.env (Demo.text_frame Demo.end_text) bad in
  (Transcription.status <$> rows (snd st) !! 1%nat = Some completed ∧
   Transcription.status <$> rows (snd st') !! 1%nat = Some failed) ∧
  (Transcription.status <$> rows (snd bad) !! 1%nat = Some failed ∧
   Transcription.status <$> rows (snd bad') !! 1%nat = Some completed).
Proof. vm_compute. repeat split. Qed.

Lemma world1_ok : store_ok Demo.world1.
Proof.
  split; [cbn; lia|]. intros id [r Hr].
  change (rows Demo.world1) with ({[1%nat := Demo.row1]} : gmap nat Transcription.t) in Hr.
  apply lookup_singleton_Some in Hr as [<- _]. cbn. lia.
Qed.

Lemma world2_ok : store_ok Demo.world2.
Proof.
  split; [cbn; lia|]. intros id [r Hr].
  change (rows Demo.world2) with ({[1%nat := Demo.row2]} : gmap nat Transcription.t) in Hr.
  apply lookup_singleton_Some in Hr as [<- _]. cbn. lia.
Qed.

Lemma status_never_moves_backwards_witness :
  store_ok (snd Demo.session2) ∧
  rows (snd Demo.session2) !! 1%nat = Some Demo.row2 ∧
  ∃ r', rows (snd (run Demo.env [Demo.text_frame "{}"] Demo.session2)) !! 1%nat
          = Some r' ∧
        terminal (Transcription.status r') = true.
Proof.
  split; [exact world2_ok|]. split; [reflexivity|].
  destruct (status_never_moves_backwards Demo.env [Demo.text_frame "{}"]
              Demo.session2 1%nat Demo.row2 world2_ok eq_refl)
    as (r' & Hr' & _ & Hterm).
  exists r'. split; [exact Hr'|]. apply Hterm. reflexivity.
Defined.

Lemma flush_dispatched_exactly_at_threshold_witness :
  buffer_below Demo.session1 ∧
  calls (snd (ingest_audio Demo.env (IngestBinary Demo.second_of_audio) Demo.session1))
    = [flush_call Demo.env Demo.second_of_audio Demo.session1] ∧
  buffer_of (ingest_audio Demo.env (IngestBinary Demo.second_of_audio) Demo.session1)
    = [].
Proof.
  assert (buffer_below Demo.session1) as Hbelow by (vm_compute; reflexivity).
  split; [exact Hbelow|].
  destruct (flush_dispatched_exactly_at_threshold Demo.env
              (IngestBinary Demo.second_of_audio) [] Demo.session1 Hbelow)
    as (Hge & _ & _).
  apply Hge. vm_compute. discriminate.
Defined.

(** ** Error frames and the record *)

Lemma send_error_rows m st :
  rows (snd (send_error m st)) =
  if truthy_id (Consumer.transcription_id (fst st)) then
    match objects_get (Consumer.transcription_id (fst st)) (snd st) with
    | Some (id, r) => <[id := failed_row m (clock (snd st)) r]> (rows (snd st))
    | None => rows (snd st)
    end
  else rows (snd st).
Proof.
  destruct st as [c w]. unfold send_error. cbn [fst snd].
  destruct (truthy_id _); [|reflexivity].
  cbn [snd]. by rewrite mark_transcription_failed_rows.
Qed.

(** [send_error] on a session whose record exists. *)
Lemma send_error_marks_failed m st id r :
  Consumer.transcription_id (fst st) = Some id →
  id ≠ 0%nat →
  rows (snd st) !! id = Some r →
  rows (snd (send_error m st)) = <[id := failed_row m (clock (snd st)) r]> (rows (snd st)).
Proof.
  intros Htid Hne Hr. rewrite send_error_rows, Htid. cbn.
  destruct (Nat.eqb_spec id 0) as [->|_]; [done|]. cbn. by rewrite Hr.
Qed.

Section ErrorFrames.

Context (E : Env).

Lemma send_error_ends m st : ends_in_error (clock (snd st)) st (send_error m st).
Proof. by exists m, st. Qed.

Lemma process_audio_buffer_ends c w c0 w0 :
  Consumer.transcription_id c = Consumer.transcription_id c0 →
  rows w = rows w0 → clock w = clock w0 → sent w = sent w0 →
  ends_in_error (clock w0) (c0, w0) (process_audio_buffer E (c, w)) ∨
  ends_otherwise (c0, w0) (process_audio_buffer E (c, w)).
Proof.
  intros Htid Hrows Hclock Hsent.
  destruct (flush_error (flush_result E (c, w))) as [m|] eqn:Herr.
  - left. rewrite (process_audio_buffer_failure E _ m Herr).
    eexists m, _. split; [reflexivity|]. by cbn.
  - right. eexists. rewrite process_audio_buffer_sent. cbn [snd]. rewrite Hsent.
    split; [reflexivity|]. intros m.
    destruct (flush_result E (c, w)); cbn in *; congruence.
Qed.

Lemma handle_audio_binary_ends b st :
  ends_in_error (clock (snd st)) st (handle_audio_binary E b st) ∨
  ends_otherwise st (handle_audio_binary E b st).
Proof.
  destruct st as [c w]. unfold handle_audio_binary. destruct (_ <=? _).
  - by apply process_audio_buffer_ends.
  - right. exists []. cbn. by rewrite app_nil_r.
Qed.

Lemma receive_ends f st :
  ends_in_error (error_clock E f st) st (receive E f st) ∨
  ends_otherwise st (receive E f st).
Proof.
  rewrite receive_by_kind. unfold error_clock.
  destruct (frame_kind_of E f) as [data|data| |mt| |v|b|];
    try (left; apply send_error_ends).
  - rewrite handle_config_state. unfold configure.
    destruct (config_accepted E data st).
    + right. eexists. rewrite config_done_sent. split; [reflexivity | done].
    + left. eexists _, _. split; [reflexivity|].
      by destruct (config_failed_world data st) as (? & _ & ? & _).
  - destruct st as [c w]. unfold handle_audio.
    destruct (b64decode E _) as [e|b]; [left; apply send_error_ends|].
    apply (handle_audio_binary_ends b (c, w)).
  - right. rewrite handle_end_eq. cbn [snd].
    destruct (mark_transcription_completed_wire (fst (last_flush E st))
                (snd (last_flush E st))) as (Hs & _).
    unfold send at 1. cbn [sent set_sent]. rewrite Hs.
    assert (∃ pre, sent (snd (last_flush E st)) = sent (snd st) ++ pre) as [pre ->].
    { unfold last_flush. destruct (_ <? _).
      - eexists. apply process_audio_buffer_sent.
      - exists []. by rewrite app_nil_r. }
    eexists. rewrite <- app_assoc. split; [reflexivity|].
    intros m. by rewrite last_snoc.
  - apply handle_audio_binary_ends.
  - right. exists []. by rewrite app_nil_r.
Qed.

End ErrorFrames.



(** ** Malformed frames *)

Lemma receive_decode_error E f st m :
  decode_error E f = Some m → receive E f st = send_error m st.
Proof.
  unfold decode_error, receive.
  destruct (truthy_str (text_data f)) as [text|]; [|done].
  destruct (json_loads E text) as [v|]; [|by intros [= <-]].
  destruct v; try by intros [= <-].
  destruct (eq_str _ "config"); [done|].
  destruct (eq_str _ "audio"); [|done].
  destruct st as [c w]. unfold handle_audio.
  destruct (b64decode E _) as [e|b]; [by intros [= <-] | done].
Qed.

Lemma send_error_wire m st :
  calls (snd (send_error m st)) = calls (snd st) ∧
  conn (snd (send_error m st)) = conn (snd st) ∧
  next_id (snd (send_error m st)) = next_id (snd st) ∧
  entropy (snd (send_error m st)) = entropy (snd st).
Proof.
  destruct st as [c w]. unfold send_error.
  destruct (truthy_id _); cbn [snd]; [|done].
  by destruct (mark_transcription_failed_wire m c (send (Error m) w))
    as (_ & -> & -> & -> & ->).
Qed.

Lemma send_error_no_record m st :
  truthy_id (Consumer.transcription_id (fst st)) = false →
  send_error m st = (fst st, send (Error m) (snd st)).
Proof. destruct st as [c w]. unfold send_error. cbn. by intros ->. Qed.

(** C4 (as the code has it).  A frame with a text that is not empty and
    cannot be decoded -- not JSON, JSON that is not an object, or an [audio]
    message whose payload is not base64 -- is answered with an error frame;
    the consumer's attributes -- audio buffer, accumulated text, language
    code, record id -- are as before, no call is made and the connection
    stays as it is.  The session's record, if there is one, is marked
    failed: status, error message, [completed_at] and [updated_at] are
    rewritten, its text and language are kept.  Without a record the error
    frame is the only effect.  A frame whose text is empty is not decoded:
    when it carries no bytes either it is dropped, with no error frame and
    no change at all. *)
Theorem undecodable_frame_reports_error_and_fails_record
    (E : Env) (f : in_frame) (st : St) :
  (∀ m,
     decode_error E f = Some m →
     let st' := receive E f st in
     fst st' = fst st ∧
     sent (snd st') = sent (snd st) ++ [Error m] ∧
     calls (snd st') = calls (snd st) ∧
     conn (snd st') = conn (snd st) ∧
     next_id (snd st') = next_id (snd st) ∧
     (truthy_id (Consumer.transcription_id (fst st)) = false →
        st' = (fst st, send (Error m) (snd st))) ∧
     (∀ id r,
        Consumer.transcription_id (fst st) = Some id → id ≠ 0%nat →
        rows (snd st) !! id = Some r →
        rows (snd st') = <[id := failed_row m (clock (snd st)) r]> (rows (snd st)) ∧
        Transcription.status (failed_row m (clock (snd st)) r) = failed ∧
        Transcription.transcription_text (failed_row m (clock (snd st)) r) =
          Transcription.transcription_text r ∧
        Transcription.language_code (failed_row m (clock (snd st)) r) =
          Transcription.language_code r)) ∧
  (text_data f = Some "" →
     decode_error E f = None ∧
     (truthy_bytes (bytes_data f) = None → receive E f st = st)).
Proof.
  split.
  - intros m Hdec. cbn zeta. rewrite (receive_decode_error E f st m Hdec).
    destruct (send_error_wire m st) as (Hc & Hn & Hi & _).
    split; [apply send_error_fst|]. split; [apply send_error_sent|].
    split; [done|]. split; [done|]. split; [done|].
    split; [apply send_error_no_record|].
    intros id r Htid Hne Hr. split; [by apply send_error_marks_failed | done].
  - intros Htext. unfold decode_error, receive. rewrite Htext. cbn.
    split; [done|]. by intros ->.
Qed.

(** C4, as stated, fails: a configured session receives a text that is not
    JSON, or an audio message that does not decode, and its record is no
    longer what it was -- it was being processed and is now failed.  And a
    frame with an empty text, which is no JSON either, gets no error frame:
    nothing is sent. *)
Lemma undecodable_frame_changes_record :
  let bad_json := Demo.text_frame "{" in
  let bad_audio := Demo.text_frame Demo.bad_audio_text in
  decode_error Demo.env bad_json = Some "Invalid JSON format" ∧
  decode_error Demo.env bad_audio = Some "Error processing audio: Incorrect padding" ∧
  Transcription.status <$> rows (snd Demo.session1) !! 1%nat = Some processing ∧
  rows (snd (receive Demo.env bad_json Demo.session1)) !! 1%nat ≠
    rows (snd Demo.session1) !! 1%nat ∧
  Transcription.status <$> rows (snd (receive Demo.env bad_json Demo.session1)) !! 1%nat
    = Some failed ∧
  Transcription.status <$> rows (snd (receive Demo.env bad_audio Demo.session1)) !! 1%nat
    = Some failed ∧
  Demo.json_loads "" = None ∧
  sent (snd (receive Demo.env (Demo.text_frame "") Demo.session1)) =
    sent (snd Demo.session1).
Proof. vm_compute. repeat split; discriminate. Qed.

Lemma undecodable_frame_reports_error_and_fails_record_witness :
  decode_error Demo.env (Demo.text_frame "{") = Some "Invalid JSON format" ∧
  fst (receive Demo.env (Demo.text_frame "{") Demo.session1) = fst Demo.session1 ∧
  sent (snd (receive Demo.env (Demo.text_frame "{") Demo.session1)) =
    sent (snd Demo.session1) ++ [Error "Invalid JSON format"] ∧
  text_data (Demo.text_frame "") = Some "" ∧
  receive Demo.env (Demo.text_frame "") Demo.session1 = Demo.session1.
Proof.
  split; [reflexivity|].
  destruct (undecodable_frame_reports_error_and_fails_record Demo.env
              (Demo.text_frame "{") Demo.session1) as [Hbad _].
  destruct (Hbad "Invalid JSON format" eq_refl) as (Hfst & Hsent & _).
  split; [exact Hfst|]. split; [exact Hsent|]. split; [reflexivity|].
  destruct (undecodable_frame_reports_error_and_fails_record Demo.env
              (Demo.text_frame "") Demo.session1) as [_ Hempty].
  destruct (Hempty eq_refl) as [_ Hdrop]. apply Hdrop. reflexivity.
Defined.

(** ** Finalize *)

Section Finalize.

Context (E : Env).

Lemma last_flush_cases st :
  (buffer_of st = [] ∧ last_flush E st = st) ∨
  (buffer_of st ≠ [] ∧ last_flush E st = process_audio_buffer E st).
Proof.
  unfold last_flush, buffer_of, len.
  destruct (Consumer.audio_buffer (fst st)) as [|x b]; [by left|].
  right. split; [done|]. cbn [length].
  destruct (Z.ltb_spec 0 (Z.of_nat (S (length b)))); [done | lia].
Qed.

Lemma last_flush_attributes st :
  Consumer.transcription_id (fst (last_flush E st)) = Consumer.transcription_id (fst st) ∧
  Consumer.language_code (fst (last_flush E st)) = Consumer.language_code (fst st).
Proof.
  destruct (last_flush_cases st) as [[_ ->]|[_ ->]]; [done|].
  by rewrite process_audio_buffer_fst.
Qed.

Lemma handle_end_completes st id r :
  Consumer.transcription_id (fst st) = Some id →
  rows (snd st) !! id = Some r →
  ∃ r1,
    rows (snd (last_flush E st)) !! id = Some r1 ∧
    rows (snd (handle_end E st)) !! id =
      Some (completed_row (strip (Consumer.full_transcription (fst (handle_end E st))))
              (clock (snd (last_flush E st))) r1).
Proof.
  intros Htid Hr.
  destruct (last_flush_settles E st) as (_ & _ & Hadv).
  destruct (Hadv id r Hr) as (r1 & Hr1 & _). exists r1. split; [done|].
  rewrite handle_end_eq. cbn [fst snd].
  change (rows (send ?f ?w)) with (rows w).
  rewrite mark_transcription_completed_rows.
  destruct (last_flush_attributes st) as [-> _]. rewrite Htid.
  cbn [objects_get]. rewrite Hr1. apply lookup_insert_eq.
Qed.

End Finalize.

(** C5.  Finalize with an empty buffer makes no recognition call and sends
    only the final frame, whose text is the trimmed running text as it was.
    With a non-empty buffer it first makes exactly one call, on the whole
    buffer, and sends that flush's frame before the final one.  Either way
    the buffer ends empty, the last frame is the final frame with the
    trimmed running text, the record id and the language code, and the
    session's record, when it exists, is completed with that text and
    [completed_at] set. *)
Theorem finalize_flushes_remainder_and_completes (E : Env) (st : St) :
  let st' := handle_end E st in
  let tid := Consumer.transcription_id (fst st) in
  let lang := Consumer.language_code (fst st) in
  (buffer_of st = [] →
     calls (snd st') = calls (snd st) ∧
     sent (snd st') =
       sent (snd st) ++ [Final (strip (Consumer.full_transcription (fst st))) tid lang]) ∧
  (buffer_of st ≠ [] →
     calls (snd st') = calls (snd st) ++ [flush_call E (buffer_of st) st] ∧
     sent (snd st') =
       sent (snd st) ++
         [flush_frame (flush_result E st) (Consumer.full_transcription (fst st));
          Final (strip (Consumer.full_transcription (fst st'))) tid lang]) ∧
  buffer_of st' = [] ∧
  last (sent (snd st')) =
    Some (Final (strip (Consumer.full_transcription (fst st'))) tid lang) ∧
  (∀ id r,
     tid = Some id → rows (snd st) !! id = Some r →
     ∃ r' now,
       rows (snd st') !! id = Some r' ∧
       Transcription.status r' = completed ∧
       Transcription.transcription_text r' =
         strip (Consumer.full_transcription (fst st')) ∧
       Transcription.completed_at r' = Some now).
Proof.
  cbn zeta.
  assert (calls (snd (handle_end E st)) = calls (snd (last_flush E st)) ∧
          sent (snd (handle_end E st)) =
            sent (snd (last_flush E st)) ++
              [Final (strip (Consumer.full_transcription (fst (handle_end E st))))
                 (Consumer.transcription_id (fst st))
                 (Consumer.language_code (fst st))]) as [Hcalls Hsent].
  { rewrite handle_end_eq. cbn [fst snd].
    destruct (last_flush_attributes E st) as [-> ->].
    destruct (mark_transcription_completed_wire (fst (last_flush E st))
                (snd (last_flush E st))) as (Hs & Hc & _).
    unfold send. cbn [sent calls set_sent]. by rewrite Hs, Hc. }
  assert (fst (handle_end E st) = fst (last_flush E st)) as Hfst.
  { by rewrite handle_end_eq. }
  repeat split.
  - destruct (last_flush_cases E st) as [[_ Heq]|[Hne _]]; [|done].
    by rewrite Hcalls, Heq.
  - rewrite Hsent, Hfst.
    destruct (last_flush_cases E st) as [[_ Heq]|[Hne _]]; [|done]. by rewrite Heq.
  - destruct (last_flush_cases E st) as [[Hnil _]|[_ Heq]]; [done|].
    rewrite Hcalls, Heq. apply process_audio_buffer_calls.
  - rewrite Hsent.
    destruct (last_flush_cases E st) as [[Hnil _]|[_ Heq]]; [done|].
    rewrite Heq, process_audio_buffer_sent, <- app_assoc. reflexivity.
  - apply handle_end_buffer.
  - rewrite Hsent. apply last_snoc.
  - intros id r Htid Hr.
    destruct (handle_end_completes E st id r Htid Hr) as (r1 & _ & Hr').
    eexists _, _. split; [exact Hr'|]. done.
Qed.

(** ** The connection survives every frame *)

Section Connection.

Context (E : Env).

Lemma handle_audio_binary_conn b st :
  conn (snd (handle_audio_binary E b st)) = conn (snd st).
Proof.
  destruct st as [c w]. unfold handle_audio_binary.
  destruct (_ <=? _); [|done]. by rewrite process_audio_buffer_conn.
Qed.

Lemma handle_audio_conn data st :
  conn (snd (handle_audio E data st)) = conn (snd st).
Proof.
  destruct st as [c w]. unfold handle_audio. destruct (b64decode E _) as [e|b].
  - by rewrite send_error_conn.
  - apply (handle_audio_binary_conn b (c, w)).
Qed.

Lemma ingest_audio_conn i st : conn (snd (ingest_audio E i st)) = conn (snd st).
Proof. destruct i; [apply handle_audio_conn | apply handle_audio_binary_conn]. Qed.

Lemma handle_end_conn st : conn (snd (handle_end E st)) = conn (snd st).
Proof.
  rewrite handle_end_eq. cbn [snd]. change (conn (send ?f ?w)) with (conn w).
  destruct (mark_transcription_completed_wire (fst (last_flush E st))
              (snd (last_flush E st))) as (_ & _ & -> & _).
  destruct (last_flush_cases E st) as [[_ ->]|[_ ->]]; [done|].
  apply process_audio_buffer_conn.
Qed.

Lemma receive_conn f st : conn (snd (receive E f st)) = conn (snd st).
Proof.
  unfold receive. destruct (truthy_str (text_data f)) as [text|].
  - destruct (json_loads E text) as [v|]; [|apply send_error_conn].
    destruct v; try apply send_error_conn.
    rewrite config_branch. repeat case_match.
    + apply (configure_cases (fun st' => conn (snd st') = conn (snd st)));
        [apply config_done_conn|].
      intros m. rewrite send_error_conn.
      by destruct (config_failed_world fields st) as (_ & _ & _ & _ & ? & _).
    + apply handle_audio_conn.
    + apply handle_end_conn.
    + apply send_error_conn.
  - destruct (truthy_bytes (bytes_data f)); [apply handle_audio_binary_conn | done].
Qed.

Lemma run_conn frames st : conn (snd (run E frames st)) = conn (snd st).
Proof.
  revert st. induction frames as [|f frames IH]; intros st; [done|].
  change (run E (f :: frames) st) with (run E frames (receive E f st)).
  by rewrite IH, receive_conn.
Qed.

End Connection.

(** C6.  When the recognition call of a flush fails, the flush sends one
    error frame, leaves the connection as it is and marks the session's
    record, when it exists, failed with the reported message and the time of
    the failure.  Whatever frames follow, the connection stays as it was and
    the next ingest that brings the buffer to 32000 bytes dispatches a call
    on the whole buffer. *)
Theorem failed_flush_keeps_session_usable
    (E : Env) (st : St) (m : string) (frames : list in_frame) (i : ingest) :
  flush_error (flush_result E st) = Some m →
  let st1 := process_audio_buffer E st in
  let st2 := run E frames st1 in
  let st3 := ingest_audio E i st2 in
  sent (snd st1) = sent (snd st) ++ [Error m] ∧
  conn (snd st1) = conn (snd st) ∧
  (∀ id r,
     Consumer.transcription_id (fst st) = Some id → id ≠ 0%nat →
     rows (snd st) !! id = Some r →
     rows (snd st1) !! id = Some (failed_row m (clock (snd st)) r) ∧
     Transcription.status (failed_row m (clock (snd st)) r) = failed ∧
     Transcription.error_message (failed_row m (clock (snd st)) r) = m ∧
     Transcription.completed_at (failed_row m (clock (snd st)) r) =
       Some (clock (snd st))) ∧
  conn (snd st2) = conn (snd st) ∧
  conn (snd st3) = conn (snd st) ∧
  (FLUSH_THRESHOLD ≤ len (buffer_of st2 ++ payload E i) →
     calls (snd st3) =
       calls (snd st2) ++ [flush_call E (buffer_of st2 ++ payload E i) st2]).
Proof.
  intros Herr. cbn zeta.
  assert (buffer_below (run E frames (process_audio_buffer E st))) as Hbelow.
  { apply run_below, buffer_below_nil, process_audio_buffer_buffer. }
  split; [|split; [|split; [|split; [|split]]]].
  - rewrite process_audio_buffer_sent.
    destruct (flush_result E st); cbn in Herr |- *; congruence.
  - apply process_audio_buffer_conn.
  - intros id r Htid Hne Hr. split; [|done].
    rewrite (process_audio_buffer_failure E st m Herr).
    rewrite (send_error_marks_failed m _ id r) by done.
    apply lookup_insert_eq.
  - by rewrite run_conn, process_audio_buffer_conn.
  - by rewrite ingest_audio_conn, run_conn, process_audio_buffer_conn.
  - intros Hge. by apply (ingest_audio_step E i _ Hbelow).
Qed.

Lemma failed_flush_keeps_session_usable_witness :
  let st := (Consumer.set_audio_buffer [Byte.x01] Demo.consumer1,
             set_calls [flush_call Demo.env [Byte.x01] Demo.session1;
                        flush_call Demo.env [Byte.x02] Demo.session1] Demo.world1) in
  flush_error (flush_result Demo.env st) = Some "Transcription error: 503 Server Error" ∧
  rows (snd (process_audio_buffer Demo.env st)) !! 1%nat =
    Some (failed_row "Transcription error: 503 Server Error" 104%nat Demo.row1) ∧
  length (calls (snd (ingest_audio Demo.env (IngestBinary Demo.second_of_audio)
                        (process_audio_buffer Demo.env st)))) = 4%nat.
Proof.
  cbn zeta. split; [reflexivity|].
  destruct (failed_flush_keeps_session_usable Demo.env
              (Consumer.set_audio_buffer [Byte.x01] Demo.consumer1,
               set_calls [flush_call Demo.env [Byte.x01] Demo.session1;
                          flush_call Demo.env [Byte.x02] Demo.session1] Demo.world1)
              "Transcription error: 503 Server Error" []
              (IngestBinary Demo.second_of_audio) eq_refl)
    as (_ & _ & Hrow & _ & _ & Hnext).
  split.
  - apply (Hrow 1%nat Demo.row1); [reflexivity | discriminate | reflexivity].
  - assert (FLUSH_THRESHOLD ≤ len (Demo.second_of_audio)) as Hge
      by (vm_compute; discriminate).
    apply Hnext in Hge. unfold run in Hge. cbn [fold_left] in Hge.
    rewrite Hge. reflexivity.
Defined.

(** ** The authentication gate *)

Section AuthGate.

Context (E : Env).

Lemma connect_anonymous scope st :
  scope_user scope = Some AnonymousUser →
  connect E scope st =
  (Consumer.set_user (Some AnonymousUser) (fst st), set_conn (Closed 4001) (snd st)).
Proof. destruct st as [c w]. unfold connect. by intros ->. Qed.

Lemma middleware_rejects scope :
  (∀ token, query_token E scope = Some (Some token) → token ≠ "" →
            get_user_from_token E token = AnonymousUser) →
  ∀ scope', JWTAuthMiddleware_call E scope = Some scope' →
            scope_user scope' = Some AnonymousUser.
Proof.
  intros Hcred scope'. unfold JWTAuthMiddleware_call.
  destruct (query_token E scope) as [[token|]|] eqn:Htok; [| |done].
  - destruct token as [|a token]; [by intros [= <-]|].
    cbn. intros [= <-]. cbn. f_equal. by apply Hcred.
  - by intros [= <-].
Qed.

End AuthGate.

(** C7.  A connection whose query string carries no token, an empty token,
    or a token the verifier resolves to no user, is closed by [connect] with
    code 4001 and is never accepted: whatever frames the client has ready,
    none is handled, nothing is sent, no recognition call is made and the
    record table is untouched. *)
Theorem unauthenticated_connection_is_closed
    (E : Env) (scope : Scope) (frames : list in_frame) (w : World) :
  (∀ token, query_token E scope = Some (Some token) → token ≠ "" →
            get_user_from_token E token = AnonymousUser) →
  let st := serve E scope frames w in
  st = serve E scope [] w ∧
  (is_Some (query_token E scope) → conn (snd st) = Closed 4001) ∧
  rows (snd st) = rows w ∧
  next_id (snd st) = next_id w ∧
  sent (snd st) = sent w ∧
  calls (snd st) = calls w ∧
  Consumer.transcription_id (fst st) = None ∧
  Consumer.audio_buffer (fst st) = [].
Proof.
  intros Hcred. cbn zeta. pose proof (middleware_rejects E scope Hcred) as Hrej.
  unfold serve. unfold JWTAuthMiddleware_call in *.
  destruct (query_token E scope) as [token|].
  - rewrite connect_anonymous by (by apply Hrej). cbn.
    by repeat split.
  - repeat split; try done; by intros [? ?].
Qed.

Lemma unauthenticated_connection_is_closed_witness :
  conn (snd (serve Demo.env Demo.stale_scope
               [Demo.text_frame Demo.config_text] Demo.world0)) = Closed 4001 ∧
  rows (snd (serve Demo.env Demo.bare_scope
               [Demo.text_frame Demo.config_text] Demo.world0)) = ∅.
Proof.
  split.
  - apply (unauthenticated_connection_is_closed Demo.env Demo.stale_scope
             [Demo.text_frame Demo.config_text] Demo.world0).
    + intros token [= <-] _. reflexivity.
    + by eexists.
  - apply (unauthenticated_connection_is_closed Demo.env Demo.bare_scope
             [Demo.text_frame Demo.config_text] Demo.world0).
    intros token [=].
Defined.

(** ** Configure *)

Lemma receive_config E f st text data :
  truthy_str (text_data f) = Some text →
  json_loads E text = Some (JObj data) →
  eq_str (dict_get data "type" JNull) "config" = true →
  receive E f st = configure E data st.
Proof. unfold receive. intros -> -> ->. apply config_branch. Qed.

(** C9 (as the code has it).  Every [config] frame whose record is stored
    -- the session has a user and a session id, the language given is not
    null and the database does not refuse the row -- be it the first of a
    session or a later one, is handled by Configure: it sets the language,
    adds a record under an id the table did not have -- status processing,
    [started_at] set, the session's language, user and session id -- leaves
    every other record as it is, and answers with a [config_confirmed] frame
    carrying the language and the new id.  A second such [config] adds a
    second record under the next id and does not touch the first. *)
Theorem config_creates_a_new_processing_record
    (E : Env) (f f2 : in_frame) (text text2 : string)
    (data data2 : list (string * json)) (st : St) :
  store_ok (snd st) →
  truthy_str (text_data f) = Some text →
  json_loads E text = Some (JObj data) →
  eq_str (dict_get data "type" JNull) "config" = true →
  config_accepted E data st = true →
  truthy_str (text_data f2) = Some text2 →
  json_loads E text2 = Some (JObj data2) →
  eq_str (dict_get data2 "type" JNull) "config" = true →
  config_accepted E data2 (receive E f st) = true →
  let id := next_id (snd st) in
  let lang := dict_get data "language_code" (JStr "hi-IN") in
  let st' := receive E f st in
  let st'' := receive E f2 st' in
  rows (snd st) !! id = None ∧
  Consumer.transcription_id (fst st') = Some id ∧
  Consumer.language_code (fst st') = lang ∧
  sent (snd st') = sent (snd st) ++ [ConfigConfirmed lang (Some id)] ∧
  (∃ r, rows (snd st') !! id = Some r ∧
        Transcription.status r = processing ∧
        is_Some (Transcription.started_at r) ∧
        Transcription.language_code r = lang ∧
        Transcription.user r = Consumer.user (fst st) ∧
        Transcription.session_id r = Consumer.session_id (fst st)) ∧
  (∀ id', id' ≠ id → rows (snd st') !! id' = rows (snd st) !! id') ∧
  Consumer.transcription_id (fst st'') = Some (S id) ∧
  sent (snd st'') =
    sent (snd st') ++
      [ConfigConfirmed (dict_get data2 "language_code" (JStr "hi-IN")) (Some (S id))] ∧
  rows (snd st'') !! id = rows (snd st') !! id ∧
  (∃ r2, rows (snd st'') !! S id = Some r2 ∧ Transcription.status r2 = processing).
Proof.
  intros Hok Ht Hj Hc Hacc Ht2 Hj2 Hc2 Hacc2. cbn zeta.
  rewrite (receive_config E f2 _ text2 data2 Ht2 Hj2 Hc2).
  rewrite (configure_accepted E data2 _ Hacc2).
  rewrite (receive_config E f st text data Ht Hj Hc).
  rewrite (configure_accepted E data st Hacc).
  destruct (config_done_rows data st) as (r & Hrows & Hst & Hstart & _ & _ & Hl & Hu & Hs).
  destruct (config_done_rows data2 (config_done data st))
    as (r2 & Hrows2 & Hst2 & _).
  rewrite config_done_next_id in Hrows2.
  split; [by apply store_ok_fresh|].
  split; [by rewrite config_done_fst|].
  split; [by rewrite config_done_fst|].
  split; [apply config_done_sent|].
  split.
  { exists r. rewrite Hrows, lookup_insert_eq, Hstart. by eauto 10. }
  split.
  { intros id' Hne. by rewrite Hrows, lookup_insert_ne. }
  split; [by rewrite config_done_fst, config_done_next_id|].
  split; [by rewrite config_done_sent, config_done_next_id|].
  split.
  { rewrite Hrows2. rewrite lookup_insert_ne by lia. done. }
  exists r2. by rewrite Hrows2, lookup_insert_eq.
Qed.

Lemma config_creates_a_new_processing_record_witness :
  store_ok (snd Demo.session1) ∧
  Consumer.transcription_id
    (fst (receive Demo.env (Demo.text_frame Demo.config_text) Demo.session1)) =
    Some 2%nat ∧
  rows (snd (receive Demo.env (Demo.text_frame Demo.config_text) Demo.session1))
    !! 1%nat = Some Demo.row1.
Proof.
  split; [exact world1_ok|].
  destruct (config_creates_a_new_processing_record Demo.env
              (Demo.text_frame Demo.config_text) (Demo.text_frame Demo.config_text)
              Demo.config_text Demo.config_text
              [("type", JStr "config"); ("language_code", JStr "ta-IN")]
              [("type", JStr "config"); ("language_code", JStr "ta-IN")]
              Demo.session1 world1_ok eq_refl eq_refl eq_refl eq_refl eq_refl eq_refl
              eq_refl eq_refl)
    as (_ & Htid & _ & _ & _ & Hother & _).
  split; [exact Htid|]. rewrite Hother by discriminate. reflexivity.
Defined.

(** C9, as stated, fails: [language_code] is a NOT NULL column, and a
    [config] whose [language_code] is null is refused.  On a connection that
    was configured once, such a frame is answered with an error frame and no
    [config_confirmed]; no record is added, the record id of the session is
    still that of the first record, and that record, which was being
    processed, is now failed. *)
Lemma null_language_config_creates_no_record :
  let first := [Demo.text_frame Demo.config_text] in
  let both := [Demo.text_frame Demo.config_text;
               Demo.text_frame Demo.null_config_text] in
  let st1 := serve Demo.env Demo.good_scope first Demo.world0 in
  let st2 := serve Demo.env Demo.good_scope both Demo.world0 in
  frame_kind_of Demo.env (Demo.text_frame Demo.null_config_text) =
    KConfig [("type", JStr "config"); ("language_code", JNull)] ∧
  Transcription.status <$> rows (snd st1) !! 1%nat = Some processing ∧
  sent (snd st2) =
    sent (snd st1) ++
      [Error ("Error processing message: " +:+
              "NOT NULL constraint failed: api_transcription.language_code")] ∧
  (map_to_list (rows (snd st2))).*1 = [1%nat] ∧
  Consumer.transcription_id (fst st2) = Some 1%nat ∧
  Transcription.status <$> rows (snd st2) !! 1%nat = Some failed.
Proof. vm_compute. repeat split. Qed.

(** ** Frames by kind *)

(** ** Rewrites of a row *)

Lemma writes_weaken (K K' : write_kind → Prop) lo hi lo' hi' r r' :
  (∀ k, K k → K' k) → (lo' ≤ lo)%nat → (hi ≤ hi')%nat →
  writes K lo hi r r' → writes K' lo' hi' r r'.
Proof.
  intros HK Hlo Hhi Hw. induction Hw.
  - constructor.
  - constructor; [done | by apply HK | lia].
  - constructor; [done | by apply HK | lia].
  - constructor; [done | by apply HK | lia].
Qed.

Lemma writes_trans K lo hi r1 r2 r3 :
  writes K lo hi r1 r2 → writes K lo hi r2 r3 → writes K lo hi r1 r3.
Proof.
  intros H12 H23. induction H23; [done| | |]; constructor; auto.
Qed.

Lemma touches_weaken (K K' : write_kind → Prop) lo hi lo' hi' tid m m' :
  (∀ k, K k → K' k) → (lo' ≤ lo)%nat → (hi ≤ hi')%nat →
  touches K lo hi tid m m' → touches K' lo' hi' tid m m'.
Proof.
  intros HK Hlo Hhi [->|(id & r & r' & Htid & Hr & Hm & Hw)]; [by left|].
  right. exists id, r, r'. repeat split; try done.
  by apply (writes_weaken K K' lo hi).
Qed.

Lemma touches_trans K lo mid hi tid m1 m2 m3 :
  (lo ≤ mid)%nat → (mid ≤ hi)%nat →
  touches K lo mid tid m1 m2 → touches K mid hi tid m2 m3 →
  touches K lo hi tid m1 m3.
Proof.
  intros Hlo Hhi H12 H23.
  destruct H12 as [->|(id & r & r' & Htid & Hr & Hm & Hw)].
  { by apply (touches_weaken K K mid hi). }
  destruct H23 as [->|(id2 & r2 & r2' & Htid2 & Hr2 & Hm2 & Hw2)].
  { right. exists id, r, r'. repeat split; try done.
    by apply (writes_weaken K K lo mid). }
  assert (id2 = id) as -> by congruence.
  rewrite Hm, lookup_insert_eq in Hr2. injection Hr2 as <-.
  right. exists id, r, r2'. repeat split; try done.
  - by rewrite Hm2, Hm, insert_insert_eq.
  - apply (writes_trans K lo hi r r').
    + by apply (writes_weaken K K lo mid).
    + by apply (writes_weaken K K mid hi).
Qed.

Lemma steps_refl K tid w : steps K tid w w.
Proof. split; [done|]. split; [done | by left]. Qed.

Lemma steps_trans K tid w1 w2 w3 :
  steps K tid w1 w2 → steps K tid w2 w3 → steps K tid w1 w3.
Proof.
  intros (Hc & Hn & Ht) (Hc' & Hn' & Ht'). split; [lia|]. split; [congruence|].
  by apply (touches_trans K (clock w1) (clock w2) (clock w3) tid
              (rows w1) (rows w2) (rows w3)).
Qed.

Lemma steps_weaken (K K' : write_kind → Prop) tid w w' :
  (∀ k, K k → K' k) → steps K tid w w' → steps K' tid w w'.
Proof.
  intros HK (Hc & Hn & Ht). split; [done|]. split; [done|].
  by apply (touches_weaken K K' (clock w) (clock w')).
Qed.

Lemma steps_same_rows K tid w w' :
  clock w' = clock w → next_id w' = next_id w → rows w' = rows w → steps K tid w w'.
Proof. intros Hc Hn Hr. split; [lia|]. split; [done|]. left. done. Qed.

Lemma send_steps K tid f w : steps K tid w (send f w).
Proof. by apply steps_same_rows. Qed.

Lemma set_calls_steps K tid cs w : steps K tid w (set_calls cs w).
Proof. by apply steps_same_rows. Qed.

Lemma mark_transcription_failed_steps (K : write_kind → Prop) m c w :
  K WFailed →
  steps K (Consumer.transcription_id c) w (mark_transcription_failed m c w).
Proof.
  intros HK. unfold mark_transcription_failed.
  destruct (objects_get _ _) as [[id r]|] eqn:Hget; [|apply steps_refl].
  apply objects_get_Some in Hget as [Htid Hr].
  split; [cbn; lia|]. split; [done|]. right. exists id, r, (failed_row m (clock w) r).
  repeat split; try done. apply writes_failed; [constructor | done | cbn; lia].
Qed.

Lemma mark_transcription_completed_steps (K : write_kind → Prop) c w :
  K WCompleted →
  steps K (Consumer.transcription_id c) w (mark_transcription_completed c w).
Proof.
  intros HK. unfold mark_transcription_completed.
  destruct (objects_get _ _) as [[id r]|] eqn:Hget; [|apply steps_refl].
  apply objects_get_Some in Hget as [Htid Hr].
  split; [cbn; lia|]. split; [done|]. right.
  exists id, r, (completed_row (strip (Consumer.full_transcription c)) (clock w) r).
  repeat split; try done. apply writes_completed; [constructor | done | cbn; lia].
Qed.

Lemma update_transcription_steps (K : write_kind → Prop) text c w :
  K WAppended →
  steps K (Consumer.transcription_id c) w (update_transcription text true c w).
Proof.
  intros HK. unfold update_transcription.
  destruct (objects_get _ _) as [[id r]|] eqn:Hget; [|apply steps_refl].
  apply objects_get_Some in Hget as [Htid Hr].
  split; [cbn; lia|]. split; [done|]. right.
  exists id, r, (appended_row text (clock w) r).
  repeat split; try done. apply writes_appended; [constructor | done | cbn; lia].
Qed.

Lemma send_error_steps (K : write_kind → Prop) m st :
  K WFailed →
  steps K (Consumer.transcription_id (fst st)) (snd st) (snd (send_error m st)).
Proof.
  intros HK. destruct st as [c w]. unfold send_error.
  destruct (truthy_id _); cbn [fst snd]; [|apply send_steps].
  eapply steps_trans; [apply (send_steps _ _ (Error m))|].
  by apply mark_transcription_failed_steps.
Qed.

Section Steps.

Context (E : Env).

Lemma process_audio_buffer_steps (K : write_kind → Prop) st :
  K WFailed → K WAppended →
  steps K (Consumer.transcription_id (fst st)) (snd st)
    (snd (process_audio_buffer E st)).
Proof.
  intros HF HA. destruct st as [c w]. unfold process_audio_buffer, transcribe_audio.
  cbn [fst snd]. destruct (transcribe_audio_stream _ _ _ _) as [t|e|e].
  - cbn [snd]. eapply steps_trans; [apply set_calls_steps|].
    eapply steps_trans; [|apply send_steps].
    by apply (update_transcription_steps K t
                (Consumer.set_full_transcription _ (Consumer.set_audio_buffer [] c))).
  - eapply steps_trans; [apply set_calls_steps|].
    by apply (send_error_steps K _ (Consumer.set_audio_buffer [] c, _)).
  - eapply steps_trans; [apply set_calls_steps|].
    by apply (send_error_steps K _ (Consumer.set_audio_buffer [] c, _)).
Qed.

Lemma handle_audio_binary_steps (K : write_kind → Prop) b st :
  K WFailed → K WAppended →
  steps K (Consumer.transcription_id (fst st)) (snd st)
    (snd (handle_audio_binary E b st)).
Proof.
  intros HF HA. destruct st as [c w]. unfold handle_audio_binary.
  destruct (_ <=? _); [|apply steps_refl].
  by apply (process_audio_buffer_steps K
              (Consumer.set_audio_buffer (Consumer.audio_buffer c ++ b) c, w)).
Qed.

Lemma handle_audio_steps (K : write_kind → Prop) data st :
  K WFailed → K WAppended →
  steps K (Consumer.transcription_id (fst st)) (snd st)
    (snd (handle_audio E data st)).
Proof.
  intros HF HA. destruct st as [c w]. unfold handle_audio.
  destruct (b64decode E _) as [e|b].
  - by apply (send_error_steps K _ (c, w)).
  - by apply (handle_audio_binary_steps K b (c, w)).
Qed.

Lemma last_flush_steps (K : write_kind → Prop) st :
  K WFailed → K WAppended →
  steps K (Consumer.transcription_id (fst st)) (snd st) (snd (last_flush E st)).
Proof.
  intros HF HA. unfold last_flush. destruct (_ <? _); [|apply steps_refl].
  by apply process_audio_buffer_steps.
Qed.

Lemma handle_end_steps st :
  steps (fun _ => True) (Consumer.transcription_id (fst st)) (snd st)
    (snd (handle_end E st)).
Proof.
  rewrite handle_end_eq. cbn [snd].
  eapply steps_trans; [by apply last_flush_steps|].
  eapply steps_trans; [|apply send_steps].
  destruct (last_flush_attributes E st) as [<- _].
  by apply mark_transcription_completed_steps.
Qed.

(** Every frame but a [config] rewrites at most the session's row, and
    only an [end] completes it. *)
Lemma receive_steps f st :
  is_config (frame_kind_of E f) = false →
  steps (frame_writes (frame_kind_of E f)) (Consumer.transcription_id (fst st))
    (snd st) (snd (receive E f st)) ∧
  Consumer.transcription_id (fst (receive E f st)) = Consumer.transcription_id (fst st).
Proof.
  intros Hk. rewrite receive_by_kind.
  destruct (frame_kind_of E f) as [data|data| |mt| |v|b|]; try done; cbn [frame_writes].
  - split; [by apply handle_audio_steps|].
    destruct st as [c w]. unfold handle_audio. destruct (b64decode E _).
    + by rewrite send_error_fst.
    + unfold handle_audio_binary. destruct (_ <=? _); [|done].
      by rewrite process_audio_buffer_fst.
  - split; [apply handle_end_steps|].
    rewrite handle_end_eq. cbn [fst]. apply last_flush_attributes.
  - split; [by apply send_error_steps | by rewrite send_error_fst].
  - split; [by apply send_error_steps | by rewrite send_error_fst].
  - split; [by apply send_error_steps | by rewrite send_error_fst].
  - split; [by apply handle_audio_binary_steps|].
    destruct st as [c w]. unfold handle_audio_binary. destruct (_ <=? _); [|done].
    by rewrite process_audio_buffer_fst.
  - split; [apply steps_refl | done].
Qed.

End Steps.

(** An accepted [config] inserts [configured_row] under the next id. *)
Lemma config_done_step data st :
  let c' := Consumer.set_language_code
              (dict_get data "language_code" (JStr "hi-IN")) (fst st) in
  rows (snd (config_done data st)) =
    <[next_id (snd st) := configured_row c' (clock (snd st))]> (rows (snd st)) ∧
  clock (snd (config_done data st)) = (4 + clock (snd st))%nat ∧
  next_id (snd (config_done data st)) = S (next_id (snd st)) ∧
  Consumer.transcription_id (fst (config_done data st)) = Some (next_id (snd st)).
Proof.
  destruct st as [c w]. cbn zeta. split; [|done].
  unfold config_done, mark_as_processing, save, timezone_now.
  cbn. by rewrite insert_insert_eq.
Qed.

(** The error report of a refused [config] rewrites at most the session's
    row, as a failed one, and keeps the record id. *)
Lemma config_refused_steps (K : write_kind → Prop) m data st :
  K WFailed →
  steps K (Consumer.transcription_id (fst st)) (snd st)
    (snd (send_error m (config_failed data st))) ∧
  Consumer.transcription_id (fst (send_error m (config_failed data st))) =
    Consumer.transcription_id (fst st).
Proof.
  intros HK. split; [|by rewrite send_error_fst].
  destruct (config_failed_world data st) as (Hr & Hn & _ & _ & _ & _ & Hc).
  eapply steps_trans; [|by apply (send_error_steps K m (config_failed data st))].
  split; [lia|]. split; [done|]. by left.
Qed.

(** A frame is an accepted [config], or it creates no row and rewrites at
    most the session's, keeping the record id. *)
Lemma receive_cases E f st :
  (∃ data, frame_kind_of E f = KConfig data ∧ config_accepted E data st = true ∧
           receive E f st = config_done data st) ∨
  (steps (frame_writes (frame_kind_of E f)) (Consumer.transcription_id (fst st))
     (snd st) (snd (receive E f st)) ∧
   Consumer.transcription_id (fst (receive E f st)) =
     Consumer.transcription_id (fst st)).
Proof.
  destruct (is_config (frame_kind_of E f)) eqn:Hcfg; [|right; by apply receive_steps].
  destruct (frame_kind_of E f) as [data| | | | | | |] eqn:Hk; try done.
  destruct (config_accepted E data st) eqn:Ha.
  - left. exists data. by rewrite receive_by_kind, Hk, configure_accepted.
  - right. rewrite receive_by_kind, Hk, configure_refused by done.
    by apply config_refused_steps.
Qed.

(** ** What rewrites keep *)

Lemma writes_identity K lo hi r r' : writes K lo hi r r' → same_identity r r'.
Proof.
  induction 1 as [r|r r' text t _ IH|r r' m t _ IH|r r' text t _ IH];
    [by repeat split|..]; destruct IH as (?&?&?&?&?); by repeat split.
Qed.

Lemma writes_status K lo hi r r' :
  writes K lo hi r r' → ¬ K WCompleted →
  Transcription.status r' = completed → Transcription.status r = completed.
Proof.
  intros Hw HK. induction Hw as [r|r r' text t _ IH|r r' m t _ IH|r r' text t _ IH];
    [done|exact IH|done|done].
Qed.

Lemma writes_stamps K lo hi r r' :
  writes K lo hi r r' →
  Transcription.started_at r' = Transcription.started_at r ∧
  (Transcription.completed_at r' = Transcription.completed_at r ∨
   ∃ t, Transcription.completed_at r' = Some t ∧ (lo ≤ t < hi)%nat).
Proof.
  induction 1 as [r|r r' text t _ IH|r r' m t _ IH ? Ht|r r' text t _ IH ? Ht].
  - by split; [|left].
  - exact IH.
  - destruct IH as [Hs _]. split; [done|]. right. by exists t.
  - destruct IH as [Hs _]. split; [done|]. right. by exists t.
Qed.

Lemma writes_stamps_ok K lo hi r r' :
  (lo ≤ hi)%nat → stamps_ok lo r → writes K lo hi r r' → stamps_ok hi r'.
Proof.
  intros Hle [Hs Hsc] Hw. destruct (writes_stamps K lo hi r r' Hw) as [Hst Hc].
  split.
  - intros s. rewrite Hst. intros Hs'. apply Hs in Hs'. lia.
  - intros s c. rewrite Hst. intros Hs' Hc'. destruct Hc as [Hc|(t & Hc & Ht)].
    + rewrite Hc in Hc'. by apply (Hsc s c).
    + rewrite Hc in Hc'. injection Hc' as <-. apply Hs in Hs'. lia.
Qed.

Lemma stamps_ok_later lo hi r : (lo ≤ hi)%nat → stamps_ok lo r → stamps_ok hi r.
Proof. intros Hle Hr. apply (writes_stamps_ok (fun _ => True) lo hi r r); [done..|constructor]. Qed.

Lemma touches_lookup K lo hi tid m m' id r' :
  touches K lo hi tid m m' → m' !! id = Some r' →
  ∃ r, m !! id = Some r ∧ writes K lo hi r r'.
Proof.
  intros [->|(id0 & r0 & r0' & Htid & Hr0 & -> & Hw)] Hr'.
  - exists r'. split; [done | constructor].
  - destruct (decide (id0 = id)) as [->|Hne].
    + rewrite lookup_insert_eq in Hr'. injection Hr' as <-. by exists r0.
    + rewrite lookup_insert_ne in Hr' by done. exists r'. split; [done | constructor].
Qed.

Lemma touches_lookup_other K lo hi tid m m' id :
  touches K lo hi tid m m' → tid ≠ Some id → m' !! id = m !! id.
Proof.
  intros [->|(id0 & r0 & r0' & Htid & Hr0 & -> & Hw)] Hne; [done|].
  apply lookup_insert_ne. congruence.
Qed.

Lemma touches_lookup_forward K lo hi tid m m' id r :
  touches K lo hi tid m m' → m !! id = Some r →
  ∃ r', m' !! id = Some r' ∧ writes K lo hi r r'.
Proof.
  intros [->|(id0 & r0 & r0' & Htid & Hr0 & -> & Hw)] Hr.
  - exists r. split; [done | constructor].
  - destruct (decide (id0 = id)) as [->|Hne].
    + exists r0'. rewrite lookup_insert_eq. split; [done|]. congruence.
    + exists r. rewrite lookup_insert_ne by done. split; [done | constructor].
Qed.

(** ** Only Finalize completes a record *)

Section Completion.

Context (E : Env).

Lemma receive_not_end_completed f st id r' :
  is_end (frame_kind_of E f) = false →
  rows (snd (receive E f st)) !! id = Some r' →
  Transcription.status r' = completed →
  ∃ r, rows (snd st) !! id = Some r ∧ Transcription.status r = completed.
Proof.
  intros Hend Hr' Hst.
  destruct (receive_cases E f st) as [(data & Hk & Ha & Heq)|[(_ & _ & Ht) _]].
  - rewrite Heq in Hr'.
    destruct (config_done_step data st) as (Hrows & _). rewrite Hrows in Hr'.
    destruct (decide (next_id (snd st) = id)) as [<-|Hne].
    + rewrite lookup_insert_eq in Hr'. injection Hr' as <-. done.
    + rewrite lookup_insert_ne in Hr' by done. by exists r'.
  - destruct (touches_lookup _ _ _ _ _ _ id r' Ht Hr') as (r & Hr & Hw).
    exists r. split; [done|]. apply (writes_status _ _ _ r r' Hw); [|done].
    destruct (frame_kind_of E f); cbn; (done || by intros H; apply H).
Qed.

Lemma run_not_end_completed frames st id r' :
  Forall (fun f => is_end (frame_kind_of E f) = false) frames →
  rows (snd (run E frames st)) !! id = Some r' →
  Transcription.status r' = completed →
  ∃ r, rows (snd st) !! id = Some r ∧ Transcription.status r = completed.
Proof.
  revert st. induction frames as [|f frames IH]; intros st Hall Hr' Hst.
  - by exists r'.
  - apply Forall_cons in Hall as [Hf Hall].
    change (run E (f :: frames) st) with (run E frames (receive E f st)) in Hr'.
    destruct (IH _ Hall Hr' Hst) as (r1 & Hr1 & Hst1).
    by apply (receive_not_end_completed f st id r1).
Qed.

End Completion.

(** X1.  A session that ends without an [end] frame completes nothing: after
    any frames none of which is an [end], followed by the disconnect, every
    completed record was already completed before.  The disconnect itself
    drops the buffered audio: it makes no recognition call, sends nothing
    and leaves the table as it is. *)
Theorem only_end_completes_a_record
    (E : Env) (frames : list in_frame) (st : St) :
  Forall (fun f => is_end (frame_kind_of E f) = false) frames →
  let st1 := run E frames st in
  let st' := disconnect st1 in
  (∀ id r',
     rows (snd st') !! id = Some r' →
     Transcription.status r' = completed →
     ∃ r, rows (snd st) !! id = Some r ∧ Transcription.status r = completed) ∧
  snd st' = snd st1 ∧
  buffer_of st' = [] ∧
  Consumer.full_transcription (fst st') = Consumer.full_transcription (fst st1).
Proof.
  intros Hall. cbn zeta.
  assert (snd (disconnect (run E frames st)) = snd (run E frames st)) as Hsnd.
  { by destruct (run E frames st). }
  rewrite Hsnd. split; [|split; [done|]].
  - intros id r' Hr' Hst. by apply (run_not_end_completed E frames st id r').
  - by destruct (run E frames st).
Qed.

Lemma only_end_completes_a_record_witness :
  let frames := [Demo.binary_frame [Byte.x01]; Demo.text_frame "{"] in
  Forall (fun f => is_end (frame_kind_of Demo.env f) = false) frames ∧
  Transcription.status <$>
    rows (snd (disconnect (run Demo.env frames Demo.session1))) !! 1%nat
    ≠ Some completed.
Proof.
  cbn zeta.
  assert (Forall (fun f => is_end (frame_kind_of Demo.env f) = false)
            [Demo.binary_frame [Byte.x01]; Demo.text_frame "{"]) as Hall
    by (repeat constructor).
  split; [exact Hall|].
  destruct (only_end_completes_a_record Demo.env _ Demo.session1 Hall) as [Hc _].
  destruct (rows _ !! 1%nat) as [r'|] eqn:Hr'; [|done].
  cbn. intros [= Hst]. destruct (Hc 1%nat r' Hr' Hst) as (r & Hr & Hst0).
  vm_compute in Hr. injection Hr as <-. discriminate.
Defined.

(** ** A record keeps its identity *)

Lemma same_identity_trans r1 r2 r3 :
  same_identity r1 r2 → same_identity r2 r3 → same_identity r1 r3.
Proof.
  intros (?&?&?&?&?) (?&?&?&?&?). repeat split; congruence.
Qed.

Section Identity.

Context (E : Env).

Lemma receive_identity f st id r :
  store_ok (snd st) →
  rows (snd st) !! id = Some r →
  ∃ r', rows (snd (receive E f st)) !! id = Some r' ∧ same_identity r r'.
Proof.
  intros Hok Hr. destruct (receive_cases E f st) as [(data & Hk & Ha & Heq)|Hsteps].
  - rewrite Heq.
    destruct (config_done_step data st) as (Hrows & _). rewrite Hrows.
    exists r. split; [|by repeat split].
    rewrite lookup_insert_ne; [done|]. intros <-.
    pose proof (store_ok_fresh _ Hok). congruence.
  - destruct Hsteps as [(_ & _ & Ht) _].
    destruct (touches_lookup_forward _ _ _ _ _ _ id r Ht Hr) as (r' & Hr' & Hw).
    exists r'. split; [done|]. by apply writes_identity in Hw.
Qed.

Lemma run_identity frames st id r :
  store_ok (snd st) →
  rows (snd st) !! id = Some r →
  ∃ r', rows (snd (run E frames st)) !! id = Some r' ∧ same_identity r r'.
Proof.
  revert st r. induction frames as [|f frames IH]; intros st r Hok Hr.
  - exists r. split; [done | by repeat split].
  - change (run E (f :: frames) st) with (run E frames (receive E f st)).
    destruct (receive_identity f st id r Hok Hr) as (r1 & Hr1 & Hid1).
    destruct (receive_store_ok E f st Hok) as [Hok1 _].
    destruct (IH _ r1 Hok1 Hr1) as (r2 & Hr2 & Hid2).
    exists r2. split; [done|]. by apply (same_identity_trans r r1 r2).
Qed.

End Identity.

(** X2.  Whatever frames a session handles, a record keeps the columns that
    say whose it is and when it began: user, language code, session id,
    [created_at] and [started_at] are never rewritten. *)
Theorem record_identity_is_never_rewritten
    (E : Env) (frames : list in_frame) (st : St) (id : nat) (r : Transcription.t) :
  store_ok (snd st) →
  rows (snd st) !! id = Some r →
  ∃ r', rows (snd (run E frames st)) !! id = Some r' ∧ same_identity r r'.
Proof. apply run_identity. Qed.

Lemma record_identity_is_never_rewritten_witness :
  ∃ r', rows (snd (run Demo.env
                     [Demo.text_frame "{"; Demo.text_frame Demo.end_text]
                     Demo.session1)) !! 1%nat = Some r' ∧
        same_identity Demo.row1 r'.
Proof.
  apply (record_identity_is_never_rewritten Demo.env
           [Demo.text_frame "{"; Demo.text_frame Demo.end_text] Demo.session1
           1%nat Demo.row1 world1_ok eq_refl).
Defined.

(** ** Stamps stay in order *)

Section Stamps.

Context (E : Env).

Lemma receive_clock f st : (clock (snd st) ≤ clock (snd (receive E f st)))%nat.
Proof.
  destruct (receive_cases E f st) as [(data & Hk & Ha & Heq)|Hsteps].
  - rewrite Heq.
    destruct (config_done_step data st) as (_ & -> & _). lia.
  - by destruct Hsteps as [(Hc & _) _].
Qed.

Lemma receive_timely f st : timely (snd st) → timely (snd (receive E f st)).
Proof.
  intros Hst id r' Hr'. destruct (receive_cases E f st) as [(data & Hk & Ha & Heq)|Hsteps].
  - rewrite Heq in Hr' |- *.
    destruct (config_done_step data st) as (Hrows & Hclock & _).
    rewrite Hrows in Hr'. rewrite Hclock.
    destruct (decide (next_id (snd st) = id)) as [<-|Hne].
    + rewrite lookup_insert_eq in Hr'. injection Hr' as <-.
      split; cbn; [intros s [= <-]; lia | done].
    + rewrite lookup_insert_ne in Hr' by done.
      apply (stamps_ok_later (clock (snd st))); [lia | by apply (Hst id)].
  - destruct Hsteps as [(Hc & _ & Ht) _].
    destruct (touches_lookup _ _ _ _ _ _ id r' Ht Hr') as (r & Hr & Hw).
    exact (writes_stamps_ok _ _ _ r r' Hc (Hst id r Hr) Hw).
Qed.

Lemma run_timely frames st : timely (snd st) → timely (snd (run E frames st)).
Proof.
  revert st. induction frames as [|f frames IH]; intros st Hst; [done|].
  change (run E (f :: frames) st) with (run E frames (receive E f st)).
  by apply IH, receive_timely.
Qed.

End Stamps.

Lemma stamps_ok_processing_time now r d :
  stamps_ok now r → get_processing_time r = Some d → 0 ≤ d.
Proof.
  intros [_ Hsc]. unfold get_processing_time.
  destruct (Transcription.started_at r) as [s|]; [|done].
  destruct (Transcription.completed_at r) as [c|]; [|done].
  intros [= <-]. specialize (Hsc s c eq_refl eq_refl). lia.
Qed.

(** X3.  As long as the clock does not run backwards, the stamps of every
    record stay in order over any frames of a session: [started_at] is not
    in the future and [completed_at] is not before it.  So
    [get_processing_time] never returns a negative time, and it returns
    none exactly when one of the two stamps is missing. *)
Theorem processing_time_is_never_negative
    (E : Env) (frames : list in_frame) (st : St) :
  timely (snd st) →
  timely (snd (run E frames st)) ∧
  (∀ id r d,
     rows (snd (run E frames st)) !! id = Some r →
     get_processing_time r = Some d → 0 ≤ d) ∧
  (∀ r, get_processing_time r = None ↔
        Transcription.started_at r = None ∨ Transcription.completed_at r = None).
Proof.
  intros Hst. pose proof (run_timely E frames st Hst) as Hrun.
  split; [done|]. split.
  - intros id r d Hr.
    exact (stamps_ok_processing_time _ r d (Hrun id r Hr)).
  - intros r. unfold get_processing_time.
    destruct (Transcription.started_at r), (Transcription.completed_at r);
      (split; [try done; intros _; (by left) || (by right) | by intros [?|?]]).
Qed.

Lemma world1_timely : timely Demo.world1.
Proof.
  intros id r Hr.
  change (rows Demo.world1) with ({[1%nat := Demo.row1]} : gmap nat Transcription.t) in Hr.
  apply lookup_singleton_Some in Hr as [_ <-].
  split; cbn; [intros s [= <-]; lia | done].
Qed.

Lemma processing_time_is_never_negative_witness :
  timely (snd Demo.session1) ∧
  ∀ id r d,
    rows (snd (run Demo.env [Demo.text_frame Demo.end_text] Demo.session1)) !! id
      = Some r →
    get_processing_time r = Some d → 0 ≤ d.
Proof.
  split; [exact world1_timely|].
  apply (processing_time_is_never_negative Demo.env
           [Demo.text_frame Demo.end_text] Demo.session1 world1_timely).
Defined.

(** ** A session writes only its own records *)

Lemma connect_world E scope st :
  rows (snd (connect E scope st)) = rows (snd st) ∧
  next_id (snd (connect E scope st)) = next_id (snd st) ∧
  clock (snd (connect E scope st)) = clock (snd st) ∧
  calls (snd (connect E scope st)) = calls (snd st) ∧
  Consumer.transcription_id (fst (connect E scope st)) =
    Consumer.transcription_id (fst st) ∧
  Consumer.language_code (fst (connect E scope st)) = Consumer.language_code (fst st) ∧
  Consumer.full_transcription (fst (connect E scope st)) =
    Consumer.full_transcription (fst st).
Proof. destruct st as [c w]. unfold connect. by destruct (_ || _). Qed.

Section Isolation.

Context (E : Env).

Lemma receive_isolated n0 m0 f st :
  isolated n0 m0 st → isolated n0 m0 (receive E f st).
Proof.
  intros (Htid & Hn & Hrows). destruct (receive_cases E f st) as [(data & Hk & Ha & Heq)|Hsteps].
  - rewrite Heq.
    destruct (config_done_step data st) as (Hr & _ & Hnext & Ht).
    split; [|split].
    + intros id. rewrite Ht. intros [= <-]. done.
    + rewrite Hnext. lia.
    + intros id Hid. rewrite Hr, lookup_insert_ne by lia. by apply Hrows.
  - destruct Hsteps as [(_ & Hnext & Ht) Htid'].
    split; [|split].
    + intros id. rewrite Htid'. apply Htid.
    + by rewrite Hnext.
    + intros id Hid. rewrite <- (Hrows id Hid).
      apply (touches_lookup_other _ _ _ _ _ _ id Ht).
      intros Heq. apply Htid in Heq. lia.
Qed.

Lemma run_isolated n0 m0 frames st :
  isolated n0 m0 st → isolated n0 m0 (run E frames st).
Proof.
  revert st. induction frames as [|f frames IH]; intros st Hst; [done|].
  change (run E (f :: frames) st) with (run E frames (receive E f st)).
  by apply IH, receive_isolated.
Qed.

Lemma serve_isolated scope frames w :
  isolated (next_id w) (rows w) (serve E scope frames w).
Proof.
  assert (isolated (next_id w) (rows w) (Consumer.init, w)) as H0.
  { by split; [|split]. }
  unfold serve. destruct (JWTAuthMiddleware_call E scope) as [scope'|]; [|done].
  assert (isolated (next_id w) (rows w) (connect E scope' (Consumer.init, w))) as H1.
  { destruct (connect_world E scope' (Consumer.init, w)) as (Hr & Hn & _ & _ & Ht & _).
    split; [|split].
    - intros id. by rewrite Ht.
    - by rewrite Hn.
    - intros id _. by rewrite Hr. }
  destruct (conn _); try done. by apply run_isolated.
Qed.

End Isolation.

(** X4.  A connection never touches the records that were in the table
    when it was opened: whatever its credential and its frames, every such
    record is afterwards exactly what it was.  A session writes only the
    records it creates itself. *)
Theorem session_leaves_earlier_records_alone
    (E : Env) (scope : Scope) (frames : list in_frame) (w : World)
    (id : nat) (r : Transcription.t) :
  store_ok w →
  rows w !! id = Some r →
  rows (snd (serve E scope frames w)) !! id = Some r.
Proof.
  intros [_ Hok] Hr. destruct (serve_isolated E scope frames w) as (_ & _ & Hrows).
  rewrite Hrows; [done|]. apply Hok. by rewrite Hr.
Qed.

Lemma session_leaves_earlier_records_alone_witness :
  store_ok Demo.world1 ∧
  rows (snd (serve Demo.env Demo.good_scope
               [Demo.text_frame Demo.config_text; Demo.text_frame "{";
                Demo.text_frame Demo.end_text] Demo.world1)) !! 1%nat =
    Some Demo.row1.
Proof.
  split; [exact world1_ok|].
  apply (session_leaves_earlier_records_alone Demo.env Demo.good_scope _
           Demo.world1 1%nat Demo.row1 world1_ok eq_refl).
Defined.

(** ** Audio before any [config] *)

Section Unconfigured.

Context (E : Env).

Lemma process_audio_buffer_new_calls st :
  ∃ new,
    calls (snd (process_audio_buffer E st)) = calls (snd st) ++ new ∧
    Forall (fun c => call_language c = Consumer.language_code (fst st)) new.
Proof.
  eexists. rewrite process_audio_buffer_calls. split; [reflexivity|].
  by repeat constructor.
Qed.

(** The calls a frame makes carry the language the session had. *)
Lemma receive_new_calls f st :
  ∃ new,
    calls (snd (receive E f st)) = calls (snd st) ++ new ∧
    Forall (fun c => call_language c = Consumer.language_code (fst st)) new.
Proof.
  assert (∀ X : list gateway_call, X = calls (snd st) →
          ∃ new, X = calls (snd st) ++ new ∧
                 Forall (fun c => call_language c =
                                  Consumer.language_code (fst st)) new) as Hsame.
  { intros X ->. exists []. by rewrite app_nil_r. }
  rewrite receive_by_kind.
  destruct (frame_kind_of E f) as [data|data| |mt| |v|b|].
  - apply Hsame, configure_calls.
  - destruct st as [c w]. unfold handle_audio. destruct (b64decode E _) as [e|b].
    + apply Hsame, send_error_calls.
    + unfold handle_audio_binary. destruct (_ <=? _); [|by apply Hsame].
      apply (process_audio_buffer_new_calls
               (Consumer.set_audio_buffer (Consumer.audio_buffer c ++ b) c, w)).
  - rewrite handle_end_eq. cbn [snd]. change (calls (send ?f ?w)) with (calls w).
    destruct (mark_transcription_completed_wire (fst (last_flush E st))
                (snd (last_flush E st))) as (_ & -> & _).
    unfold last_flush. destruct (_ <? _); [|by apply Hsame].
    apply process_audio_buffer_new_calls.
  - apply Hsame, send_error_calls.
  - apply Hsame, send_error_calls.
  - apply Hsame, send_error_calls.
  - destruct st as [c w]. unfold handle_audio_binary.
    destruct (_ <=? _); [|by apply Hsame].
    apply (process_audio_buffer_new_calls
             (Consumer.set_audio_buffer (Consumer.audio_buffer c ++ b) c, w)).
  - by apply Hsame.
Qed.

Lemma receive_language f st :
  is_config (frame_kind_of E f) = false →
  Consumer.language_code (fst (receive E f st)) = Consumer.language_code (fst st).
Proof.
  intros Hcfg. rewrite receive_by_kind.
  destruct (frame_kind_of E f) as [data|data| |mt| |v|b|]; try done;
    rewrite ?send_error_fst; try done.
  - destruct st as [c w]. unfold handle_audio. destruct (b64decode E _) as [e|b].
    + by rewrite send_error_fst.
    + unfold handle_audio_binary. destruct (_ <=? _); [|done].
      by rewrite process_audio_buffer_fst.
  - rewrite handle_end_eq. cbn [fst]. apply last_flush_attributes.
  - destruct st as [c w]. unfold handle_audio_binary. destruct (_ <=? _); [|done].
    by rewrite process_audio_buffer_fst.
Qed.

Lemma receive_unconfigured m0 n0 f st :
  is_config (frame_kind_of E f) = false →
  unconfigured m0 n0 st → unconfigured m0 n0 (receive E f st).
Proof.
  intros Hcfg (Htid & Hlang & Hrows & Hnext & Hcalls).
  destruct (receive_steps E f st Hcfg) as [(_ & Hn & Ht) Htid'].
  destruct (receive_new_calls f st) as (new & Hnew & Hall).
  split; [congruence|]. split; [by rewrite receive_language|].
  split; [|split; [congruence|]].
  - destruct Ht as [->|(id & _ & _ & Hsome & _)]; [done | congruence].
  - rewrite Hnew. apply Forall_app. split; [done|]. by rewrite Hlang in Hall.
Qed.

Lemma run_unconfigured m0 n0 frames st :
  Forall (fun f => is_config (frame_kind_of E f) = false) frames →
  unconfigured m0 n0 st → unconfigured m0 n0 (run E frames st).
Proof.
  revert st. induction frames as [|f frames IH]; intros st Hall Hst; [done|].
  apply Forall_cons in Hall as [Hf Hall].
  change (run E (f :: frames) st) with (run E frames (receive E f st)).
  by apply IH, receive_unconfigured.
Qed.

End Unconfigured.

(** X5.  A session that is sent audio, [end] or anything else, but no
    [config], never has a record: its record id stays unset, the table is
    never written, and every recognition call it makes carries the default
    language [hi-IN]. *)
Theorem session_without_config_has_no_record
    (E : Env) (scope : Scope) (frames : list in_frame)
    (tbl : gmap nat Transcription.t) (next : nat) (now : time) (seed : nat) :
  Forall (fun f => is_config (frame_kind_of E f) = false) frames →
  let st := serve E scope frames (new_connection tbl next now seed) in
  Consumer.transcription_id (fst st) = None ∧
  Consumer.language_code (fst st) = JStr "hi-IN" ∧
  rows (snd st) = tbl ∧
  next_id (snd st) = next ∧
  Forall (fun c => call_language c = JStr "hi-IN") (calls (snd st)).
Proof.
  intros Hall. cbn zeta.
  assert (unconfigured tbl next (Consumer.init, new_connection tbl next now seed)) as H0.
  { by repeat split. }
  unfold serve. destruct (JWTAuthMiddleware_call E scope) as [scope'|]; [|done].
  assert (unconfigured tbl next
            (connect E scope' (Consumer.init, new_connection tbl next now seed))) as H1.
  { destruct (connect_world E scope' (Consumer.init, new_connection tbl next now seed))
      as (Hr & Hn & _ & Hc & Ht & Hl & _).
    split; [by rewrite Ht|]. split; [by rewrite Hl|].
    split; [by rewrite Hr|]. split; [by rewrite Hn|]. by rewrite Hc. }
  destruct (conn _); try done. by apply run_unconfigured.
Qed.

Lemma session_without_config_has_no_record_witness :
  let frames := [Demo.binary_frame Demo.second_of_audio; Demo.text_frame Demo.end_text] in
  Forall (fun f => is_config (frame_kind_of Demo.env f) = false) frames ∧
  rows (snd (serve Demo.env Demo.good_scope frames Demo.world0)) = ∅ ∧
  call_language <$> calls (snd (serve Demo.env Demo.good_scope frames Demo.world0)) =
    [JStr "hi-IN"].
Proof.
  cbn zeta.
  assert (Forall (fun f => is_config (frame_kind_of Demo.env f) = false)
            [Demo.binary_frame Demo.second_of_audio; Demo.text_frame Demo.end_text])
    as Hall.
  { repeat constructor. }
  split; [exact Hall|]. split.
  - apply (session_without_config_has_no_record Demo.env Demo.good_scope _
             ∅ 1%nat 100%nat 0%nat Hall).
  - vm_compute. reflexivity.
Defined.

(** ** The accumulated text only grows *)

Section Accumulated.

Context (E : Env).

Lemma process_audio_buffer_text st :
  ∃ suffix,
    Consumer.full_transcription (fst (process_audio_buffer E st)) =
    Consumer.full_transcription (fst st) +:+ suffix.
Proof.
  rewrite process_audio_buffer_fst. cbn.
  destruct (flush_result E st) as [t|e|e]; cbn.
  - by eexists.
  - exists "". by rewrite append_nil_r.
  - exists "". by rewrite append_nil_r.
Qed.

Lemma receive_text f st :
  ∃ suffix,
    Consumer.full_transcription (fst (receive E f st)) =
    Consumer.full_transcription (fst st) +:+ suffix.
Proof.
  assert (∀ c : Consumer.t,
            Consumer.full_transcription c = Consumer.full_transcription (fst st) →
            ∃ suffix, Consumer.full_transcription c =
                      Consumer.full_transcription (fst st) +:+ suffix) as Hsame.
  { intros c ->. exists "". by rewrite append_nil_r. }
  rewrite receive_by_kind.
  destruct (frame_kind_of E f) as [data|data| |mt| |v|b|];
    try (apply Hsame; by rewrite ?send_error_fst);
    try (apply Hsame; by destruct (configure_fst E data st) as (_ & _ & _ & _ & ?)).
  - destruct st as [c w]. unfold handle_audio. destruct (b64decode E _) as [e|b].
    + apply Hsame. by rewrite send_error_fst.
    + unfold handle_audio_binary. destruct (_ <=? _); [|by apply Hsame].
      apply (process_audio_buffer_text
               (Consumer.set_audio_buffer (Consumer.audio_buffer c ++ b) c, w)).
  - rewrite handle_end_eq. cbn [fst]. unfold last_flush.
    destruct (_ <? _); [apply process_audio_buffer_text | by apply Hsame].
  - destruct st as [c w]. unfold handle_audio_binary.
    destruct (_ <=? _); [|by apply Hsame].
    apply (process_audio_buffer_text
             (Consumer.set_audio_buffer (Consumer.audio_buffer c ++ b) c, w)).
Qed.

End Accumulated.

(** X6.  The accumulated text of a session is append-only: after any
    frames -- audio, [config], [end], malformed or unknown ones, failed
    recognitions -- it is the text it was, followed by what was recognised
    since.  Nothing resets or trims it, not even an [end] or a second
    [config]. *)
Theorem accumulated_text_is_append_only
    (E : Env) (frames : list in_frame) (st : St) :
  ∃ suffix,
    Consumer.full_transcription (fst (run E frames st)) =
    Consumer.full_transcription (fst st) +:+ suffix.
Proof.
  revert st. induction frames as [|f frames IH]; intros st.
  - exists "". by rewrite append_nil_r.
  - change (run E (f :: frames) st) with (run E frames (receive E f st)).
    destruct (IH (receive E f st)) as (s2 & ->).
    destruct (receive_text E f st) as (s1 & ->).
    exists (s1 +:+ s2). by rewrite append_assoc.
Qed.

(** ** Every frame is answered or buffered *)

Section Answered.

Context (E : Env).


End Answered.


(** ** [end], twice *)

(** X8.  Finalize is not guarded by a state: a second [end] right after
    the first makes no recognition call, leaves the consumer's attributes
    as they are and sends the very same final frame again. *)
Theorem second_end_repeats_the_final_frame (E : Env) (st : St) :
  let st1 := handle_end E st in
  let st2 := handle_end E st1 in
  fst st2 = fst st1 ∧
  calls (snd st2) = calls (snd st1) ∧
  ∃ final,
    last (sent (snd st1)) = Some final ∧
    sent (snd st2) = sent (snd st1) ++ [final] ∧
    final = Final (strip (Consumer.full_transcription (fst st1)))
              (Consumer.transcription_id (fst st)) (Consumer.language_code (fst st)).
Proof.
  cbn zeta.
  assert (last_flush E (handle_end E st) = handle_end E st) as Hidle.
  { destruct (last_flush_cases E (handle_end E st)) as [[_ ->]|[Hne _]]; [done|].
    by rewrite handle_end_buffer in Hne. }
  assert (∀ s, sent (snd (handle_end E s)) =
               sent (snd (last_flush E s)) ++
                 [Final (strip (Consumer.full_transcription (fst (handle_end E s))))
                    (Consumer.transcription_id (fst s))
                    (Consumer.language_code (fst s))] ∧
               calls (snd (handle_end E s)) = calls (snd (last_flush E s)) ∧
               fst (handle_end E s) = fst (last_flush E s)) as Hend.
  { intros s. rewrite handle_end_eq. cbn [fst snd].
    destruct (last_flush_attributes E s) as [-> ->].
    destruct (mark_transcription_completed_wire (fst (last_flush E s))
                (snd (last_flush E s))) as (Hs & Hc & _).
    unfold send. cbn [sent calls set_sent]. by rewrite Hs, Hc. }
  destruct (Hend st) as (Hs1 & _ & Hf1).
  destruct (Hend (handle_end E st)) as (Hs2 & Hc2 & Hf2).
  rewrite Hidle in Hs2, Hc2, Hf2.
  destruct (last_flush_attributes E st) as [Htid Hlang].
  split; [done|]. split; [done|]. eexists. split; [|split; [|reflexivity]].
  - rewrite Hs1. apply last_snoc.
  - rewrite Hs2, Hf2, Hf1, <- Htid, <- Hlang. by rewrite <- Hf1.
Qed.

(** ** Who is let in *)

Lemma get_user_from_token_found B token id username :
  WebsocketAuth.get_user_from_token B token = AuthUser id username ↔
  ∃ payload user_id,
    AccessToken B token = TokenPayload payload ∧
    assoc "user_id" payload = Some user_id ∧
    User_objects_get B user_id = UserFound id username.
Proof.
  unfold WebsocketAuth.get_user_from_token. split.
  - destruct (AccessToken B token) as [m|m|payload]; [done..|].
    destruct (assoc "user_id" payload) as [user_id|] eqn:Ha; [|done].
    destruct (User_objects_get B user_id) as [id' username'| |] eqn:Hu; [|done..].
    intros [= <- <-]. exists payload, user_id. by repeat split.
  - intros (payload & user_id & -> & -> & ->). done.
Qed.

Section Admission.

Context (E : Env).

Lemma receive_sent_grows f st :
  ∃ new, sent (snd (receive E f st)) = sent (snd st) ++ new.
Proof.
  destruct (receive_ends E f st) as [(m & mid & -> & _ & _ & _ & Hs)|(new & Hn & _)].
  - exists [Error m]. by rewrite send_error_sent, Hs.
  - by exists new.
Qed.

Lemma run_sent_grows frames st :
  ∃ new, sent (snd (run E frames st)) = sent (snd st) ++ new.
Proof.
  revert st. induction frames as [|f frames IH]; intros st.
  - exists []. by rewrite app_nil_r.
  - change (run E (f :: frames) st) with (run E frames (receive E f st)).
    destruct (IH (receive E f st)) as (n2 & ->).
    destruct (receive_sent_grows f st) as (n1 & ->).
    exists (n1 ++ n2). by rewrite app_assoc.
Qed.

Lemma process_audio_buffer_who st :
  Consumer.user (fst (process_audio_buffer E st)) = Consumer.user (fst st) ∧
  Consumer.session_id (fst (process_audio_buffer E st)) = Consumer.session_id (fst st).
Proof. by rewrite process_audio_buffer_fst. Qed.

Lemma receive_who f st :
  Consumer.user (fst (receive E f st)) = Consumer.user (fst st) ∧
  Consumer.session_id (fst (receive E f st)) = Consumer.session_id (fst st).
Proof.
  rewrite receive_by_kind.
  destruct (frame_kind_of E f) as [data|data| |mt| |v|b|];
    rewrite ?send_error_fst; try done.
  - by destruct (configure_fst E data st) as (? & ? & _).
  - destruct st as [c w]. unfold handle_audio. destruct (b64decode E _) as [e|b].
    + by rewrite send_error_fst.
    + unfold handle_audio_binary. destruct (_ <=? _); [|done].
      apply (process_audio_buffer_who
               (Consumer.set_audio_buffer (Consumer.audio_buffer c ++ b) c, w)).
  - rewrite handle_end_eq. cbn [fst]. unfold last_flush.
    destruct (_ <? _); [apply process_audio_buffer_who | done].
  - destruct st as [c w]. unfold handle_audio_binary. destruct (_ <=? _); [|done].
    apply (process_audio_buffer_who
             (Consumer.set_audio_buffer (Consumer.audio_buffer c ++ b) c, w)).
Qed.

Lemma run_who frames st :
  Consumer.user (fst (run E frames st)) = Consumer.user (fst st) ∧
  Consumer.session_id (fst (run E frames st)) = Consumer.session_id (fst st).
Proof.
  revert st. induction frames as [|f frames IH]; intros st; [done|].
  change (run E (f :: frames) st) with (run E frames (receive E f st)).
  destruct (IH (receive E f st)) as [-> ->]. apply receive_who.
Qed.

End Admission.

Lemma truthy_str_Some token t : truthy_str (Some token) = Some t ↔ token ≠ "" ∧ t = token.
Proof. destruct token; cbn; split; (intros [= <-] || intros [? ->]); done. Qed.

Lemma resolved_user_valid B E scope id username :
  resolved_user B E scope = AuthUser id username ↔ valid_credential B E scope id username.
Proof.
  unfold resolved_user, valid_credential. split.
  - destruct (query_token E scope) as [[token|]|]; [|done..].
    destruct (truthy_str (Some token)) as [t|] eqn:Ht; [|done].
    apply truthy_str_Some in Ht as [Hne ->].
    intros (payload & user_id & ? & ? & ?)%get_user_from_token_found.
    by exists token, payload, user_id.
  - intros (token & payload & user_id & -> & Hne & Hp & Ha & Hu).
    assert (truthy_str (Some token) = Some token) as -> by (by apply truthy_str_Some).
    apply get_user_from_token_found. by exists payload, user_id.
Qed.

Lemma middleware_resolves B E scope :
  JWTAuthMiddleware_call (with_auth B E) scope =
  match query_token E scope with
  | Some _ =>
      Some {| query_string := query_string scope;
              scope_user := Some (resolved_user B E scope) |}
  | None => None
  end.
Proof.
  unfold JWTAuthMiddleware_call, resolved_user.
  change (query_token (with_auth B E) scope) with (query_token E scope).
  by destruct (query_token E scope).
Qed.

(** X9.  A connection is accepted exactly when its query string carries a
    non-empty token that verifies, whose payload names a user id, and that
    user exists; any exception in the resolver counts as no user.  An
    accepted connection belongs to that user, gets a session id, and the
    first frame it is sent is [connected] with that id. *)
Theorem connection_is_accepted_exactly_for_a_valid_token
    (B : AuthBackend) (E : Env) (scope : Scope) (frames : list in_frame)
    (tbl : gmap nat Transcription.t) (next : nat) (now : time) (seed : nat) :
  let st := serve (with_auth B E) scope frames (new_connection tbl next now seed) in
  (conn (snd st) = Accepted ↔ ∃ id username, valid_credential B E scope id username) ∧
  (∀ id username,
     valid_credential B E scope id username →
     Consumer.user (fst st) = Some (AuthUser id username) ∧
     Consumer.session_id (fst st) = Some (uuid4 E seed) ∧
     head (sent (snd st)) =
       Some (Connected (uuid4 E seed) "Connected to transcription service")).
Proof.
  cbn zeta. unfold serve. rewrite middleware_resolves.
  destruct (query_token E scope) as [token|] eqn:Htok.
  - destruct (resolved_user B E scope) as [|id username] eqn:Hres.
    + (* no user: closed *)
      cbn. split; [split; [done|]|].
      * intros (id & username & Hv). apply resolved_user_valid in Hv. congruence.
      * intros id username Hv. apply resolved_user_valid in Hv. congruence.
    + (* a user: accepted *)
      set (st0 := connect (with_auth B E)
                    {| query_string := query_string scope;
                       scope_user := Some (AuthUser id username) |}
                    (Consumer.init, new_connection tbl next now seed)).
      assert (conn (snd st0) = Accepted) as Hconn by done.
      rewrite Hconn.
      split.
      * rewrite run_conn. split; [|done]. intros _. exists id, username.
        by apply resolved_user_valid.
      * intros id' username' Hv. apply resolved_user_valid in Hv.
        rewrite Hres in Hv. injection Hv as <- <-.
        destruct (run_who (with_auth B E) frames st0) as [-> ->].
        destruct (run_sent_grows (with_auth B E) frames st0) as (new & ->).
        done.
  - cbn. split; [split; [done|]|].
    + intros (id & username & token & payload & user_id & Hq & _). congruence.
    + intros id username (token & payload & user_id & Hq & _). congruence.
Qed.

(** ** The recognition service behind the relay *)

(** With fixed settings the instance [get_sarvam_service] hands out is the
    one [__init__] builds from them, with or without [DEBUG]. *)
Lemma get_sarvam_service_instance settings global :
  global = None ∨ global = Some (Sarvam.init settings) →
  Sarvam.get_sarvam_service settings global =
    (Sarvam.init settings, Some (Sarvam.init settings)).
Proof.
  unfold Sarvam.get_sarvam_service. intros [->| ->]; by destruct (DEBUG settings).
Qed.

Lemma sarvam_unavailable settings N n audio_data language_code model_ :
  truthy_str (SARVAM_AI_API_KEY settings) = None →
  Sarvam.transcribe_audio_stream (Sarvam.init settings) N n audio_data
    language_code model_ = Sarvam.Raise Sarvam.not_available.
Proof.
  intros Hkey. unfold Sarvam.transcribe_audio_stream, Sarvam.is_available.
  cbn. by rewrite Hkey.
Qed.

Lemma sarvam_available settings N n audio_data language_code key :
  truthy_str (SARVAM_AI_API_KEY settings) = Some key →
  Sarvam.transcribe_audio_stream (Sarvam.init settings) N n audio_data
    language_code None =
  match Sarvam.post N n
          (Sarvam.stream_request (Sarvam.init settings) N audio_data language_code
             (SARVAM_AI_MODEL settings)) with
  | Sarvam.HttpBody (JObj fields) =>
      Sarvam.Success (dict_get fields "transcript" (JStr "")) language_code
        (SARVAM_AI_MODEL settings) (len audio_data)
  | Sarvam.HttpBody v =>
      Sarvam.Failure ("'" +:+ type_name v +:+ "' object has no attribute 'get'")
        language_code (SARVAM_AI_MODEL settings)
  | Sarvam.HttpFailed e =>
      Sarvam.Failure e language_code (SARVAM_AI_MODEL settings)
  end.
Proof.
  intros Hkey. unfold Sarvam.transcribe_audio_stream, Sarvam.is_available.
  cbn. by rewrite Hkey.
Qed.

Section Calls.

Context (E : Env).

Lemma process_audio_buffer_flushes st :
  Forall (is_flush E) (calls (snd st)) →
  Forall (is_flush E) (calls (snd (process_audio_buffer E st))).
Proof.
  intros Hst. rewrite process_audio_buffer_calls. apply Forall_app.
  split; [done|]. repeat constructor. by eexists.
Qed.

Lemma receive_flushes f st :
  Forall (is_flush E) (calls (snd st)) → Forall (is_flush E) (calls (snd (receive E f st))).
Proof.
  intros Hst. rewrite receive_by_kind.
  destruct (frame_kind_of E f) as [data|data| |mt| |v|b|];
    rewrite ?send_error_calls, ?configure_calls; try done.
  - destruct st as [c w]. unfold handle_audio. destruct (b64decode E _) as [e|b].
    + by rewrite send_error_calls.
    + unfold handle_audio_binary. destruct (_ <=? _); [|done].
      by apply (process_audio_buffer_flushes
                  (Consumer.set_audio_buffer (Consumer.audio_buffer c ++ b) c, w)).
  - rewrite handle_end_eq. cbn [snd]. change (calls (send ?f ?w)) with (calls w).
    destruct (mark_transcription_completed_wire (fst (last_flush E st))
                (snd (last_flush E st))) as (_ & -> & _).
    unfold last_flush. destruct (_ <? _); [|done].
    by apply process_audio_buffer_flushes.
  - destruct st as [c w]. unfold handle_audio_binary. destruct (_ <=? _); [|done].
    by apply (process_audio_buffer_flushes
                (Consumer.set_audio_buffer (Consumer.audio_buffer c ++ b) c, w)).
Qed.

Lemma run_flushes frames st :
  Forall (is_flush E) (calls (snd st)) → Forall (is_flush E) (calls (snd (run E frames st))).
Proof.
  revert st. induction frames as [|f frames IH]; intros st Hst; [done|].
  change (run E (f :: frames) st) with (run E frames (receive E f st)).
  by apply IH, receive_flushes.
Qed.

Lemma serve_flushes scope frames tbl next now seed :
  Forall (is_flush E) (calls (snd (serve E scope frames (new_connection tbl next now seed)))).
Proof.
  unfold serve. destruct (JWTAuthMiddleware_call E scope) as [scope'|];
    [|by constructor].
  assert (Forall (is_flush E)
            (calls (snd (connect E scope'
                           (Consumer.init, new_connection tbl next now seed))))) as H1.
  { destruct (connect_world E scope' (Consumer.init, new_connection tbl next now seed))
      as (_ & _ & _ & -> & _). constructor. }
  destruct (conn _); try done. by apply run_flushes.
Qed.

End Calls.

Lemma recognised_none m cs :
  Forall (fun c => call_result c = GwRaise m) cs → recognised cs = [].
Proof.
  induction 1 as [|c cs Hc _ IH]; [done|].
  unfold recognised in *. cbn. by rewrite Hc.
Qed.

(** X10.  Without an API key (unset or empty) nothing is ever recognised:
    in every session each recognition call raises the service's
    not-available error, no partial result is sent and the accumulated text
    stays empty; each flush sends the error frame
    [Processing error: SarvamAI service is not available. ...]. *)
Theorem missing_api_key_fails_every_flush
    (settings : Settings) (N : Sarvam.Net) (E : Env) (scope : Scope)
    (frames : list in_frame) (tbl : gmap nat Transcription.t) (next : nat)
    (now : time) (seed : nat) (st0 : St) :
  truthy_str (SARVAM_AI_API_KEY settings) = None →
  let E' := with_sarvam settings N E in
  let st := serve E' scope frames (new_connection tbl next now seed) in
  Forall (fun c => call_result c = GwRaise Sarvam.not_available) (calls (snd st)) ∧
  transcriptions (sent (snd st)) = [] ∧
  Consumer.full_transcription (fst st) = "" ∧
  sent (snd (process_audio_buffer E' st0)) =
    sent (snd st0) ++ [Error ("Processing error: " +:+ Sarvam.not_available)].
Proof.
  intros Hkey. cbn zeta.
  assert (∀ n a l, transcribe_audio_stream (with_sarvam settings N E) n a l =
                   GwRaise Sarvam.not_available) as Hraise.
  { intros n a l. cbn. by rewrite sarvam_unavailable. }
  assert (Forall (fun c => call_result c = GwRaise Sarvam.not_available)
            (calls (snd (serve (with_sarvam settings N E) scope frames
                           (new_connection tbl next now seed))))) as Hcalls.
  { eapply Forall_impl; [apply serve_flushes|].
    intros c [n ->]. apply Hraise. }
  destruct (ordered_serve (with_sarvam settings N E) scope frames tbl next now seed)
    as [H1 H2 _].
  rewrite (recognised_none _ _ Hcalls) in H1, H2.
  split; [done|]. split; [by apply fmap_nil_inv in H1|]. split; [done|].
  rewrite process_audio_buffer_sent. unfold flush_result, flush_call. cbn [call_result].
  by rewrite Hraise.
Qed.

Lemma missing_api_key_fails_every_flush_witness :
  truthy_str (SARVAM_AI_API_KEY DemoSarvam.without_key) = None ∧
  transcriptions
    (sent (snd (serve (with_sarvam DemoSarvam.without_key DemoSarvam.net Demo.env)
                  Demo.good_scope
                  [Demo.binary_frame Demo.second_of_audio; Demo.text_frame Demo.end_text]
                  Demo.world0))) = [].
Proof.
  split; [reflexivity|].
  apply (missing_api_key_fails_every_flush DemoSarvam.without_key DemoSarvam.net
           Demo.env Demo.good_scope
           [Demo.binary_frame Demo.second_of_audio; Demo.text_frame Demo.end_text]
           ∅ 1%nat 100%nat 0%nat Demo.session1 eq_refl).
Defined.

(** X11.  With an API key the service itself never raises, and what the
    HTTP round trip of a flush comes to reaches the client as follows: a
    failed request (connection error, error status, undecodable body) is
    answered with [Transcription error: ] and the exception's text, and the
    accumulated text is kept; a body with a [transcript] string is relayed
    as a partial result; a body without [transcript] counts as an empty
    transcript, relayed as a partial result whose full text is the one
    before. *)
Theorem http_outcome_reaches_the_client
    (settings : Settings) (N : Sarvam.Net) (E : Env) (st : St) (key : string) :
  truthy_str (SARVAM_AI_API_KEY settings) = Some key →
  let E' := with_sarvam settings N E in
  let full := Consumer.full_transcription (fst st) in
  let outcome :=
    Sarvam.post N (length (calls (snd st)))
      (Sarvam.stream_request (Sarvam.init settings) N (buffer_of st)
         (Consumer.language_code (fst st)) (SARVAM_AI_MODEL settings)) in
  let st' := process_audio_buffer E' st in
  (∀ n a l m,
     Sarvam.transcribe_audio_stream (Sarvam.init settings) N n a l None
       ≠ Sarvam.Raise m) ∧
  (∀ e, outcome = Sarvam.HttpFailed e →
        sent (snd st') = sent (snd st) ++ [Error ("Transcription error: " +:+ e)] ∧
        Consumer.full_transcription (fst st') = full) ∧
  (∀ fields t,
     outcome = Sarvam.HttpBody (JObj fields) →
     assoc "transcript" fields = Some (JStr t) →
     sent (snd st') =
       sent (snd st) ++ [TranscriptionFrame t (strip (full +:+ (t +:+ " "))) false]) ∧
  (∀ fields,
     outcome = Sarvam.HttpBody (JObj fields) →
     assoc "transcript" fields = None →
     sent (snd st') = sent (snd st) ++ [TranscriptionFrame "" (strip full) false]).
Proof.
  intros Hkey. cbn zeta.
  assert (flush_result (with_sarvam settings N E) st =
          to_gateway
            (Sarvam.transcribe_audio_stream (Sarvam.init settings) N
               (length (calls (snd st))) (buffer_of st)
               (Consumer.language_code (fst st)) None)) as Hres by done.
  rewrite (sarvam_available settings N _ _ _ key Hkey) in Hres.
  split; [|split; [|split]].
  - intros n a l m. rewrite (sarvam_available settings N n a l key Hkey).
    destruct (Sarvam.post N n _) as [e|[]]; discriminate.
  - intros e He. rewrite He in Hres.
    rewrite process_audio_buffer_sent, process_audio_buffer_fst, Hres. done.
  - intros fields t Hout Ht. rewrite Hout in Hres. unfold dict_get in Hres.
    rewrite Ht in Hres. rewrite process_audio_buffer_sent, Hres. done.
  - intros fields Hout Ht. rewrite Hout in Hres. unfold dict_get in Hres.
    rewrite Ht in Hres. rewrite process_audio_buffer_sent, Hres.
    rewrite <- (strip_append_space (Consumer.full_transcription (fst st))).
    reflexivity.
Qed.

Lemma http_outcome_reaches_the_client_witness :
  truthy_str (SARVAM_AI_API_KEY DemoSarvam.with_key) = Some "sk-demo" ∧
  sent (snd (process_audio_buffer
               (with_sarvam DemoSarvam.with_key DemoSarvam.net Demo.env)
               (Consumer.set_audio_buffer [Byte.x01] Demo.consumer1, Demo.world1))) =
    [TranscriptionFrame "vanakkam" "vanakkam" false].
Proof.
  split; [reflexivity|].
  destruct (http_outcome_reaches_the_client DemoSarvam.with_key DemoSarvam.net Demo.env
              (Consumer.set_audio_buffer [Byte.x01] Demo.consumer1, Demo.world1)
              "sk-demo" eq_refl) as (_ & _ & Hok & _).
  apply (Hok [("transcript", JStr "vanakkam")] "vanakkam"); reflexivity.
Defined.

(** X12.  [convert_to_wav] leaves audio that starts with [RIFF] as it is
    and never fails: when the [wave] writer raises, the original bytes are
    sent.  If what the writer produces starts with [RIFF], converting is
    idempotent: audio that went through it once is not wrapped again. *)
Theorem convert_to_wav_is_idempotent (N : Sarvam.Net) (audio_data : bytes) :
  (∀ frames wav, Sarvam.wave_write N 1 2 16000 frames = inr wav →
                 take 4 wav = Sarvam.RIFF) →
  Sarvam.convert_to_wav N (Sarvam.convert_to_wav N audio_data) =
    Sarvam.convert_to_wav N audio_data ∧
  (take 4 audio_data = Sarvam.RIFF → Sarvam.convert_to_wav N audio_data = audio_data) ∧
  (take 4 (Sarvam.convert_to_wav N audio_data) = Sarvam.RIFF ∨
   (∃ e, Sarvam.wave_write N 1 2 16000 audio_data = inl e) ∧
   Sarvam.convert_to_wav N audio_data = audio_data).
Proof.
  intros Hw. unfold Sarvam.convert_to_wav.
  destruct (bool_decide_reflect (take 4 audio_data = Sarvam.RIFF)) as [Hriff|Hno].
  - rewrite bool_decide_eq_true_2 by done. split; [done|]. split; [done | by left].
  - destruct (Sarvam.wave_write N 1 2 16000 audio_data) as [e|wav] eqn:Hwav.
    + rewrite bool_decide_eq_false_2 by done. rewrite Hwav.
      split; [done|]. split; [done|]. right. split; [by exists e | done].
    + pose proof (Hw _ _ Hwav) as Hr. rewrite bool_decide_eq_true_2 by done.
      split; [done|]. split; [done | by left].
Qed.

Lemma convert_to_wav_is_idempotent_witness :
  (∀ frames wav, Sarvam.wave_write DemoSarvam.net 1 2 16000 frames = inr wav →
                 take 4 wav = Sarvam.RIFF) ∧
  Sarvam.convert_to_wav DemoSarvam.net
    (Sarvam.convert_to_wav DemoSarvam.net [Byte.x01; Byte.x02]) =
    Sarvam.RIFF ++ [Byte.x01; Byte.x02].
Proof.
  assert (∀ frames wav, Sarvam.wave_write DemoSarvam.net 1 2 16000 frames = inr wav →
                        take 4 wav = Sarvam.RIFF) as Hw.
  { intros frames wav [= <-]. reflexivity. }
  split; [exact Hw|].
  destruct (convert_to_wav_is_idempotent DemoSarvam.net [Byte.x01; Byte.x02] Hw)
    as (-> & _). reflexivity.
Defined.

(** ** Uploaded files: one category at most *)

Lemma prefix_cons a p s :
  String.prefix (String a p) s = true →
  ∃ s', s = String a s' ∧ String.prefix p s' = true.
Proof.
  destruct s as [|b s]; [done|]. cbn.
  destruct (ascii_dec a b) as [->|]; [|done]. by exists s.
Qed.

Lemma startswith_image_video s :
  startswith s "image/" = true → startswith s "video/" = false.
Proof.
  unfold startswith. intros (s' & -> & _)%prefix_cons.
  reflexivity.
Qed.

Lemma startswith_image_a s p :
  startswith s "image/" = true → startswith s (String "a" p) = false.
Proof.
  unfold startswith. intros (s' & -> & _)%prefix_cons.
  reflexivity.
Qed.

Lemma startswith_video_a s p :
  startswith s "video/" = true → startswith s (String "a" p) = false.
Proof.
  unfold startswith. intros (s' & -> & _)%prefix_cons.
  reflexivity.
Qed.

Lemma startswith_audio_application s p :
  startswith s "audio/" = true → startswith s (String "a" (String "p" p)) = false.
Proof.
  unfold startswith. intros (s1 & -> & (s2 & -> & _)%prefix_cons)%prefix_cons.
  reflexivity.
Qed.

(** X13.  The four categories of an uploaded file exclude each other:
    whatever its MIME type, at most one of [is_image], [is_video],
    [is_audio] and [is_document] holds. *)
Theorem uploaded_file_has_at_most_one_category (f : UploadedFile.t) :
  (Nat.b2n (UploadedFile.is_image f) + Nat.b2n (UploadedFile.is_video f) +
   Nat.b2n (UploadedFile.is_audio f) + Nat.b2n (UploadedFile.is_document f) ≤ 1)%nat.
Proof.
  unfold UploadedFile.is_image, UploadedFile.is_video, UploadedFile.is_audio,
    UploadedFile.is_document, UploadedFile.doc_types.
  set (m := UploadedFile.mime_type f). cbn [existsb].
  destruct (startswith m "image/") eqn:Hi.
  - rewrite (startswith_image_video m Hi), !(startswith_image_a m _ Hi). cbn. lia.
  - destruct (startswith m "video/") eqn:Hv.
    + rewrite !(startswith_video_a m _ Hv). cbn. lia.
    + destruct (startswith m "audio/") eqn:Ha.
      * rewrite !(startswith_audio_application m _ Ha). cbn. lia.
      * cbn. destruct (_ || _); cbn; lia.
Qed.

(** ** Stream sessions end once *)

(** X14.  A stream session ends once: [end_session] on a session that has
    ended changes nothing, whatever the time and even after an error was
    recorded on it; ending an open session sets [ended_at], the status
    [ended] and a duration that [calculate_duration] reports from then on,
    at any later time.  [record_error] never reopens a session. *)
Theorem stream_session_ends_once (now later : Z) (message : string)
    (s : StreamSession.t) :
  let ended := StreamSession.end_session now s in
  StreamSession.end_session later ended = ended ∧
  StreamSession.end_session later (StreamSession.record_error message ended) =
    StreamSession.record_error message ended ∧
  StreamSession.ended_at (StreamSession.record_error message s) =
    StreamSession.ended_at s ∧
  (StreamSession.ended_at s = None →
     StreamSession.ended_at ended = Some now ∧
     StreamSession.status ended = "ended" ∧
     StreamSession.calculate_duration later ended =
       StreamSession.duration_seconds ended ∧
     StreamSession.duration_seconds ended =
       StreamSession.calculate_duration now s).
Proof.
  cbn zeta. unfold StreamSession.end_session, StreamSession.calculate_duration.
  destruct (StreamSession.ended_at s) as [e|] eqn:He; cbn; rewrite ?He; by repeat split.
Qed.

(** ** Permission checks agree *)

Section Permissions.

Import Rbac.

Lemma permission_named_spec T pid n :
  permission_named T pid n = true ↔
  ∃ p, In p (permissions T) ∧ perm_id p = pid ∧ perm_name p = n.
Proof.
  unfold permission_named. rewrite existsb_exists. split.
  - intros (p & Hp & (H1%Nat.eqb_eq & H2%String.eqb_eq)%andb_prop). by exists p.
  - intros (p & Hp & H1 & H2). exists p. split; [done|].
    apply andb_true_intro. split; [by apply Nat.eqb_eq | by apply String.eqb_eq].
Qed.

Lemma role_perms_spec T self n :
  In n (flat_map (fun p =>
          flat_map (fun rp =>
            if Nat.eqb (rp_permission_id rp) (perm_id p) &&
               String.eqb (rp_role rp) (role self)
            then [perm_name p] else []) (role_permissions T)) (permissions T)) ↔
  existsb (fun rp => String.eqb (rp_role rp) (role self) &&
                     permission_named T (rp_permission_id rp) n)
    (role_permissions T) = true.
Proof.
  rewrite in_flat_map, existsb_exists. split.
  - intros (p & Hp & (rp & Hrp & Hn)%in_flat_map). exists rp. split; [done|].
    destruct (Nat.eqb_spec (rp_permission_id rp) (perm_id p)) as [Hid|]; [|done].
    destruct (String.eqb (rp_role rp) (role self)); [|done].
    destruct Hn as [<-|[]]. cbn. apply permission_named_spec. by exists p.
  - intros (rp & Hrp & (Hr & (p & Hp & Hid & Hn)%permission_named_spec)%andb_prop).
    exists p. split; [done|]. apply in_flat_map. exists rp. split; [done|].
    rewrite Hid, Nat.eqb_refl, Hr. cbn. by left.
Qed.

Lemma user_perms_spec T self n :
  In n (flat_map (fun p =>
          flat_map (fun up =>
            if Nat.eqb (up_permission_id up) (perm_id p) &&
               Nat.eqb (up_user_profile_id up) (profile_id self) &&
               up_granted up
            then [perm_name p] else []) (user_permissions T)) (permissions T)) ↔
  existsb (fun up => Nat.eqb (up_user_profile_id up) (profile_id self) &&
                     permission_named T (up_permission_id up) n &&
                     up_granted up)
    (user_permissions T) = true.
Proof.
  rewrite in_flat_map, existsb_exists. split.
  - intros (p & Hp & (up & Hup & Hn)%in_flat_map). exists up. split; [done|].
    destruct (Nat.eqb_spec (up_permission_id up) (perm_id p)) as [Hid|]; [|done].
    destruct (Nat.eqb (up_user_profile_id up) (profile_id self)); [|done].
    destruct (up_granted up); [|done].
    destruct Hn as [<-|[]]. cbn. rewrite andb_true_r.
    apply permission_named_spec. by exists p.
  - intros (up & Hup & ((Hu & (p & Hp & Hid & Hn)%permission_named_spec)%andb_prop
                        & Hg)%andb_prop).
    exists p. split; [done|]. apply in_flat_map. exists up. split; [done|].
    rewrite Hid, Nat.eqb_refl, Hu, Hg. cbn. by left.
Qed.

End Permissions.

(** X15.  For every profile but a superadmin's, [has_permission] and
    [get_permissions] agree: a permission is granted exactly when its name
    is in the list, which has no duplicates.  A superadmin is granted every
    name, also names of no permission, while the list holds the names in
    the [Permission] table.  A user-specific row never revokes: adding one,
    granted or not, takes no permission away. *)
Theorem permission_checks_agree
    (T : Rbac.Tables) (self : Rbac.UserProfile) (permission_name : string)
    (up : Rbac.UserPermission) :
  (Rbac.is_superadmin self = false →
     (Rbac.has_permission T self permission_name = true ↔
      permission_name ∈ Rbac.get_permissions T self) ∧
     NoDup (Rbac.get_permissions T self)) ∧
  (Rbac.is_superadmin self = true →
     Rbac.has_permission T self permission_name = true ∧
     Rbac.get_permissions T self = Rbac.perm_name <$> Rbac.permissions T) ∧
  (Rbac.has_permission T self permission_name = true →
   Rbac.has_permission
     {| Rbac.permissions := Rbac.permissions T;
        Rbac.role_permissions := Rbac.role_permissions T;
        Rbac.user_permissions := up :: Rbac.user_permissions T |}
     self permission_name = true).
Proof.
  split; [|split].
  - intros Hsuper. unfold Rbac.has_permission, Rbac.get_permissions. rewrite Hsuper.
    split; [|apply NoDup_remove_dups].
    rewrite elem_of_remove_dups, elem_of_app, !list_elem_of_In.
    rewrite role_perms_spec, user_perms_spec.
    destruct (existsb _ (Rbac.role_permissions T)); [by split; [left|]|].
    split; [by right | by intros [|]].
  - intros Hsuper. unfold Rbac.has_permission, Rbac.get_permissions.
    by rewrite Hsuper.
  - set (T' := {| Rbac.permissions := Rbac.permissions T;
                  Rbac.role_permissions := Rbac.role_permissions T;
                  Rbac.user_permissions := up :: Rbac.user_permissions T |}).
    unfold Rbac.has_permission. destruct (Rbac.is_superadmin self); [done|].
    change (Rbac.role_permissions T') with (Rbac.role_permissions T).
    change (Rbac.user_permissions T') with (up :: Rbac.user_permissions T).
    change (Rbac.permission_named T') with (Rbac.permission_named T).
    destruct (existsb _ (Rbac.role_permissions T)); [done|].
    cbn [existsb]. intros ->. apply orb_true_r.
Qed.

(** ** Clean texts *)

Lemma lstrip_length s : (String.length (lstrip s) ≤ String.length s)%nat.
Proof.
  induction s as [|a s IH]; [done|]. cbn. destruct (isspace a); cbn; lia.
Qed.

Lemma clean_head s :
  clean s → ∃ a s', s = String a s' ∧ isspace a = false.
Proof.
  intros (Hne & Hl & _). destruct s as [|a s']; [done|]. exists a, s'.
  split; [done|]. cbn in Hl. destruct (isspace a); [|done].
  pose proof (lstrip_length s') as Hlen. rewrite Hl in Hlen. cbn in Hlen. lia.
Qed.

Lemma lstrip_app_clean s x : clean s → lstrip (s +:+ x) = s +:+ x.
Proof.
  intros (a & s' & -> & Ha)%clean_head. rewrite append_cons. cbn. by rewrite Ha.
Qed.

Lemma append_empty s t : s +:+ t = "" → t = "".
Proof. destruct s; [done|]. by rewrite append_cons. Qed.

Lemma rstrip_app_clean x s : clean s → rstrip (x +:+ s) = x +:+ s.
Proof.
  intros (Hne & _ & Hr). induction x as [|c x IH]; [done|].
  rewrite append_cons. cbn [rstrip]. rewrite IH.
  destruct (x +:+ s) eqn:Hxs; [|done]. by apply append_empty in Hxs.
Qed.

Lemma strip_clean s : clean s → strip s = s.
Proof. intros (_ & Hl & Hr). unfold strip. by rewrite Hr. Qed.

Lemma clean_join a b : clean a → clean b → clean (a +:+ (" " +:+ b)).
Proof.
  intros Ha Hb. split; [|split].
  - destruct (clean_head a Ha) as (c & a' & -> & _). by rewrite append_cons.
  - by apply lstrip_app_clean.
  - rewrite <- append_assoc. by apply rstrip_app_clean.
Qed.

Lemma strip_space_clean t : clean t → strip (" " +:+ t) = t.
Proof.
  intros Ht. unfold strip. rewrite (rstrip_app_clean " " t Ht).
  change (lstrip (" " +:+ t)) with (lstrip t). apply Ht.
Qed.

(** Appending a clean text [t] as the relay does: the stored text and the
    trimmed accumulated text stay the same text. *)
Lemma clean_step full t :
  clean t →
  full = "" ∨ (∃ J, clean J ∧ full = J +:+ " ") →
  strip (strip full +:+ (" " +:+ t)) = strip (full +:+ (t +:+ " ")) ∧
  ∃ J', clean J' ∧ full +:+ (t +:+ " ") = J' +:+ " ".
Proof.
  intros Ht [->|(J & HJ & ->)].
  - split.
    + change (strip "" +:+ (" " +:+ t)) with (" " +:+ t).
      change ("" +:+ (t +:+ " ")) with (t +:+ " ").
      by rewrite strip_space_clean, strip_append_space, strip_clean.
    + by exists t.
  - pose proof (clean_join J t HJ Ht) as HJ'.
    assert ((J +:+ " ") +:+ (t +:+ " ") = (J +:+ (" " +:+ t)) +:+ " ") as Heq.
    { by rewrite !append_assoc. }
    split.
    + rewrite Heq, !strip_append_space, (strip_clean J HJ). done.
    + by exists (J +:+ (" " +:+ t)).
Qed.

(** ** The stored text follows the reported text *)

Lemma tracked_same_text st st' :
  tracked st →
  Consumer.transcription_id (fst st') = Consumer.transcription_id (fst st) →
  Consumer.full_transcription (fst st') = Consumer.full_transcription (fst st) →
  (∀ id r, Consumer.transcription_id (fst st) = Some id →
           rows (snd st) !! id = Some r →
           ∃ r', rows (snd st') !! id = Some r' ∧
                 Transcription.transcription_text r' =
                   Transcription.transcription_text r) →
  tracked st'.
Proof.
  intros [(id & r & Htid & Hr & Htext) Hfull] Ht Hf Hrows.
  destruct (Hrows id r Htid Hr) as (r' & Hr' & Htext').
  split; [|by rewrite Hf]. exists id, r'. rewrite Ht, Hf, Htext'. done.
Qed.

Lemma send_error_tracked m st : tracked st → tracked (send_error m st).
Proof.
  intros Hst. apply (tracked_same_text st); [done|by rewrite send_error_fst..|].
  intros id r Htid Hr. rewrite send_error_rows, Htid. cbn.
  destruct (id =? 0)%nat; cbn; [by exists r|].
  rewrite Hr. eexists. by rewrite lookup_insert_eq.
Qed.

Section Tracking.

Context (E : Env).

Lemma process_audio_buffer_rows_success st t :
  flush_result E st = GwSuccess t →
  rows (snd (process_audio_buffer E st)) =
  match objects_get (Consumer.transcription_id (fst st)) (snd st) with
  | Some (id, r) => <[id := appended_row t (clock (snd st)) r]> (rows (snd st))
  | None => rows (snd st)
  end.
Proof.
  destruct st as [c w].
  unfold flush_result, flush_call, process_audio_buffer, transcribe_audio.
  cbn. change (buffer_of (c, w)) with (Consumer.audio_buffer c).
  intros ->. cbn. by rewrite update_transcription_rows.
Qed.

Lemma process_audio_buffer_tracked st :
  clean_engine E → tracked st → tracked (process_audio_buffer E st).
Proof.
  intros Hclean Hst.
  destruct (flush_result E st) as [t|e|e] eqn:Hres.
  - assert (clean t) as Ht by (by apply (Hclean _ _ _ _ Hres)).
    destruct Hst as [(id & r & Htid & Hr & Htext) Hfull].
    destruct (clean_step _ t Ht Hfull) as [Heq HJ].
    split.
    + exists id, (appended_row t (clock (snd st)) r).
      rewrite process_audio_buffer_fst, Hres. cbn [fst flush_text
        Consumer.transcription_id Consumer.full_transcription].
      split; [done|].
      rewrite (process_audio_buffer_rows_success st t Hres), Htid. cbn.
      rewrite Hr, lookup_insert_eq. split; [done|]. cbn. by rewrite Htext.
    + right. rewrite process_audio_buffer_fst, Hres. exact HJ.
  - rewrite (process_audio_buffer_failure E st _ ltac:(by rewrite Hres)).
    apply send_error_tracked. by apply (tracked_same_text st); [| | |eauto].
  - rewrite (process_audio_buffer_failure E st _ ltac:(by rewrite Hres)).
    apply send_error_tracked. by apply (tracked_same_text st); [| | |eauto].
Qed.

Lemma handle_audio_binary_tracked b st :
  clean_engine E → tracked st → tracked (handle_audio_binary E b st).
Proof.
  intros Hclean Hst. destruct st as [c w]. unfold handle_audio_binary.
  assert (tracked (Consumer.set_audio_buffer (Consumer.audio_buffer c ++ b) c, w)).
  { by apply (tracked_same_text (c, w)); [| | |eauto]. }
  destruct (_ <=? _); [by apply process_audio_buffer_tracked | done].
Qed.

Lemma last_flush_tracked st :
  clean_engine E → tracked st → tracked (last_flush E st).
Proof.
  intros Hclean Hst. unfold last_flush.
  destruct (_ <? _); [by apply process_audio_buffer_tracked | done].
Qed.

Lemma handle_end_tracked st :
  clean_engine E → tracked st → tracked (handle_end E st).
Proof.
  intros Hclean Hst. apply last_flush_tracked in Hst; [|done].
  rewrite handle_end_eq. destruct Hst as [(id & r & Htid & Hr & Htext) Hfull].
  split; [|done]. cbn [fst snd]. change (rows (send ?f ?w)) with (rows w).
  rewrite mark_transcription_completed_rows, Htid. cbn. rewrite Hr.
  eexists id, _. by rewrite lookup_insert_eq.
Qed.

Lemma receive_tracked f st :
  clean_engine E → is_config (frame_kind_of E f) = false →
  tracked st → tracked (receive E f st).
Proof.
  intros Hclean Hcfg Hst. rewrite receive_by_kind.
  destruct (frame_kind_of E f) as [data|data| |mt| |v|b|]; try done.
  - destruct st as [c w]. unfold handle_audio. destruct (b64decode E _) as [e|b].
    + by apply send_error_tracked.
    + by apply (handle_audio_binary_tracked b (c, w)).
  - by apply handle_end_tracked.
  - by apply send_error_tracked.
  - by apply send_error_tracked.
  - by apply send_error_tracked.
  - by apply handle_audio_binary_tracked.
Qed.

Lemma run_tracked frames st :
  clean_engine E →
  Forall (fun f => is_config (frame_kind_of E f) = false) frames →
  tracked st → tracked (run E frames st).
Proof.
  intros Hclean. revert st. induction frames as [|f frames IH]; intros st Hall Hst;
    [done|].
  apply Forall_cons in Hall as [Hf Hall].
  change (run E (f :: frames) st) with (run E frames (receive E f st)).
  by apply IH, receive_tracked.
Qed.

End Tracking.

Lemma config_done_tracked data st :
  Consumer.full_transcription (fst st) = "" → tracked (config_done data st).
Proof.
  intros Hfull. destruct (config_done_step data st) as (Hrows & _ & _ & Htid).
  split.
  - eexists _, _. split; [exact Htid|]. rewrite Hrows, lookup_insert_eq.
    split; [done|]. by rewrite config_done_fst, Hfull.
  - left. by rewrite config_done_fst.
Qed.

(** X16.  When the engine returns clean texts (not empty, no white space at
    either end), the text stored in a session's record is at every moment
    the full text reported to the client: after a [config] whose record is
    stored, received before any text was recognised, and any further frames
    but another [config], the record's [transcription_text] is the trimmed
    accumulated text.  The incremental update of the record and the running
    text of the session never drift apart. *)
Theorem stored_text_is_the_reported_text
    (E : Env) (data : list (string * json)) (frames : list in_frame) (st : St) :
  clean_engine E →
  Consumer.full_transcription (fst st) = "" →
  config_accepted E data st = true →
  Forall (fun f => is_config (frame_kind_of E f) = false) frames →
  let st' := run E frames (snd (handle_config E data st)) in
  ∃ r,
    rows (snd st') !! next_id (snd st) = Some r ∧
    Consumer.transcription_id (fst st') = Some (next_id (snd st)) ∧
    Transcription.transcription_text r =
      strip (Consumer.full_transcription (fst st')).
Proof.
  intros Hclean Hfull Hacc Hall. cbn zeta.
  rewrite handle_config_state, Hacc.
  pose proof (config_done_tracked data st Hfull) as H0.
  destruct (run_tracked E frames _ Hclean Hall H0) as [(id & r & Htid & Hr & Htext) _].
  assert (Consumer.transcription_id (fst (run E frames (config_done data st))) =
          Some (next_id (snd st))) as Hsame.
  { destruct (config_done_step data st) as (_ & _ & _ & <-).
    clear -Hall. revert Hall. generalize (config_done data st).
    induction frames as [|f frames IH]; intros s Hall; [done|].
    apply Forall_cons in Hall as [Hf Hall].
    change (run E (f :: frames) s) with (run E frames (receive E f s)).
    rewrite (IH _ Hall). by destruct (receive_steps E f s Hf) as [_ ->]. }
  rewrite Hsame in Htid. injection Htid as <-. by exists r.
Qed.


Lemma stored_text_is_the_reported_text_witness :
  let frames := [Demo.binary_frame Demo.second_of_audio;
                 Demo.binary_frame Demo.second_of_audio;
                 Demo.text_frame Demo.end_text] in
  let st' := run steady_env frames
               (snd (handle_config steady_env [("language_code", JStr "ta-IN")]
                       Demo.session1)) in
  clean_engine steady_env ∧
  config_accepted steady_env [("language_code", JStr "ta-IN")] Demo.session1 = true ∧
  Forall (fun f => is_config (frame_kind_of steady_env f) = false) frames ∧
  ∃ r, rows (snd st') !! 2%nat = Some r ∧
       Consumer.transcription_id (fst st') = Some 2%nat ∧
       Transcription.transcription_text r =
         strip (Consumer.full_transcription (fst st')).
Proof.
  cbn zeta.
  assert (clean_engine steady_env) as Hclean.
  { intros n a l t [= <-]. repeat split; discriminate. }
  assert (Forall (fun f => is_config (frame_kind_of steady_env f) = false)
            [Demo.binary_frame Demo.second_of_audio;
             Demo.binary_frame Demo.second_of_audio;
             Demo.text_frame Demo.end_text]) as Hall.
  { repeat constructor. }
  split; [exact Hclean|]. split; [reflexivity|]. split; [exact Hall|].
  exact (stored_text_is_the_reported_text steady_env
           [("language_code", JStr "ta-IN")] _ Demo.session1
           Hclean eq_refl eq_refl Hall).
Defined.

(** The premise on the engine is needed: after a text that ends in white
    space the record, which is trimmed at every update, and the running
    text, which is trimmed only when it is sent, differ in their inner
    spaces. *)
Example padded_text_lets_the_stored_text_drift :
  let frames := replicate 4 (Demo.binary_frame Demo.second_of_audio) in
  let st' := run Demo.env frames
               (snd (handle_config Demo.env [("language_code", JStr "ta-IN")]
                       Demo.session1)) in
  Transcription.transcription_text <$> rows (snd st') !! 2%nat =
    Some "vanakkam  ulagam nandri" ∧
  strip (Consumer.full_transcription (fst st')) = "vanakkam  ulagam  nandri".
Proof. vm_compute. split; reflexivity. Qed.


(** ** A [config] that is refused *)

Lemma connect_accepted_who E scope st :
  conn (snd (connect E scope st)) = Accepted →
  conn (snd st) ≠ Accepted →
  ∃ id username sid,
    Consumer.user (fst (connect E scope st)) = Some (AuthUser id username) ∧
    Consumer.session_id (fst (connect E scope st)) = Some sid.
Proof.
  destruct st as [c w]. unfold connect.
  destruct (default AnonymousUser (scope_user scope)) as [|id username]; cbn.
  - done.
  - intros _ _. by eexists _, _, _.
Qed.

Lemma serve_accepted_who E scope frames tbl next now seed :
  let st := serve E scope frames (new_connection tbl next now seed) in
  conn (snd st) = Accepted →
  ∃ id username sid,
    Consumer.user (fst st) = Some (AuthUser id username) ∧
    Consumer.session_id (fst st) = Some sid.
Proof.
  cbn zeta. unfold serve. destruct (JWTAuthMiddleware_call E scope) as [scope'|]; [|done].
  set (st0 := connect E scope' (Consumer.init, new_connection tbl next now seed)).
  destruct (conn (snd st0)) eqn:Hconn; try (intros H; congruence).
  intros _. destruct (run_who E frames st0) as [-> ->].
  by apply connect_accepted_who.
Qed.

Lemma handle_config_returns E data st :
  fst (handle_config E data st) = Returned tt ↔ config_accepted E data st = true.
Proof.
  destruct (config_accepted E data st) eqn:Ha.
  - by rewrite handle_config_accepted.
  - by rewrite handle_config_refused.
Qed.

(** X17.  A [config] whose record is refused is answered with one error
    frame, carrying the text of the exception, and no [config_confirmed].
    No record is added and no call is made; the session keeps the record id
    it had, and the record it names, if any, is marked failed at the clock
    reading the create left.  The language is set all the same: it was
    assigned before the create, so the flushes that follow carry the
    requested value. *)
Theorem refused_config_is_reported_and_adds_no_record
    (E : Env) (f : in_frame) (data : list (string * json)) (st : St) :
  frame_kind_of E f = KConfig data →
  fst (handle_config E data st) ≠ Returned tt →
  let st' := receive E f st in
  let m := "Error processing message: " +:+ config_error E data st in
  fst (handle_config E data st) = Raised (config_error E data st) ∧
  sent (snd st') = sent (snd st) ++ [Error m] ∧
  calls (snd st') = calls (snd st) ∧
  dom (rows (snd st')) = dom (rows (snd st)) ∧
  fst st' =
    Consumer.set_language_code (dict_get data "language_code" (JStr "hi-IN")) (fst st) ∧
  (clock (snd st) ≤ error_clock E f st ≤ 2 + clock (snd st))%nat ∧
  (∀ id r,
     Consumer.transcription_id (fst st) = Some id → id ≠ 0%nat →
     rows (snd st) !! id = Some r →
     rows (snd st') = <[id := failed_row m (error_clock E f st) r]> (rows (snd st))) ∧
  (truthy_id (Consumer.transcription_id (fst st)) = false →
     rows (snd st') = rows (snd st)) ∧
  (∀ audio_bytes,
     FLUSH_THRESHOLD ≤ len (buffer_of st ++ audio_bytes) →
     call_language <$> last (calls (snd (handle_audio_binary E audio_bytes st'))) =
       Some (dict_get data "language_code" (JStr "hi-IN"))).
Proof.
  intros Hk Hret. cbn zeta.
  assert (config_accepted E data st = false) as Hacc.
  { destruct (config_accepted E data st) eqn:Ha; [|done].
    by apply handle_config_returns in Ha. }
  assert (error_clock E f st = clock (snd (config_failed data st))) as Hclock.
  { unfold error_clock. by rewrite Hk, handle_config_state, Hacc. }
  rewrite receive_by_kind, Hk, (configure_refused E data st Hacc), Hclock.
  destruct (config_failed_world data st) as (Hrows & Hnext & Hsent & Hcalls & _ & _ & Hc).
  split; [by rewrite handle_config_refused|].
  split; [by rewrite send_error_sent, Hsent|].
  split; [by rewrite send_error_calls|].
  split.
  { rewrite send_error_rows, Hrows. destruct (truthy_id _); [|done].
    destruct (objects_get _ _) as [[id r]|] eqn:Hget; [|done].
    apply dom_insert_lookup_L. apply objects_get_Some in Hget as [_ Hr].
    rewrite Hrows in Hr. by rewrite Hr. }
  split; [by rewrite send_error_fst|].
  split; [done|].
  split.
  { intros id r Htid Hne Hr.
    rewrite (send_error_marks_failed _ (config_failed data st) id r); try done.
    - by rewrite Hrows.
    - by rewrite Hrows. }
  split.
  { intros Hnone. rewrite send_error_no_record by done. done. }
  intros audio_bytes Hlen.
  set (st1 := send_error _ _).
  assert (fst st1 = Consumer.set_language_code
                      (dict_get data "language_code" (JStr "hi-IN")) (fst st)) as Hfst
    by (unfold st1; by rewrite send_error_fst).
  destruct st1 as [c1 w1]. cbn [fst] in Hfst. unfold handle_audio_binary.
  assert ((FLUSH_THRESHOLD <=?
           len (Consumer.audio_buffer
                  (Consumer.set_audio_buffer (Consumer.audio_buffer c1 ++ audio_bytes) c1)))
          = true) as ->.
  { apply Z.leb_le. rewrite Hfst. exact Hlen. }
  rewrite process_audio_buffer_calls, last_snoc. cbn. by rewrite Hfst.
Qed.

Lemma refused_config_is_reported_and_adds_no_record_witness :
  let f := Demo.text_frame Demo.null_config_text in
  let data := [("type", JStr "config"); ("language_code", JNull)] in
  frame_kind_of Demo.env f = KConfig data ∧
  fst (handle_config Demo.env data Demo.session1) ≠ Returned tt ∧
  sent (snd (receive Demo.env f Demo.session1)) =
    [Error ("Error processing message: " +:+
            "NOT NULL constraint failed: api_transcription.language_code")] ∧
  Consumer.language_code (fst (receive Demo.env f Demo.session1)) = JNull.
Proof.
  cbn zeta.
  assert (fst (handle_config Demo.env
                 [("type", JStr "config"); ("language_code", JNull)] Demo.session1)
          ≠ Returned tt) as Hret by (vm_compute; discriminate).
  split; [reflexivity|]. split; [exact Hret|].
  destruct (refused_config_is_reported_and_adds_no_record Demo.env
              (Demo.text_frame Demo.null_config_text)
              [("type", JStr "config"); ("language_code", JNull)]
              Demo.session1 eq_refl Hret) as (_ & Hsent & _ & _ & Hfst & _).
  split; [exact Hsent|]. by rewrite Hfst.
Defined.

(** X18.  On an accepted connection the user and the session id are set,
    so that a [config] is refused for two reasons only: its language code
    is null, or the database refuses the row.  In particular a [config]
    with no [language_code] entry, which gets the default, and one whose
    [language_code] is any other JSON value are handed to the database. *)
Theorem config_is_refused_only_for_null_or_by_the_database
    (E : Env) (scope : Scope) (frames : list in_frame)
    (tbl : gmap nat Transcription.t) (next : nat) (now : time) (seed : nat)
    (data : list (string * json)) :
  let st := serve E scope frames (new_connection tbl next now seed) in
  let language_code := dict_get data "language_code" (JStr "hi-IN") in
  conn (snd st) = Accepted →
  (fst (handle_config E data st) = Returned tt ↔
   language_code ≠ JNull ∧
   insert_refused E (Consumer.user (fst st)) language_code
     (Consumer.session_id (fst st)) = false) ∧
  (assoc "language_code" data = None → language_code ≠ JNull).
Proof.
  cbn zeta. intros Hconn.
  destruct (serve_accepted_who E scope frames tbl next now seed Hconn)
    as (id & username & sid & Hu & Hs).
  split.
  - rewrite handle_config_returns. unfold config_accepted. cbn zeta.
    rewrite Hu, Hs. cbn.
    destruct (dict_get data "language_code" (JStr "hi-IN")); cbn;
      destruct (insert_refused E _ _ _); cbn; split; (done || by intros [? ?]).
  - unfold dict_get. by intros ->.
Qed.

Lemma config_is_refused_only_for_null_or_by_the_database_witness :
  let st := serve Demo.env Demo.good_scope [] Demo.world0 in
  conn (snd st) = Accepted ∧
  fst (handle_config Demo.env [("language_code", JStr "ta-IN")] st) = Returned tt ∧
  fst (handle_config Demo.env [("language_code", JNull)] st) ≠ Returned tt.
Proof.
  cbn zeta. split; [reflexivity|].
  pose proof (config_is_refused_only_for_null_or_by_the_database Demo.env
                Demo.good_scope [] ∅ 1%nat 100%nat 0%nat) as H.
  split.
  - apply (H [("language_code", JStr "ta-IN")] eq_refl). by split.
  - intros Hret. apply (H [("language_code", JNull)] eq_refl) in Hret as [Hne _].
    by apply Hne.
Defined.
